(** * Stencil pipeline of the stencil lab: a shallow embedding

    The development follows [src/utils/imageProcessor.ts]: the sliding-window
    box blur, the convolution engine, the realism tone mapper, the two
    binarization algorithms, the morphology passes and the page composer.

    Modelling conventions.
    - A JavaScript [number] is an exact rational extended with the two
      infinities and NaN ([num]).  Rounding of IEEE doubles and of stores
      into a [Float32Array] is abstracted: arithmetic is exact, and its
      results are kept in lowest terms ([Qred]).  There is no negative
      zero.  The statements are kept to what does not depend on that
      rounding: planes of bytes, the ranges of the sliders, and no choice
      between the two integers nearest to a value halfway between them.
    - The one computation whose integer result depends on the rounding of
      doubles, the radii of the difference of Gaussians (a product followed
      by [Math.ceil]), is carried out in IEEE binary64 with the operations
      of the Standard Library's [SpecFloat].
    - A [Float32Array] is a [list num]; a [Uint8ClampedArray] is a [list Z]
      whose stores clamp and round half to even ([toUint8Clamp]).  Reading a
      typed array outside its bounds yields [undefined], which behaves as NaN
      in arithmetic; writing outside its bounds does nothing.
    - Loops are folds over the index range with the loop-carried variables
      as the state ([for_]).
    - The canvas calls of the browser (resize, mirroring, CSS filter,
      encoding) are outside the embedding: the pipeline starts from the
      pixel buffer returned by [getImageData] and the page composer yields
      the sequence of draw calls issued on the A4 canvas.  The size asked
      of the resize is [processingSize]; the raster put back on the
      processing canvas is [canvasRaster].
    - The repository holds a second copy of the pipeline that differs in
      the realism block only (a brilliance curve in place of the vibrance
      step); that block is embedded in [BrillianceCopy].
    - The two state updates of [processImages] in [src/App.tsx] are
      embedded in [App] as functions on the gallery, the end of each
      processing promise being an [outcome]. *)

From Stdlib Require Import ZArith QArith Qround Lia Lqa Bool String.
From Stdlib Require Import SpecFloat.
From stdpp Require Import base list.

Local Open Scope nat_scope.

(** ** Numbers *)

Inductive num : Type :=
  | Fin (q : Q)
  | PInf
  | NInf
  | NaN.

Definition qsign (q : Q) : comparison := (Qnum q ?= 0)%Z.

Definition nadd (a b : num) : num :=
  match a, b with
  | NaN, _ | _, NaN => NaN
  | Fin x, Fin y => Fin (Qred (x + y))
  | PInf, NInf | NInf, PInf => NaN
  | PInf, _ | _, PInf => PInf
  | NInf, _ | _, NInf => NInf
  end.

Definition nneg (a : num) : num :=
  match a with
  | Fin x => Fin (Qred (- x))
  | PInf => NInf
  | NInf => PInf
  | NaN => NaN
  end.

Definition nsub (a b : num) : num :=
  match a, b with
  | NaN, _ | _, NaN => NaN
  | Fin x, Fin y => Fin (Qred (x - y))
  | PInf, PInf | NInf, NInf => NaN
  | PInf, _ | _, NInf => PInf
  | NInf, _ | _, PInf => NInf
  end.

(** Product of an infinity (positive when [pos]) with a finite factor. *)
Definition inf_times (pos : bool) (q : Q) : num :=
  match qsign q with
  | Eq => NaN
  | Gt => if pos then PInf else NInf
  | Lt => if pos then NInf else PInf
  end.

Definition nmul (a b : num) : num :=
  match a, b with
  | NaN, _ | _, NaN => NaN
  | Fin x, Fin y => Fin (Qred (x * y))
  | PInf, Fin y => inf_times true y
  | NInf, Fin y => inf_times false y
  | Fin x, PInf => inf_times true x
  | Fin x, NInf => inf_times false x
  | PInf, PInf | NInf, NInf => PInf
  | PInf, NInf | NInf, PInf => NInf
  end.

Definition ndiv (a b : num) : num :=
  match a, b with
  | NaN, _ | _, NaN => NaN
  | Fin x, Fin y =>
      match qsign y with
      | Eq => inf_times true x
      | _ => Fin (Qred (x / y))
      end
  | Fin _, _ => Fin 0
  | PInf, Fin y => match qsign y with Lt => NInf | _ => PInf end
  | NInf, Fin y => match qsign y with Lt => PInf | _ => NInf end
  | _, _ => NaN
  end.

Definition Qlt_bool (x y : Q) : bool := negb (Qle_bool y x).

(** The comparison operators: every comparison with NaN is false. *)
Definition nlt (a b : num) : bool :=
  match a, b with
  | NaN, _ | _, NaN => false
  | Fin x, Fin y => Qlt_bool x y
  | NInf, NInf | PInf, _ | _, NInf => false
  | NInf, _ | _, PInf => true
  end.

Definition ngt (a b : num) : bool := nlt b a.

Definition nle (a b : num) : bool :=
  match a, b with
  | NaN, _ | _, NaN => false
  | Fin x, Fin y => Qle_bool x y
  | NInf, _ | _, PInf => true
  | PInf, _ | _, NInf => false
  end.

Definition nge (a b : num) : bool := nle b a.

(** [Math.max] and [Math.min] of two arguments: NaN when either is NaN. *)
Definition nmax (a b : num) : num :=
  match a, b with
  | NaN, _ | _, NaN => NaN
  | _, _ => if nle a b then b else a
  end.

Definition nmin (a b : num) : num :=
  match a, b with
  | NaN, _ | _, NaN => NaN
  | _, _ => if nle a b then a else b
  end.

(** Equality of numbers as values ([Fin (2 # 2)] and [Fin 1] are the same
    number); NaN is identified with itself here, unlike [===]. *)
Definition num_eqb (a b : num) : bool :=
  match a, b with
  | Fin x, Fin y => Qeq_bool x y
  | PInf, PInf | NInf, NInf | NaN, NaN => true
  | _, _ => false
  end.

Definition ofZ (z : Z) : num := Fin (inject_Z z).
Definition ofNat (n : nat) : num := ofZ (Z.of_nat n).

(** [Math.pow] with a non-negative integer exponent, on a finite base. *)
Definition npow (a : num) (n : nat) : num :=
  Nat.iter n (fun acc => nmul acc a) (Fin 1).

(** const clamp = (val, min, max) => Math.min(max, Math.max(min, val)) *)
Definition clamp (val lo hi : num) : num := nmin hi (nmax lo val).

(** ** Typed arrays *)

(** Conversion performed by a store into a [Uint8ClampedArray]. *)
Definition toUint8Clamp (v : num) : Z :=
  match v with
  | NaN => 0
  | NInf => 0
  | PInf => 255
  | Fin q =>
      if Qle_bool q 0 then 0
      else if Qle_bool 255 q then 255
      else
        let f := Qfloor q in
        let mid := (inject_Z f + (1 # 2))%Q in
        if Qlt_bool mid q then (f + 1)%Z
        else if Qlt_bool q mid then f
        else if Z.even f then f else (f + 1)%Z
  end.

(** Read of a [Float32Array] cell. *)
Definition rd (a : list num) (i : nat) : num := default NaN (a !! i).

(** Read of a [Uint8ClampedArray] cell, as a number. *)
Definition rdb (a : list Z) (i : nat) : num := from_option ofZ NaN (a !! i).

(** ** Loops *)

(** [for (let i = 0; i < n; i++) s = body i s] *)
Definition for_ {S : Type} (n : nat) (body : nat -> S -> S) (s : S) : S :=
  fold_left (fun st i => body i st) (seq 0 n) s.

(** ** Sliding-window box blur *)

Definition boxBlur (source : list num) (w h : nat) (radius : nat) : list num :=
  if radius <? 1 then source
  else
    let len := w * h in
    let target := replicate len (Fin 0) in
    let temp := replicate len (Fin 0) in
    (* Horizontal pass *)
    let temp :=
      for_ h (fun y temp =>
        let rowStart := y * w in
        let sum := Fin 0 in
        let windowSize := ofNat (radius * 2 + 1) in
        let sum := for_ radius (fun _ sum => nadd sum (rd source rowStart)) sum in
        let sum := for_ (radius + 1) (fun i sum => nadd sum (rd source (rowStart + i))) sum in
        snd (for_ w (fun x '(sum, temp) =>
          let temp := <[rowStart + x := ndiv sum windowSize]> temp in
          let leavingIndex := Nat.max 0 (x - radius) in
          let enteringIndex := Nat.min (w - 1) (x + radius + 1) in
          let sum := nsub sum (rd source (rowStart + leavingIndex)) in
          let sum := nadd sum (rd source (rowStart + enteringIndex)) in
          (sum, temp)) (sum, temp))) temp in
    (* Vertical pass *)
    for_ w (fun x target =>
      let sum := Fin 0 in
      let windowSize := ofNat (radius * 2 + 1) in
      let sum := for_ radius (fun _ sum => nadd sum (rd temp x)) sum in
      let sum := for_ (radius + 1) (fun i sum => nadd sum (rd temp (x + i * w))) sum in
      snd (for_ h (fun y '(sum, target) =>
        let target := <[y * w + x := ndiv sum windowSize]> target in
        let leavingIndex := Nat.max 0 (y - radius) in
        let enteringIndex := Nat.min (h - 1) (y + radius + 1) in
        let sum := nsub sum (rd temp (leavingIndex * w + x)) in
        let sum := nadd sum (rd temp (enteringIndex * w + x)) in
        (sum, target)) (sum, target))) target.


(** ** Settings *)

Inductive StencilMode : Type := SOLID | HOLLOW | REALISM.

(** The settings record of [src/types.ts].  The integer sliders are integers
    here; [brilliance] is not declared in [src/types.ts] but is read as
    [settings.brilliance] by the repository's second copy of the pipeline. *)
Record StencilSettings : Type := mkSettings {
  threshold : Q;
  thickness : Z;
  noiseReduction : Z;
  mode : StencilMode;
  isMirrored : bool;
  isMultipleSizes : bool;
  variantCount : Z;
  minSize : Q;
  maxSize : Q;
  showDimensions : bool;
  saturation : option Q;
  contrast : option Q;
  brightness : option Q;
  sharpness : option Q;
  brilliance : option Q
}.

Definition mode_eqb (a b : StencilMode) : bool :=
  match a, b with
  | SOLID, SOLID | HOLLOW, HOLLOW | REALISM, REALISM => true
  | _, _ => false
  end.

(** ** Stencil path of [generateStencil] *)

(** 2. Extract Luma (Grayscale) *)
Definition extractLuma (data : list Z) (w h : nat) : list num :=
  for_ (w * h) (fun i luma =>
    <[i := nadd (nadd (nmul (rdb data (i * 4)) (Fin 0.299))
                      (nmul (rdb data (i * 4 + 1)) (Fin 0.587)))
                (nmul (rdb data (i * 4 + 2)) (Fin 0.114))]> luma)
    (replicate (w * h) (Fin 0)).

(** 3. Pre-process (Sharpen or Blur based on Detail Level) *)
Definition preProcess (settings : StencilSettings) (luma : list num) (w h : nat)
  : list num :=
  if (noiseReduction settings <? 0)%Z then
    let strength := nmul (ofZ (Z.abs (noiseReduction settings))) (Fin 0.5) in
    let blurForSharpen := boxBlur luma w h 1 in
    for_ (w * h) (fun i processedLuma =>
      let detail := nsub (rd luma i) (rd blurForSharpen i) in
      let val := nadd (rd luma i) (nmul detail strength) in
      <[i := nmin (Fin 255) (nmax (Fin 0) val)]> processedLuma)
      (replicate (w * h) (Fin 0))
  else if (noiseReduction settings >? 0)%Z then
    if mode_eqb (mode settings) SOLID
    then boxBlur luma w h (Z.to_nat (noiseReduction settings))
    else luma
  else luma.

Definition Qmax_ (x y : Q) : Q := if Qle_bool x y then y else x.

(** *** Doubles

    The radii of the difference of Gaussians go through [Math.ceil], so the
    rounding of each product decides the integer obtained ([3 * 0.8 * 2.5]
    is just above 6 in doubles).  They are computed in IEEE binary64, with
    the operations specified by the Standard Library. *)
Definition double_prec : Z := 53.
Definition double_emax : Z := 1024.

(** The double nearest to an integer, and to a ratio of two integers. *)
Definition dbl_of_Z (z : Z) : spec_float :=
  binary_normalize double_prec double_emax z 0 false.

Definition dbl_of_Q (q : Q) : spec_float :=
  SFdiv double_prec double_emax (dbl_of_Z (Qnum q)) (dbl_of_Z (Zpos (Qden q))).

Definition dbl_mul (a b : spec_float) : spec_float :=
  SFmul double_prec double_emax a b.

(** [Math.max] of two doubles. *)
Definition dbl_max (a b : spec_float) : spec_float :=
  match a, b with
  | S754_nan, _ | _, S754_nan => S754_nan
  | _, _ => if SFltb a b then b else a
  end.

(** [Math.ceil] of a finite double, as an integer.  An infinite or NaN
    argument, which takes an [effectiveBlur] beyond the range of doubles,
    is given 0: the loops of the blur would not end on it. *)
Definition dbl_ceil (a : spec_float) : Z :=
  match a with
  | S754_finite s m e =>
      let n := if s then Z.neg m else Z.pos m in
      if (0 <=? e)%Z then (n * 2 ^ e)%Z else (- ((- n) / 2 ^ (- e)))%Z
  | _ => 0%Z
  end.

(** The two radii of the difference of Gaussians, after [Math.ceil]. *)
Definition dogRadius1 (settings : StencilSettings) : nat :=
  let effectiveBlur := Z.max 0 (noiseReduction settings) in
  let r1 := dbl_max (dbl_of_Q 0.5) (dbl_mul (dbl_of_Z effectiveBlur) (dbl_of_Q 0.8)) in
  Z.to_nat (dbl_ceil r1).

Definition dogRadius2 (settings : StencilSettings) : nat :=
  let effectiveBlur := Z.max 0 (noiseReduction settings) in
  let r1 := dbl_max (dbl_of_Q 0.5) (dbl_mul (dbl_of_Z effectiveBlur) (dbl_of_Q 0.8)) in
  let r2 := dbl_mul r1 (dbl_of_Q 2.5) in
  Z.to_nat (dbl_ceil r2).

(** 4. Apply Algorithms *)
Definition binarize (settings : StencilSettings) (processedLuma : list num)
  (w h : nat) : list num :=
  let output := replicate (w * h) (Fin 0) in
  if mode_eqb (mode settings) SOLID then
    (* ADAPTIVE THRESHOLDING *)
    let localMean := boxBlur processedLuma w h 16 in
    let bias := Fin ((255 - threshold settings) / 5) in
    for_ (w * h) (fun i output =>
      if nlt (rd processedLuma i) (nsub (rd localMean i) bias)
      then <[i := Fin 0]> output
      else <[i := Fin 255]> output) output
  else
    (* DIFFERENCE OF GAUSSIANS (DoG) *)
    let blur1 := boxBlur processedLuma w h (dogRadius1 settings) in
    let blur2 := boxBlur processedLuma w h (dogRadius2 settings) in
    let sensitivity := ((255 - threshold settings) / 255)%Q in
    let cutoff := Fin (2 + sensitivity * 10) in
    for_ (w * h) (fun i output =>
      let diff := nsub (rd blur1 i) (rd blur2 i) in
      if nlt diff (nneg cutoff)
      then <[i := Fin 0]> output
      else <[i := Fin 255]> output) output.

(** One pass of the morphology loop: reads [src], writes [dst]. *)
Definition morphPass (isDilate : bool) (w h : nat) (src dst : list num)
  : list num :=
  for_ h (fun y dst =>
    for_ w (fun x dst =>
      let idx := y * w + x in
      let val := rd src idx in
      if isDilate then
        if ngt val (Fin 128) then
          let n := if 0 <? y then rd src (idx - w) else Fin 255 in
          let s := if y <? h - 1 then rd src (idx + w) else Fin 255 in
          let w_pix := if 0 <? x then rd src (idx - 1) else Fin 255 in
          let e_pix := if x <? w - 1 then rd src (idx + 1) else Fin 255 in
          if nlt n (Fin 128) || nlt s (Fin 128)
             || nlt w_pix (Fin 128) || nlt e_pix (Fin 128)
          then <[idx := Fin 0]> dst
          else <[idx := Fin 255]> dst
        else <[idx := Fin 0]> dst
      else
        if nlt val (Fin 128) then
          let n := if 0 <? y then rd src (idx - w) else Fin 0 in
          let s := if y <? h - 1 then rd src (idx + w) else Fin 0 in
          let w_pix := if 0 <? x then rd src (idx - 1) else Fin 0 in
          let e_pix := if x <? w - 1 then rd src (idx + 1) else Fin 0 in
          if ngt n (Fin 128) || ngt s (Fin 128)
             || ngt w_pix (Fin 128) || ngt e_pix (Fin 128)
          then <[idx := Fin 255]> dst
          else <[idx := Fin 0]> dst
        else <[idx := Fin 255]> dst) dst) dst.

Definition safePasses (thickness : Z) : nat :=
  Z.to_nat (Z.min (Z.abs thickness) 15).

(** 5. Morphology (Thickness) *)
Definition morphology (thickness : Z) (output : list num) (w h : nat)
  : list num :=
  if (thickness =? 0)%Z then output
  else
    let isDilate := (thickness >? 0)%Z in
    let bufA := output in
    let bufB := replicate (length output) (Fin 0) in
    let '(bufA, bufB) :=
      for_ (safePasses thickness) (fun p '(bufA, bufB) =>
        if p mod 2 =? 0
        then (bufA, morphPass isDilate w h bufA bufB)
        else (morphPass isDilate w h bufB bufA, bufB)) (bufA, bufB) in
    if safePasses thickness mod 2 =? 0 then bufA else bufB.

(** The map handed to the page composer ([finalMap]) on the stencil path. *)
Definition stencilMap (settings : StencilSettings) (data : list Z) (w h : nat)
  : list num :=
  let luma := extractLuma data w h in
  let processedLuma := preProcess settings luma w h in
  let output := binarize settings processedLuma w h in
  morphology (thickness settings) output w h.

(** ** Convolution engine *)

(** [Math.round(Math.sqrt(n))] on a length. *)
Definition roundSqrt (n : nat) : nat :=
  let r := Nat.sqrt n in
  if r * r + r <? n then r + 1 else r.

(** The accumulation of the kernel taps around pixel [(x, y)]: the two inner
    loops of [convolve], with [(r, g, b)] as the loop-carried sums. *)
Definition tapSums (src : list Z) (w h : nat) (matrix : list num)
  (side half : nat) (y x : nat) : num * num * num :=
  for_ side (fun cy acc =>
    for_ side (fun cx '(r, g, b) =>
      let scy := (Z.of_nat y + Z.of_nat cy - Z.of_nat half)%Z in
      let scx := (Z.of_nat x + Z.of_nat cx - Z.of_nat half)%Z in
      if (0 <=? scy)%Z && (scy <? Z.of_nat h)%Z
         && (0 <=? scx)%Z && (scx <? Z.of_nat w)%Z
      then
        let srcOff := (Z.to_nat scy * w + Z.to_nat scx) * 4 in
        let wt := rd matrix (cy * side + cx) in
        (nadd r (nmul (rdb src srcOff) wt),
         nadd g (nmul (rdb src (srcOff + 1)) wt),
         nadd b (nmul (rdb src (srcOff + 2)) wt))
      else (r, g, b)) acc) (Fin 0, Fin 0, Fin 0).

Definition convolve (data : list Z) (w h : nat) (matrix : list num) : list Z :=
  let side := roundSqrt (length matrix) in
  let half := side / 2 in
  let src := data in
  for_ h (fun y data =>
    for_ w (fun x data =>
      let dstOff := (y * w + x) * 4 in
      let '(r, g, b) := tapSums src w h matrix side half y x in
      let data := <[dstOff := toUint8Clamp (clamp r (Fin 0) (Fin 255))]> data in
      let data := <[dstOff + 1 := toUint8Clamp (clamp g (Fin 0) (Fin 255))]> data in
      <[dstOff + 2 := toUint8Clamp (clamp b (Fin 0) (Fin 255))]> data) data) data.

(** The sharpening kernel built by the realism path. *)
Definition sharpenKernel (s : Q) : list num :=
  [Fin 0; Fin (- s); Fin 0;
   Fin (- s); Fin (4 * s + 1); Fin (- s);
   Fin 0; Fin (- s); Fin 0].

(** ** Realism path of [generateStencil] *)

(** [===] on numbers. *)
Definition nstrict_eq (a b : num) : bool :=
  match a, b with
  | Fin x, Fin y => Qeq_bool x y
  | PInf, PInf | NInf, NInf => true
  | _, _ => false
  end.

(** Smart vibrance of one pixel, for a saturation strength. *)
Definition vibrancePixel (strength : Q) (i : nat) (data : list Z) : list Z :=
  let r := rdb data (i * 4) in
  let g := rdb data (i * 4 + 1) in
  let b := rdb data (i * 4 + 2) in
  let max := nmax (nmax r g) b in
  let min := nmin (nmin r g) b in
  let range := nsub max min in
  let sat := if nstrict_eq max (Fin 0) then Fin 0 else ndiv range max in
  let boost :=
    if Qle_bool 0 strength
    then nmul (Fin strength) (nsub (Fin 1) (npow sat 2))
    else Fin strength in
  let gray := nadd (nadd (nmul r (Fin 0.299)) (nmul g (Fin 0.587)))
                   (nmul b (Fin 0.114)) in
  let rNew := nadd gray (nmul (nsub r gray) (nadd (Fin 1) boost)) in
  let gNew := nadd gray (nmul (nsub g gray) (nadd (Fin 1) boost)) in
  let bNew := nadd gray (nmul (nsub b gray) (nadd (Fin 1) boost)) in
  let '(rNew, gNew, bNew) :=
    if Qlt_bool 0 strength then
      let contrastBoost := Fin (1.05 + strength * 0.02) in
      (nadd (nmul (nsub rNew (Fin 128)) contrastBoost) (Fin 128),
       nadd (nmul (nsub gNew (Fin 128)) contrastBoost) (Fin 128),
       nadd (nmul (nsub bNew (Fin 128)) contrastBoost) (Fin 128))
    else (rNew, gNew, bNew) in
  let data := <[i * 4 := toUint8Clamp (clamp rNew (Fin 0) (Fin 255))]> data in
  let data := <[i * 4 + 1 := toUint8Clamp (clamp gNew (Fin 0) (Fin 255))]> data in
  <[i * 4 + 2 := toUint8Clamp (clamp bNew (Fin 0) (Fin 255))]> data.

(** [if (settings.sharpness && settings.sharpness > 0) convolve(...)] *)
Definition sharpenStep (settings : StencilSettings) (data : list Z) (w h : nat)
  : list Z :=
  match sharpness settings with
  | Some s => if Qlt_bool 0 s then convolve data w h (sharpenKernel s) else data
  | None => data
  end.

(** The realism block of [src/utils/imageProcessor.ts]: the raster put back
    on the canvas before composition. *)
Definition realism (settings : StencilSettings) (data : list Z) (w h : nat)
  : list Z :=
  let saturationSetting := default 100%Q (saturation settings) in
  let data :=
    if negb (Qeq_bool saturationSetting 100) then
      let strength := ((saturationSetting - 100) / 100)%Q in
      for_ (w * h) (vibrancePixel strength) data
    else data in
  sharpenStep settings data w h.

(** The realism block of the repository's second copy of the pipeline (the
    one appended to the application file), which reads [settings.brilliance]
    and has no vibrance step. *)
Module BrillianceCopy.

Definition brilliancePixel (strength : Q) (i : nat) (data : list Z) : list Z :=
  let r := rdb data (i * 4) in
  let g := rdb data (i * 4 + 1) in
  let b := rdb data (i * 4 + 2) in
  let y := ndiv (nadd (nadd (nmul (Fin 0.299) r) (nmul (Fin 0.587) g))
                      (nmul (Fin 0.114) b)) (Fin 255) in
  let newY :=
    if Qlt_bool 0 strength then
      let shadowLift :=
        nmul (nmul (npow (nsub (Fin 1) y) 5) (Fin 1.0)) (Fin strength) in
      let highlightDamp := nmul (nmul (npow y 4) (Fin 0.4)) (Fin strength) in
      let newY := nsub (nadd y shadowLift) highlightDamp in
      (* the [sigmoid] constant of the source is computed and never used *)
      let contrastFactor := Fin (1 + strength * 0.5) in
      let contrasted :=
        nadd (nmul (nsub newY (Fin 0.5)) contrastFactor) (Fin 0.5) in
      nmax (Fin 0) (nmin (Fin 1) contrasted)
    else nmul y (Fin (1 + strength * 0.5)) in
  if ngt y (Fin 0.001) then
    let scale := ndiv newY y in
    let data := <[i * 4 := toUint8Clamp (clamp (nmul r scale) (Fin 0) (Fin 255))]> data in
    let data := <[i * 4 + 1 := toUint8Clamp (clamp (nmul g scale) (Fin 0) (Fin 255))]> data in
    <[i * 4 + 2 := toUint8Clamp (clamp (nmul b scale) (Fin 0) (Fin 255))]> data
  else data.

Definition realism (settings : StencilSettings) (data : list Z) (w h : nat)
  : list Z :=
  let brilliance := default 0%Q (brilliance settings) in
  let data :=
    if negb (Qeq_bool brilliance 0) then
      let strength := (brilliance / 100)%Q in
      for_ (w * h) (brilliancePixel strength) data
    else data in
  sharpenStep settings data w h.

End BrillianceCopy.

(** ** Page composer *)

(** A call issued on the A4 canvas.  [FillText v x y] stands for the
    [fillText] call whose text is [v.toFixed(1)] followed by the inch mark:
    the label is kept as its number. *)
Inductive drawCall : Type :=
  | DrawImage (dx dy dw dh : num)
  | FillText (value x y : num).

Definition DPI : num := Fin 300.
Definition A4_WIDTH : num := Fin 2480.
Definition A4_HEIGHT : num := Fin 3508.

(** [const count = settings.variantCount || 9] *)
Definition variantTotal (settings : StencilSettings) : Z :=
  if (variantCount settings =? 0)%Z then 9%Z else variantCount settings.

(** Determine layout based on count: (cols, rows). *)
Definition gridLayout (count : Z) : nat * nat :=
  if (count =? 3)%Z then (1, 3)
  else if (count =? 6)%Z then (2, 3)
  else (3, 3).

(** Body of the loop over the variants; [page] is the list of calls issued
    so far. *)
Definition drawVariant (settings : StencilSettings) (w h : nat) (count : Z)
  (i : nat) (page : list drawCall) : list drawCall :=
  let aspect := ndiv (ofNat w) (ofNat h) in
  let '(cols, rows) := gridLayout count in
  let cellW := ndiv A4_WIDTH (ofNat cols) in
  let cellH := ndiv A4_HEIGHT (ofNat rows) in
  let targetSizeInches :=
    nadd (Fin (minSize settings))
         (nmul (ndiv (nsub (Fin (maxSize settings)) (Fin (minSize settings)))
                     (ofZ (count - 1)))
               (ofNat i)) in
  let targetLongestSide := nmul targetSizeInches DPI in
  let '(drawW, drawH) :=
    if h <=? w
    then (targetLongestSide, ndiv targetLongestSide aspect)
    else (nmul targetLongestSide aspect, targetLongestSide) in
  let col := i mod cols in
  let row := i / cols in
  let cx := nadd (nmul (ofNat col) cellW) (ndiv cellW (Fin 2)) in
  let cy := nadd (nmul (ofNat row) cellH) (ndiv cellH (Fin 2)) in
  let page :=
    page ++ [DrawImage (nsub cx (ndiv drawW (Fin 2)))
                       (nsub cy (ndiv drawH (Fin 2))) drawW drawH] in
  if showDimensions settings then
    let labelY := nadd (nadd cy (ndiv drawH (Fin 2))) (Fin 50) in
    if nlt labelY (nmul (ofNat (row + 1)) cellH)
    then page ++ [FillText targetSizeInches cx labelY]
    else page ++ [FillText targetSizeInches cx
                    (nsub (nmul (ofNat (row + 1)) cellH) (Fin 20))]
  else page.

(** 7. Compose Final A4 Output: the calls drawn over the white background. *)
Definition finishProcessing (settings : StencilSettings) (w h : nat)
  : list drawCall :=
  let aspect := ndiv (ofNat w) (ofNat h) in
  if isMultipleSizes settings then
    let count := variantTotal settings in
    for_ (Z.to_nat count) (drawVariant settings w h count) []
  else
    let padding := Fin 100 in
    let availW := nsub A4_WIDTH (nmul padding (Fin 2)) in
    let availH := nsub A4_HEIGHT (nmul padding (Fin 2)) in
    let drawW := availW in
    let drawH := ndiv availW aspect in
    let '(drawW, drawH) :=
      if ngt drawH availH then (nmul availH aspect, availH) else (drawW, drawH) in
    [DrawImage (ndiv (nsub A4_WIDTH drawW) (Fin 2))
               (ndiv (nsub A4_HEIGHT drawH) (Fin 2)) drawW drawH].

(** ** Setters used to vary one field of a settings record *)

Definition set_threshold (t : Q) (s : StencilSettings) : StencilSettings :=
  mkSettings t (thickness s) (noiseReduction s) (mode s) (isMirrored s)
    (isMultipleSizes s) (variantCount s) (minSize s) (maxSize s)
    (showDimensions s) (saturation s) (contrast s) (brightness s)
    (sharpness s) (brilliance s).

Definition set_thickness (t : Z) (s : StencilSettings) : StencilSettings :=
  mkSettings (threshold s) t (noiseReduction s) (mode s) (isMirrored s)
    (isMultipleSizes s) (variantCount s) (minSize s) (maxSize s)
    (showDimensions s) (saturation s) (contrast s) (brightness s)
    (sharpness s) (brilliance s).

Definition set_variantCount (n : Z) (s : StencilSettings) : StencilSettings :=
  mkSettings (threshold s) (thickness s) (noiseReduction s) (mode s)
    (isMirrored s) (isMultipleSizes s) n (minSize s) (maxSize s)
    (showDimensions s) (saturation s) (contrast s) (brightness s)
    (sharpness s) (brilliance s).

Definition set_brilliance (b : option Q) (s : StencilSettings) : StencilSettings :=
  mkSettings (threshold s) (thickness s) (noiseReduction s) (mode s)
    (isMirrored s) (isMultipleSizes s) (variantCount s) (minSize s) (maxSize s)
    (showDimensions s) (saturation s) (contrast s) (brightness s)
    (sharpness s) b.

(** The binarization output of the stencil path, before morphology. *)
Definition binarized (settings : StencilSettings) (data : list Z) (w h : nat)
  : list num :=
  binarize settings (preProcess settings (extractLuma data w h) w h) w h.

(** * Vocabulary of the statements *)

(** A value of a binary map. *)
Definition twoValued (v : num) : Prop := v = Fin 0 \/ v = Fin 255.

(** The value a morphology pass stores in cell [y * w + x]. *)
Definition morphCell (isDilate : bool) (w h : nat) (src : list num) (y x : nat)
  : num :=
  let idx := y * w + x in
  let val := rd src idx in
  if isDilate then
    if ngt val (Fin 128) then
      let n := if 0 <? y then rd src (idx - w) else Fin 255 in
      let s := if y <? h - 1 then rd src (idx + w) else Fin 255 in
      let w_pix := if 0 <? x then rd src (idx - 1) else Fin 255 in
      let e_pix := if x <? w - 1 then rd src (idx + 1) else Fin 255 in
      if nlt n (Fin 128) || nlt s (Fin 128)
         || nlt w_pix (Fin 128) || nlt e_pix (Fin 128)
      then Fin 0 else Fin 255
    else Fin 0
  else
    if nlt val (Fin 128) then
      let n := if 0 <? y then rd src (idx - w) else Fin 0 in
      let s := if y <? h - 1 then rd src (idx + w) else Fin 0 in
      let w_pix := if 0 <? x then rd src (idx - 1) else Fin 0 in
      let e_pix := if x <? w - 1 then rd src (idx + 1) else Fin 0 in
      if ngt n (Fin 128) || ngt s (Fin 128)
         || ngt w_pix (Fin 128) || ngt e_pix (Fin 128)
      then Fin 255 else Fin 0
    else Fin 255.

(** The morphology loop for a given direction and number of passes. *)
Definition morphLoop (isDilate : bool) (passes : nat) (output : list num)
  (w h : nat) : list num :=
  let '(bufA, bufB) :=
    for_ passes (fun p '(bufA, bufB) =>
      if p mod 2 =? 0
      then (bufA, morphPass isDilate w h bufA bufB)
      else (morphPass isDilate w h bufB bufA, bufB))
      (output, replicate (length output) (Fin 0)) in
  if passes mod 2 =? 0 then bufA else bufB.

(** [flat c k v]: the number [v] is [k] times the constant [c], or NaN (the
    result of a read outside the buffer). *)
Definition flat (c : Q) (k : Z) (v : num) : Prop :=
  v = NaN \/ exists q, v = Fin q /\ q == inject_Z k * c.

(** A cell that holds the constant, or NaN. *)
Definition okcell (c : Q) (a : list num) (k : nat) : Prop :=
  exists v, a !! k = Some v /\ flat c 1 v.

(** A raster of [w * h] pixels that all carry the colour [(R, G, B)]. *)
Definition uniform (data : list Z) (w h : nat) (R G B : Z) : Prop :=
  forall i, i < w * h ->
    data !! (i * 4) = Some R /\ data !! (i * 4 + 1) = Some G
    /\ data !! (i * 4 + 2) = Some B.

(** Rec. 601 luma of a colour. *)
Definition lumaOf (R G B : Z) : Q :=
  inject_Z R * 0.299 + inject_Z G * 0.587 + inject_Z B * 0.114.

(** [Math.min(255, Math.max(0, val))] on a rational. *)
Definition Qclamp255 (c : Q) : Q :=
  let m := if Qle_bool 0 c then c else 0%Q in
  if Qle_bool 255 m then 255%Q else m.

(** The value stored by the adaptive-threshold loop in cell [i]. *)
Definition solidCell (settings : StencilSettings) (processedLuma : list num)
  (w h i : nat) : num :=
  if nlt (rd processedLuma i)
         (nsub (rd (boxBlur processedLuma w h 16) i)
               (Fin ((255 - threshold settings) / 5)))
  then Fin 0 else Fin 255.

(** The value stored by the difference-of-Gaussians loop in cell [i]. *)
Definition hollowCell (settings : StencilSettings) (processedLuma : list num)
  (w h i : nat) : num :=
  if nlt (nsub (rd (boxBlur processedLuma w h (dogRadius1 settings)) i)
               (rd (boxBlur processedLuma w h (dogRadius2 settings)) i))
         (nneg (Fin (2 + (255 - threshold settings) / 255 * 10)))
  then Fin 0 else Fin 255.

(** A 17 x 17 white raster with one black pixel in its centre. *)
Definition dotRaster : list Z :=
  concat (replicate 144 [255; 255; 255; 255]%Z) ++ [0; 0; 0; 255]%Z
  ++ concat (replicate 144 [255; 255; 255; 255]%Z).

(** The calls that draw a variant of the image. *)
Definition isDrawImage (c : drawCall) : bool :=
  match c with DrawImage _ _ _ _ => true | FillText _ _ _ => false end.

(** Number of variants drawn on a page. *)
Definition countImages (page : list drawCall) : nat :=
  length (filter (fun c => isDrawImage c = true) page).

(** Pixel [k] of a raster carries the colour [(R, G, B)]. *)
Definition hasColour (data : list Z) (k : nat) (R G B : Z) : Prop :=
  data !! (k * 4) = Some R /\ data !! (k * 4 + 1) = Some G
  /\ data !! (k * 4 + 2) = Some B.




(** Sum of [f 0], ..., [f (m - 1)]. *)
Fixpoint qsum (f : nat -> Q) (m : nat) : Q :=
  match m with
  | 0 => 0
  | S m' => qsum f m' + f m'
  end.

(** Sum of the clamp-to-edge window of radius [r] centred at [x], over a
    line of [n] values [g]. *)
Definition window (g : nat -> Q) (n r x : nat) : Q :=
  qsum (fun i => g (Nat.min (n - 1) (x + i - r))) (r * 2 + 1).

(** A cell that holds a finite value between the bounds. *)
Definition good (lo hi : Q) (a : list num) (k : nat) : Prop :=
  exists q, a !! k = Some (Fin q) /\ (lo <= q /\ q <= hi)%Q.

(** The rational held by a cell (0 for an absent or non-finite cell). *)
Definition getQ (a : list num) (k : nat) : Q :=
  match a !! k with
  | Some (Fin q) => q
  | _ => 0%Q
  end.

(** * Vocabulary of the further properties *)

(** One morphology pass into a fresh destination buffer. *)
Definition passFn (isDilate : bool) (w h : nat) (m : list num) : list num :=
  morphPass isDilate w h m (replicate (length m) (Fin 0)).

(** Cell [k] of a map is ink. *)
Definition ink (m : list num) (k : nat) : Prop := m !! k = Some (Fin 0).

(** Exchange of ink and blank. *)
Definition invert (v : num) : num :=
  if num_eqb v (Fin 0) then Fin 255 else Fin 0.

(** The value a dilation pass computes from a cell and its four neighbours
    (already replaced by 255 outside the map). *)
Definition dilateVal (val n s w_pix e_pix : num) : num :=
  if ngt val (Fin 128) then
    if nlt n (Fin 128) || nlt s (Fin 128)
       || nlt w_pix (Fin 128) || nlt e_pix (Fin 128)
    then Fin 0 else Fin 255
  else Fin 0.

(** The value an erosion pass computes from a cell and its four neighbours
    (already replaced by 0 outside the map). *)
Definition erodeVal (val n s w_pix e_pix : num) : num :=
  if nlt val (Fin 128) then
    if ngt n (Fin 128) || ngt s (Fin 128)
       || ngt w_pix (Fin 128) || ngt e_pix (Fin 128)
    then Fin 255 else Fin 0
  else Fin 255.

(** 6. Create Intermediate Stencil Image: the final map written over the
    raster read from the canvas. *)
Definition stencilRaster (finalMap : list num) (w h : nat) (dstData : list Z)
  : list Z :=
  for_ (w * h) (fun i dstData =>
    let val := rd finalMap i in
    let dstData := <[i * 4 := toUint8Clamp val]> dstData in
    let dstData := <[i * 4 + 1 := toUint8Clamp val]> dstData in
    let dstData := <[i * 4 + 2 := toUint8Clamp val]> dstData in
    <[i * 4 + 3 := 255%Z]> dstData) dstData.

(** The raster put back on the processing canvas by [generateStencil], from
    the raster [data] read from it: the realism block returns early, the
    other modes go through steps 2 to 6. *)
Definition canvasRaster (settings : StencilSettings) (data : list Z) (w h : nat)
  : list Z :=
  if mode_eqb (mode settings) REALISM then realism settings data w h
  else stencilRaster (stencilMap settings data w h) w h data.

(** A raster of bytes. *)
Definition bytes (data : list Z) : Prop :=
  Forall (fun v => (0 <= v <= 255)%Z) data.

(** Pixel [p] of a raster is gray: its three colour channels are equal. *)
Definition grayPixel (data : list Z) (p : nat) : Prop :=
  exists v, hasColour data p v v v.

(** The [drawImage] call issued for variant [i]: the first call of the body
    of the loop over the variants. *)
Definition variantImage (settings : StencilSettings) (w h : nat) (count : Z)
  (i : nat) : drawCall :=
  let aspect := ndiv (ofNat w) (ofNat h) in
  let '(cols, rows) := gridLayout count in
  let cellW := ndiv A4_WIDTH (ofNat cols) in
  let cellH := ndiv A4_HEIGHT (ofNat rows) in
  let targetSizeInches :=
    nadd (Fin (minSize settings))
         (nmul (ndiv (nsub (Fin (maxSize settings)) (Fin (minSize settings)))
                     (ofZ (count - 1)))
               (ofNat i)) in
  let targetLongestSide := nmul targetSizeInches DPI in
  let '(drawW, drawH) :=
    if h <=? w
    then (targetLongestSide, ndiv targetLongestSide aspect)
    else (nmul targetLongestSide aspect, targetLongestSide) in
  let col := i mod cols in
  let row := i / cols in
  let cx := nadd (nmul (ofNat col) cellW) (ndiv cellW (Fin 2)) in
  let cy := nadd (nmul (ofNat row) cellH) (ndiv cellH (Fin 2)) in
  DrawImage (nsub cx (ndiv drawW (Fin 2))) (nsub cy (ndiv drawH (Fin 2)))
            drawW drawH.

(** The [fillText] call issued for variant [i] when the dimensions are
    shown. *)
Definition variantLabel (settings : StencilSettings) (w h : nat) (count : Z)
  (i : nat) : drawCall :=
  let aspect := ndiv (ofNat w) (ofNat h) in
  let '(cols, rows) := gridLayout count in
  let cellW := ndiv A4_WIDTH (ofNat cols) in
  let cellH := ndiv A4_HEIGHT (ofNat rows) in
  let targetSizeInches :=
    nadd (Fin (minSize settings))
         (nmul (ndiv (nsub (Fin (maxSize settings)) (Fin (minSize settings)))
                     (ofZ (count - 1)))
               (ofNat i)) in
  let targetLongestSide := nmul targetSizeInches DPI in
  let '(drawW, drawH) :=
    if h <=? w
    then (targetLongestSide, ndiv targetLongestSide aspect)
    else (nmul targetLongestSide aspect, targetLongestSide) in
  let col := i mod cols in
  let row := i / cols in
  let cx := nadd (nmul (ofNat col) cellW) (ndiv cellW (Fin 2)) in
  let cy := nadd (nmul (ofNat row) cellH) (ndiv cellH (Fin 2)) in
  let labelY := nadd (nadd cy (ndiv drawH (Fin 2))) (Fin 50) in
  if nlt labelY (nmul (ofNat (row + 1)) cellH)
  then FillText targetSizeInches cx labelY
  else FillText targetSizeInches cx
         (nsub (nmul (ofNat (row + 1)) cellH) (Fin 20)).

(** The images and the labels of a page, in drawing order. *)
Definition images (page : list drawCall) : list drawCall :=
  filter (fun c => isDrawImage c = true) page.

Definition labels (page : list drawCall) : list drawCall :=
  filter (fun c => isDrawImage c = false) page.

(** Number of columns of the grid. *)
Definition gridCols (count : Z) : nat := fst (gridLayout count).

(** [Math.round]: the nearest integer, halves upwards. *)
Definition nround (v : num) : num :=
  match v with
  | Fin q => Fin (inject_Z (Qfloor (q + (1 # 2))))
  | _ => v
  end.

Definition MAX_DIM : num := Fin 2500.

(** 1. Resize if too large: the size of the processing canvas for an image
    of the given natural size. *)
Definition processingSize (naturalWidth naturalHeight : nat) : num * num :=
  let w := ofNat naturalWidth in
  let h := ofNat naturalHeight in
  if ngt w MAX_DIM || ngt h MAX_DIM then
    let ratio := nmin (ndiv MAX_DIM w) (ndiv MAX_DIM h) in
    let w := nround (nmul w ratio) in
    let h := nround (nmul h ratio) in
    (w, h)
  else (w, h).

(** ** The gallery of the application: [processImages] *)

Module App.

Record ProcessedImage : Type := mkImage {
  id : string;
  originalUrl : string;
  processedUrl : option string;
  name : string;
  settings : StencilSettings;
  isProcessing : bool;
  fileType : string
}.

(** [images.find(t => t.id === i)] *)
Definition findById (l : list ProcessedImage) (i : string)
  : option ProcessedImage :=
  List.find (fun t => String.eqb (id t) i) l.

(** First state update: the targets are flagged as being processed. *)
Definition markProcessing (targetImages prev : list ProcessedImage)
  : list ProcessedImage :=
  List.map (fun img =>
    match findById targetImages (id img) with
    | Some _ =>
        mkImage (id img) (originalUrl img) (processedUrl img) (name img)
                (settings img) true (fileType img)
    | None => img
    end) prev.

(** How [loadImage] followed by [generateStencil] ends for one image. *)
Inductive outcome : Type :=
  | Resolved (processed : string)
  | Rejected.

(** The record built for a target from the snapshot [img] of it, in the
    [try] block or in the [catch] block. *)
Definition updatedImage (settingsToUse : StencilSettings) (o : outcome)
  (img : ProcessedImage) : ProcessedImage :=
  match o with
  | Resolved processed =>
      mkImage (id img) (originalUrl img) (Some processed) (name img)
              settingsToUse false (fileType img)
  | Rejected =>
      mkImage (id img) (originalUrl img) (processedUrl img) (name img)
              (settings img) false (fileType img)
  end.

(** Second state update: each image takes the record built for its id. *)
Definition mergeUpdated (updated prev : list ProcessedImage)
  : list ProcessedImage :=
  List.map (fun img =>
    match findById updated (id img) with
    | Some update => update
    | None => img
    end) prev.

(** The two updates of [processImages] applied to the gallery [prev], for
    the outcomes [run] of the targets. *)
Definition processImages (run : ProcessedImage -> outcome)
  (targetImages : list ProcessedImage) (settingsToUse : StencilSettings)
  (prev : list ProcessedImage) : list ProcessedImage :=
  let prev := markProcessing targetImages prev in
  let updated :=
    List.map (fun img => updatedImage settingsToUse (run img) img)
             targetImages in
  mergeUpdated updated prev.

End App.

(** * The definitions on concrete inputs *)

(** Blur of a 3 x 3 plane with a single 9 in its centre: the centre gets 1. *)
Example boxBlur_3x3_center :
  boxBlur (map ofZ [0; 0; 0; 0; 9; 0; 0; 0; 0]%Z) 3 3 1 !! 4 = Some (Fin 1).
Proof. vm_compute. reflexivity. Qed.

(** A 17 x 17 plane is the smallest on which the local mean of radius 16
    reads inside the buffer: the dark centre of [dotRaster] is ink. *)
Example solid_dot_is_ink :
  binarized
    (mkSettings 223 0 0 SOLID false false 9 1.5 3.5 true None None None None None)
    dotRaster 17 17 !! 144 = Some (Fin 0).
Proof. vm_compute. reflexivity. Qed.

(** Single mode, square image: the drawn side is [min(2480, 3508) - 200]. *)
Example single_mode_square :
  finishProcessing
    (mkSettings 223 0 0 SOLID false false 9 1.5 3.5 true None None None None None)
    100 100
  = [DrawImage (Fin 100) (Fin 614) (Fin 2280) (Fin 2280)].
Proof. vm_compute. reflexivity. Qed.

(** Three variants from 1 to 3 inches: 300, 600 and 900 pixels. *)
Example three_variants_sizes :
  map (fun c => match c with DrawImage _ _ dw _ => dw | FillText v _ _ => v end)
    (finishProcessing
       (mkSettings 223 0 0 SOLID false true 3 1 3 true None None None None None)
       100 100)
  = [Fin 300; Fin 1; Fin 600; Fin 2; Fin 900; Fin 3].
Proof. vm_compute. reflexivity. Qed.

(** Storing into a [Uint8ClampedArray] rounds half to even and clamps. *)
Example toUint8Clamp_rounding :
  map toUint8Clamp [Fin 2.5; Fin 3.5; Fin (-4); Fin 300; NaN; Fin 104.83]
  = [2; 4; 0; 255; 0; 105]%Z.
Proof. vm_compute. reflexivity. Qed.

(** * Loop lemmas *)

Section Loops.
Context {S : Type}.

Lemma for_0 (body : nat -> S -> S) (s : S) : for_ 0 body s = s.
Proof. reflexivity. Qed.

Lemma for_S (n : nat) (body : nat -> S -> S) (s : S) :
  for_ (Datatypes.S n) body s = body n (for_ n body s).
Proof.
  unfold for_. rewrite seq_S, fold_left_app. reflexivity.
Qed.

(** Invariant rule: [P i] holds of the state before iteration [i]. *)
Lemma for_inv (P : nat -> S -> Prop) (n : nat) (body : nat -> S -> S) (s : S) :
  P 0 s ->
  (forall i st, i < n -> P i st -> P (Datatypes.S i) (body i st)) ->
  P n (for_ n body s).
Proof.
  intros H0 Hstep. induction n as [|n IH].
  - exact H0.
  - rewrite for_S. apply Hstep; [lia|]. apply IH.
    intros i st Hi. apply Hstep. lia.
Qed.

(** Two bodies that agree on the iterations run give the same loop. *)
Lemma for_ext (n : nat) (body body' : nat -> S -> S) (s : S) :
  (forall i st, i < n -> body i st = body' i st) ->
  for_ n body s = for_ n body' s.
Proof.
  intros H. induction n as [|n IH]; [reflexivity|].
  rewrite !for_S, IH by (intros; apply H; lia). apply H. lia.
Qed.
End Loops.

(** Row-major position: the pair of coordinates is determined by the index. *)
Lemma index_inj (w x y x' y' : nat) :
  x < w -> x' < w -> y * w + x = y' * w + x' -> x = x' /\ y = y'.
Proof.
  intros Hx Hx' E.
  assert (y = y') by nia. subst. lia.
Qed.

Lemma index_lt (w h x y : nat) : x < w -> y < h -> y * w + x < w * h.
Proof. nia. Qed.

Section Writes.
Context {A : Type}.

(** A loop that stores [f i] in cell [i]. *)
Lemma for_write_spec (f : nat -> A) (n : nat) (a : list A) :
  n <= length a ->
  length (for_ n (fun i a => <[i := f i]> a) a) = length a /\
  forall i, i < n -> for_ n (fun i a => <[i := f i]> a) a !! i = Some (f i).
Proof.
  intros Hn.
  apply (for_inv (fun k (st : list A) =>
    length st = length a /\ forall i, i < k -> st !! i = Some (f i))).
  - split; [reflexivity | intros; lia].
  - intros k st Hk [Hlen Hst]. split.
    + rewrite length_insert. exact Hlen.
    + intros i Hi. destruct (decide (i = k)) as [->|Hne].
      * apply list_lookup_insert_eq. lia.
      * rewrite list_lookup_insert_ne by congruence. apply Hst. lia.
Qed.

(** Two nested loops that store [f y x] in cell [y * w + x]. *)
Lemma for2_write_spec (f : nat -> nat -> A) (w h : nat) (a : list A) :
  w * h <= length a ->
  let r := for_ h (fun y a => for_ w (fun x a => <[y * w + x := f y x]> a) a) a in
  length r = length a /\
  forall x y, x < w -> y < h -> r !! (y * w + x) = Some (f y x).
Proof.
  intros Hlen r. subst r.
  apply (for_inv (fun k (st : list A) =>
    length st = length a /\
    forall x y, x < w -> y < k -> st !! (y * w + x) = Some (f y x))).
  - split; [reflexivity | intros; lia].
  - intros k st Hk [Hl Hst].
    cut (length (for_ w (fun x a => <[k * w + x := f k x]> a) st) = length a /\
         forall x y, x < w -> (y < k \/ (y = k /\ x < w)) ->
           for_ w (fun x a => <[k * w + x := f k x]> a) st !! (y * w + x)
           = Some (f y x)).
    { intros [Hl' Hst']. split; [exact Hl'|].
      intros x y Hx Hy. apply Hst'; [exact Hx|].
      destruct (decide (y = k)); [right | left]; lia. }
    apply (for_inv (fun j (st' : list A) =>
      length st' = length a /\
      forall x y, x < w -> (y < k \/ (y = k /\ x < j)) ->
                  st' !! (y * w + x) = Some (f y x))).
    + split; [exact Hl|]. intros x y Hx [Hy|[_ Hy]]; [auto | lia].
    + intros j st' Hj [Hl' Hst']. split.
      * rewrite length_insert. exact Hl'.
      * intros x y Hx Hy.
        destruct (decide (k * w + j = y * w + x)) as [E|Hne].
        -- apply index_inj in E as [<- <-]; [|lia..].
           apply list_lookup_insert_eq.
           pose proof (index_lt w h j k). lia.
        -- rewrite list_lookup_insert_ne by exact Hne.
           apply Hst'; [exact Hx|].
           destruct Hy as [Hy|[-> Hy]]; [left; exact Hy|].
           right. split; [reflexivity|].
           destruct (decide (x = j)) as [->|]; [congruence | lia].
Qed.
End Writes.

(** * Morphology *)

Lemma morphPass_writes (isDilate : bool) (w h : nat) (src dst : list num) :
  morphPass isDilate w h src dst =
  for_ h (fun y dst =>
    for_ w (fun x dst => <[y * w + x := morphCell isDilate w h src y x]> dst) dst)
    dst.
Proof.
  unfold morphPass. apply for_ext. intros y st _.
  apply for_ext. intros x st' _. unfold morphCell.
  destruct isDilate.
  - destruct (ngt _ _); [|reflexivity].
    destruct (_ || _); reflexivity.
  - destruct (nlt _ _); [|reflexivity].
    destruct (_ || _); reflexivity.
Qed.

Lemma morphCell_twoValued (isDilate : bool) (w h : nat) (src : list num)
  (y x : nat) : twoValued (morphCell isDilate w h src y x).
Proof.
  unfold morphCell, twoValued. destruct isDilate.
  - destruct (ngt _ _); [|auto]. destruct (_ || _); auto.
  - destruct (nlt _ _); [|auto]. destruct (_ || _); auto.
Qed.

(** After a pass every cell of a full-size destination holds the value
    computed from the source, whatever the destination held before. *)
Lemma morphPass_lookup (isDilate : bool) (w h : nat) (src dst : list num)
  (x y : nat) :
  length dst = w * h -> x < w -> y < h ->
  morphPass isDilate w h src dst !! (y * w + x)
  = Some (morphCell isDilate w h src y x).
Proof.
  intros Hlen Hx Hy. rewrite morphPass_writes.
  apply (for2_write_spec (morphCell isDilate w h src) w h dst); [lia | exact Hx | exact Hy].
Qed.

Lemma morphPass_length (isDilate : bool) (w h : nat) (src dst : list num) :
  w * h <= length dst -> length (morphPass isDilate w h src dst) = length dst.
Proof.
  intros Hlen. rewrite morphPass_writes.
  apply (for2_write_spec (morphCell isDilate w h src) w h dst). exact Hlen.
Qed.

Lemma morphPass_twoValued_inv (isDilate : bool) (w h : nat) (src dst : list num) :
  Forall twoValued dst -> Forall twoValued (morphPass isDilate w h src dst).
Proof.
  intros Hdst. rewrite morphPass_writes.
  apply (for_inv (fun _ st => Forall twoValued st)); [exact Hdst|].
  intros y st _ Hst.
  apply (for_inv (fun _ st => Forall twoValued st)); [exact Hst|].
  intros x st' _ Hst'. apply Forall_insert; [exact Hst'|].
  apply morphCell_twoValued.
Qed.

Lemma morphPass_all_written (isDilate : bool) (w h : nat) (src dst : list num) :
  length dst = w * h -> Forall twoValued (morphPass isDilate w h src dst).
Proof.
  intros Hlen. apply Forall_lookup. intros i v Hi.
  assert (Hlt : i < w * h).
  { apply lookup_lt_Some in Hi.
    rewrite morphPass_length in Hi by lia. lia. }
  assert (Hw : 0 < w) by nia.
  assert (Hx : i mod w < w) by (apply Nat.mod_upper_bound; lia).
  assert (Hy : i / w < h) by (apply Nat.Div0.div_lt_upper_bound; lia).
  assert (E : i = i / w * w + i mod w).
  { rewrite (Nat.div_mod_eq i w) at 1. lia. }
  rewrite E, (morphPass_lookup isDilate w h src dst _ _ Hlen Hx Hy) in Hi.
  injection Hi as <-. apply morphCell_twoValued.
Qed.

Lemma binarize_twoValued (settings : StencilSettings) (processedLuma : list num)
  (w h : nat) : Forall twoValued (binarize settings processedLuma w h).
Proof.
  unfold binarize.
  assert (H0 : Forall twoValued (replicate (w * h) (Fin 0))).
  { apply Forall_replicate. left. reflexivity. }
  destruct (mode_eqb _ _).
  - apply (for_inv (fun _ st => Forall twoValued st)); [exact H0|].
    intros i st _ Hst.
    destruct (nlt _ _); (apply Forall_insert; [exact Hst|]);
      [left | right]; reflexivity.
  - apply (for_inv (fun _ st => Forall twoValued st)); [exact H0|].
    intros i st _ Hst.
    destruct (nlt _ _); (apply Forall_insert; [exact Hst|]);
      [left | right]; reflexivity.
Qed.

Lemma morphology_twoValued (thickness : Z) (output : list num) (w h : nat) :
  Forall twoValued output -> Forall twoValued (morphology thickness output w h).
Proof.
  intros Hout. unfold morphology.
  destruct (thickness =? 0)%Z; [exact Hout|].
  assert (Hinv : let st := for_ (safePasses thickness) (fun p '(bufA, bufB) =>
        if p mod 2 =? 0
        then (bufA, morphPass (thickness >? 0)%Z w h bufA bufB)
        else (morphPass (thickness >? 0)%Z w h bufB bufA, bufB))
        (output, replicate (length output) (Fin 0)) in
      Forall twoValued st.1 /\ Forall twoValued st.2).
  { apply (for_inv (fun _ (st : list num * list num) =>
      Forall twoValued st.1 /\ Forall twoValued st.2)).
    - split; [exact Hout|]. apply Forall_replicate. left. reflexivity.
    - intros p [a b] _ [Ha Hb]. cbn [fst snd] in *.
      destruct (p mod 2 =? 0); cbn [fst snd]; split; try assumption;
        apply morphPass_twoValued_inv; assumption. }
  cbv zeta in Hinv. destruct (for_ _ _ _) as [a b]. destruct Hinv as [Ha Hb].
  destruct (_ =? 0); assumption.
Qed.

(** The cap on the number of passes. *)
Lemma safePasses_cap (t : Z) :
  (15 <= Z.abs t)%Z -> safePasses t = 15.
Proof. unfold safePasses. lia. Qed.

Lemma morphology_loop (thickness : Z) (output : list num) (w h : nat) :
  thickness <> 0%Z ->
  morphology thickness output w h
  = morphLoop (thickness >? 0)%Z (safePasses thickness) output w h.
Proof.
  intros Hne. unfold morphology, morphLoop.
  destruct (Z.eqb_spec thickness 0); [contradiction | reflexivity].
Qed.

(** Thickness magnitudes from 15 on run the same 15 passes. *)
Lemma morphology_capped (thickness : Z) (output : list num) (w h : nat) :
  (15 <= Z.abs thickness)%Z ->
  morphology thickness output w h
  = morphLoop (thickness >? 0)%Z 15 output w h.
Proof.
  intros Ht. rewrite morphology_loop by lia.
  rewrite safePasses_cap by exact Ht. reflexivity.
Qed.

(** C9: the binarization output holds only 0 and 255; a morphology pass
    stores 0 or 255 in every cell of its destination buffer, whatever the
    buffer held; hence the final map handed to the composer holds only 0 and
    255. *)
Theorem binary_map_two_valued (settings : StencilSettings) (data : list Z)
  (w h : nat) :
  Forall twoValued (binarized settings data w h)
  /\ (forall isDilate src dst,
        length dst = w * h ->
        Forall twoValued (morphPass isDilate w h src dst))
  /\ Forall twoValued (stencilMap settings data w h).
Proof.
  split; [apply binarize_twoValued|]. split.
  - intros isDilate src dst Hlen. apply morphPass_all_written. exact Hlen.
  - unfold stencilMap. apply morphology_twoValued, binarize_twoValued.
Qed.

Lemma binary_map_two_valued_witness :
  Forall twoValued (morphPass true 2 1 [Fin 0; Fin 255] [Fin 7; Fin 9]).
Proof.
  apply (proj1 (proj2 (binary_map_two_valued
    (mkSettings 223 0 0 SOLID false false 9 1 3 false None None None None None)
    [0; 0; 0; 255; 255; 255; 255; 255]%Z 2 1))).
  reflexivity.
Defined.

(** C10: a dilation pass stores ink (0) in every cell that was ink (value
    below 128) in its source, and an erosion pass stores blank (255) in every
    cell that was blank (value at least 128) in its source. *)
Theorem morph_pass_monotone (w h : nat) (src dst : list num) (x y : nat) :
  length dst = w * h -> x < w -> y < h ->
  (nlt (rd src (y * w + x)) (Fin 128) = true ->
   morphPass true w h src dst !! (y * w + x) = Some (Fin 0))
  /\ (nge (rd src (y * w + x)) (Fin 128) = true ->
      morphPass false w h src dst !! (y * w + x) = Some (Fin 255)).
Proof.
  intros Hlen Hx Hy. rewrite !morphPass_lookup by assumption.
  unfold morphCell, ngt, nge. split; intros Hv.
  - destruct (rd src (y * w + x)) as [q| | |]; simpl in *;
      try discriminate; try reflexivity.
    unfold Qlt_bool in *. apply negb_true_iff in Hv.
    destruct (Qle_bool 128 q) eqn:E1; [discriminate|].
    destruct (Qle_bool q 128) eqn:E2; [reflexivity|].
    exfalso.
    assert (~ (128 <= q)%Q) by (rewrite <- Qle_bool_iff; congruence).
    assert (~ (q <= 128)%Q) by (rewrite <- Qle_bool_iff; congruence).
    lra.
  - destruct (rd src (y * w + x)) as [q| | |]; simpl in *; try discriminate.
    + unfold Qlt_bool. rewrite Hv. reflexivity.
    + reflexivity.
Qed.

Lemma morph_pass_monotone_witness :
  morphPass true 2 1 [Fin 0; Fin 255] [Fin 0; Fin 0] !! 0 = Some (Fin 0)
  /\ morphPass false 2 1 [Fin 0; Fin 255] [Fin 0; Fin 0] !! 1 = Some (Fin 255).
Proof.
  split.
  - apply (proj1 (morph_pass_monotone 2 1 [Fin 0; Fin 255] [Fin 0; Fin 0] 0 0
             eq_refl ltac:(lia) ltac:(lia))). reflexivity.
  - apply (proj2 (morph_pass_monotone 2 1 [Fin 0; Fin 255] [Fin 0; Fin 0] 1 0
             eq_refl ltac:(lia) ltac:(lia))). reflexivity.
Defined.

(** * Box blur of a flat plane *)

Section Flat.
Variable c : Q.

Lemma flat_zero : flat c 0 (Fin 0).
Proof.
  right. exists 0%Q. split; [reflexivity|].
  change (inject_Z 0) with 0%Q. ring.
Qed.

Lemma flat_add (a b : Z) (u v : num) :
  flat c a u -> flat c b v -> flat c (a + b) (nadd u v).
Proof.
  intros [->|[p [-> Hp]]] [->|[q [-> Hq]]]; try (left; reflexivity).
  right. exists (Qred (p + q)). split; [reflexivity|].
  rewrite Qred_correct, inject_Z_plus, Hp, Hq. ring.
Qed.

Lemma flat_sub (a b : Z) (u v : num) :
  flat c a u -> flat c b v -> flat c (a - b) (nsub u v).
Proof.
  intros [->|[p [-> Hp]]] [->|[q [-> Hq]]]; try (left; reflexivity).
  right. exists (Qred (p - q)). split; [reflexivity|].
  unfold Z.sub. rewrite Qred_correct, inject_Z_plus, inject_Z_opp, Hp, Hq.
  ring.
Qed.

Lemma flat_div (n : nat) (u : num) :
  0 < n -> flat c (Z.of_nat n) u -> flat c 1 (ndiv u (ofNat n)).
Proof.
  intros Hn [->|[p [-> Hp]]]; [left; reflexivity|].
  right. exists (Qred (p / inject_Z (Z.of_nat n))). split.
  - unfold ndiv, ofNat, ofZ, qsign. simpl Qnum.
    destruct (Z.compare_spec (Z.of_nat n) 0); try reflexivity. lia.
  - rewrite Qred_correct, Hp. field.
    intros E. unfold Qeq in E. simpl in E. lia.
Qed.

Lemma flat_rd (a : list num) (i : nat) :
  Forall (flat c 1) a -> flat c 1 (rd a i).
Proof.
  intros Ha. unfold rd. destruct (a !! i) as [v|] eqn:E; simpl.
  - exact (proj1 (Forall_lookup _ _) Ha i v E).
  - left. reflexivity.
Qed.

(** The pre-fill of the accumulator: [n] additions of flat values. *)
Lemma prefill_flat (n : nat) (k : Z) (R : nat -> num) (sum : num) :
  (forall i, flat c 1 (R i)) -> flat c k sum ->
  flat c (k + Z.of_nat n) (for_ n (fun i sum => nadd sum (R i)) sum).
Proof.
  intros HR Hsum.
  apply (for_inv (fun i s => flat c (k + Z.of_nat i) s)).
  - replace (k + Z.of_nat 0)%Z with k by lia. exact Hsum.
  - intros i s _ Hs.
    replace (k + Z.of_nat (S i))%Z with (k + Z.of_nat i + 1)%Z by lia.
    apply flat_add; [exact Hs | apply HR].
Qed.

(** The sliding loop of one row or column: every cell it writes holds a
    flat value, and the flat cells of the buffer stay flat. *)
Lemma slide_flat (idx : nat -> nat) (n K : nat) (L E : nat -> num)
  (sum0 : num) (arr : list num) :
  0 < K ->
  (forall j, flat c 1 (L j)) -> (forall j, flat c 1 (E j)) ->
  flat c (Z.of_nat K) sum0 ->
  let st := for_ n (fun j '(sum, a) =>
              let a := <[idx j := ndiv sum (ofNat K)]> a in
              let sum := nsub sum (L j) in
              let sum := nadd sum (E j) in
              (sum, a)) (sum0, arr) in
  length st.2 = length arr /\
  forall k, k < length arr ->
    okcell c arr k \/ (exists j, j < n /\ idx j = k) -> okcell c st.2 k.
Proof.
  intros HK HL HE Hsum0 st. subst st.
  cut (let st := for_ n (fun j '(sum, a) =>
              let a := <[idx j := ndiv sum (ofNat K)]> a in
              let sum := nsub sum (L j) in
              let sum := nadd sum (E j) in
              (sum, a)) (sum0, arr) in
       flat c (Z.of_nat K) st.1 /\ length st.2 = length arr /\
       forall k, k < length arr ->
         okcell c arr k \/ (exists j, j < n /\ idx j = k) -> okcell c st.2 k).
  { cbv zeta. tauto. }
  apply (for_inv (fun i (st : num * list num) =>
    flat c (Z.of_nat K) st.1 /\ length st.2 = length arr /\
    forall k, k < length arr ->
      okcell c arr k \/ (exists j, j < i /\ idx j = k) -> okcell c st.2 k)).
  - cbn [fst snd]. split; [exact Hsum0|]. split; [reflexivity|].
    intros k _ [Hk|[j [Hj _]]]; [exact Hk | lia].
  - intros i [sum a] Hi [Hsum [Hlen Hcells]]. cbn [fst snd] in *.
    split; [|split].
    + replace (Z.of_nat K) with (Z.of_nat K - 1 + 1)%Z by lia.
      apply flat_add; [|apply HE]. apply flat_sub; [exact Hsum | apply HL].
    + rewrite length_insert. exact Hlen.
    + intros k Hk Hor.
      destruct (decide (idx i = k)) as [<-|Hne].
      * exists (ndiv sum (ofNat K)). split.
        -- apply list_lookup_insert_eq. lia.
        -- apply flat_div; assumption.
      * unfold okcell. rewrite list_lookup_insert_ne by exact Hne.
        apply Hcells; [exact Hk|].
        destruct Hor as [Hor|[j [Hj Hjk]]]; [left; exact Hor|].
        right. exists j. split; [|exact Hjk].
        destruct (decide (j = i)) as [->|]; [congruence | lia].
Qed.

(** The box blur maps a flat plane (with possibly NaN cells) to a flat
    plane: each output is the constant, or NaN where a window read fell
    outside the buffer. *)
Lemma boxBlur_flat (source : list num) (w h radius : nat) :
  Forall (flat c 1) source -> Forall (flat c 1) (boxBlur source w h radius).
Proof.
  intros Hsrc. unfold boxBlur.
  destruct (radius <? 1) eqn:Hr; [exact Hsrc|].
  apply Nat.ltb_ge in Hr.
  assert (HK : 0 < radius * 2 + 1) by lia.
  assert (Hpre : forall (a : list num) (i0 : nat) (g : nat -> nat),
    Forall (flat c 1) a ->
    flat c (Z.of_nat (radius * 2 + 1))
      (for_ (radius + 1) (fun i sum => nadd sum (rd a (g i)))
         (for_ radius (fun _ sum => nadd sum (rd a i0)) (Fin 0)))).
  { intros a i0 g Ha.
    replace (Z.of_nat (radius * 2 + 1))
      with (0 + Z.of_nat radius + Z.of_nat (radius + 1))%Z by lia.
    apply (prefill_flat (radius + 1) _ (fun i => rd a (g i)));
      [intros; apply flat_rd; exact Ha|].
    apply (prefill_flat radius 0 (fun _ => rd a i0));
      [intros; apply flat_rd; exact Ha | apply flat_zero]. }
  (* horizontal pass *)
  set (temp := for_ h _ (replicate (w * h) (Fin 0))).
  assert (Htemp : Forall (flat c 1) temp).
  { assert (Hinv : length temp = w * h /\
                   forall k, k < h * w -> okcell c temp k).
    { subst temp.
      apply (for_inv (fun y (t : list num) =>
        length t = w * h /\ forall k, k < y * w -> okcell c t k)).
      - split; [apply length_replicate | intros; lia].
      - intros y t Hy [Hlen Hcells].
        pose proof (slide_flat (fun x => y * w + x) w (radius * 2 + 1)
          (fun x => rd source (y * w + Nat.max 0 (x - radius)))
          (fun x => rd source (y * w + Nat.min (w - 1) (x + radius + 1)))
          _ t HK
          (fun j => flat_rd source _ Hsrc) (fun j => flat_rd source _ Hsrc)
          (Hpre source (y * w) (fun i => y * w + i) Hsrc)) as [Hl Hc].
        split; [rewrite <- Hlen; exact Hl|].
        intros k Hk. apply Hc; [nia|].
        destruct (decide (k < y * w)) as [Hlt|Hge]; [left; auto|].
        right. exists (k - y * w). lia. }
    destruct Hinv as [Hlen Hcells].
    apply Forall_lookup. intros k v Hkv.
    destruct (Hcells k) as [v' [E Hv']].
    { apply lookup_lt_Some in Hkv. lia. }
    congruence. }
  clearbody temp.
  (* vertical pass *)
  set (target := for_ w _ (replicate (w * h) (Fin 0))).
  cut (length target = w * h /\
       forall k, k < w * h -> k mod w < w -> okcell c target k).
  { intros [Hlen Hcells]. apply Forall_lookup. intros k v Hkv.
    assert (Hk : k < w * h) by (apply lookup_lt_Some in Hkv; lia).
    destruct (Hcells k Hk) as [v' [E Hv']].
    { apply Nat.mod_upper_bound. nia. }
    congruence. }
  subst target.
  apply (for_inv (fun x (t : list num) =>
    length t = w * h /\
    forall k, k < w * h -> k mod w < x -> okcell c t k)).
  - split; [apply length_replicate | intros; lia].
  - intros x t Hx [Hlen Hcells].
    pose proof (slide_flat (fun y => y * w + x) h (radius * 2 + 1)
      (fun y => rd temp (Nat.max 0 (y - radius) * w + x))
      (fun y => rd temp (Nat.min (h - 1) (y + radius + 1) * w + x))
      _ t HK
      (fun j => flat_rd temp _ Htemp) (fun j => flat_rd temp _ Htemp)
      (Hpre temp x (fun i => x + i * w) Htemp)) as [Hl Hc].
    split; [rewrite <- Hlen; exact Hl|].
    intros k Hk Hmod. apply Hc; [lia|].
    destruct (decide (k mod w < x)) as [Hlt|Hge]; [left; auto|].
    right. exists (k / w). split.
    + apply Nat.Div0.div_lt_upper_bound. lia.
    + pose proof (Nat.div_mod_eq k w). nia.
Qed.
End Flat.

(** * Box blur away from the unclamped pre-fill

    When the radius is smaller than both dimensions every read of the blur
    stays inside the buffer; the accumulator then holds the sum of the
    clamp-to-edge window and every output lies between any two bounds of
    the input. *)

Lemma qsum_ext (f g : nat -> Q) (m : nat) :
  (forall i, i < m -> f i == g i) -> qsum f m == qsum g m.
Proof.
  induction m as [|m IH]; intros H; simpl; [reflexivity|].
  rewrite IH by (intros; apply H; lia). rewrite (H m) by lia. reflexivity.
Qed.

Lemma qsum_shift (f : nat -> Q) (m : nat) :
  qsum (fun i => f (S i)) m == qsum f (S m) - f 0.
Proof.
  induction m as [|m IH]; simpl in *; [ring|]. rewrite IH. ring.
Qed.

Lemma qsum_app (f : nat -> Q) (a b : nat) :
  qsum f (a + b) == qsum f a + qsum (fun j => f (a + j)) b.
Proof.
  induction b as [|b IH]; simpl.
  - rewrite Nat.add_0_r. ring.
  - rewrite Nat.add_succ_r. simpl. rewrite IH. ring.
Qed.

Lemma qsum_const (c : Q) (m : nat) :
  qsum (fun _ => c) m == inject_Z (Z.of_nat m) * c.
Proof.
  induction m as [|m IH]; simpl qsum.
  - change (inject_Z (Z.of_nat 0)) with 0%Q. ring.
  - rewrite IH, Nat2Z.inj_succ. unfold Z.succ. rewrite inject_Z_plus.
    change (inject_Z 1) with 1%Q. ring.
Qed.

Lemma qsum_bounds (lo hi : Q) (f : nat -> Q) (m : nat) :
  (forall i, i < m -> (lo <= f i /\ f i <= hi)%Q) ->
  (inject_Z (Z.of_nat m) * lo <= qsum f m
   /\ qsum f m <= inject_Z (Z.of_nat m) * hi)%Q.
Proof.
  induction m as [|m IH]; intros H.
  - simpl. change (inject_Z (Z.of_nat 0)) with 0%Q. lra.
  - simpl qsum. rewrite Nat2Z.inj_succ. unfold Z.succ. rewrite inject_Z_plus.
    change (inject_Z 1) with 1%Q.
    destruct IH as [IH1 IH2]; [intros; apply H; lia|].
    destruct (H m ltac:(lia)) as [H1 H2]. lra.
Qed.

Lemma window_init (g : nat -> Q) (n r : nat) :
  r < n ->
  window g n r 0 == inject_Z (Z.of_nat r) * g 0 + qsum g (r + 1).
Proof.
  intros Hr. unfold window.
  replace (r * 2 + 1) with (r + (r + 1)) by lia.
  rewrite qsum_app. apply Qplus_comp.
  - rewrite <- qsum_const. apply qsum_ext. intros i Hi.
    replace (Nat.min (n - 1) (0 + i - r)) with 0 by lia. reflexivity.
  - apply qsum_ext. intros i Hi.
    replace (Nat.min (n - 1) (0 + (r + i) - r)) with i by lia. reflexivity.
Qed.

Lemma window_step (g : nat -> Q) (n r x : nat) :
  x < n ->
  window g n r (S x)
  == window g n r x - g (Nat.max 0 (x - r)) + g (Nat.min (n - 1) (x + r + 1)).
Proof.
  intros Hx. unfold window.
  pose (T := fun j => g (Nat.min (n - 1) (x + j - r))).
  transitivity (qsum (fun i => T (S i)) (r * 2 + 1)).
  - apply qsum_ext. intros i _. unfold T.
    replace (S x + i - r) with (x + S i - r) by lia. reflexivity.
  - rewrite (qsum_shift T).
    change (qsum T (S (r * 2 + 1)))
      with (qsum T (r * 2 + 1)%nat + T (r * 2 + 1)%nat)%Q.
    change (qsum (fun i => g (Nat.min (n - 1) (x + i - r))) (r * 2 + 1))
      with (qsum T (r * 2 + 1)).
    unfold T at 2 3.
    replace (Nat.min (n - 1) (x + 0 - r)) with (Nat.max 0 (x - r)) by lia.
    replace (x + (r * 2 + 1) - r) with (x + r + 1) by lia.
    ring.
Qed.

Section Window.
Variables lo hi : Q.

Lemma good_rd (a : list num) (k : nat) :
  good lo hi a k -> rd a k = Fin (getQ a k).
Proof.
  intros [q [E Hq]]. unfold rd, getQ. rewrite E. reflexivity.
Qed.

Lemma good_getQ (a : list num) (k : nat) :
  good lo hi a k -> (lo <= getQ a k /\ getQ a k <= hi)%Q.
Proof.
  intros [q [E Hq]]. unfold getQ. rewrite E. exact Hq.
Qed.

Lemma prefill_sum (n : nat) (R : nat -> num) (f : nat -> Q) (s : Q) :
  (forall i, i < n -> R i = Fin (f i)) ->
  exists s', for_ n (fun i sum => nadd sum (R i)) (Fin s) = Fin s'
             /\ s' == s + qsum f n.
Proof.
  intros HR. induction n as [|n IH].
  - exists s. split; [reflexivity | simpl; ring].
  - destruct IH as [s' [E Hs']]; [intros; apply HR; lia|].
    rewrite for_S, E, (HR n) by lia. cbn [nadd].
    eexists. split; [reflexivity|]. rewrite Qred_correct, Hs'. simpl. ring.
Qed.

(** The sliding loop with every read inside the buffer. *)
Lemma slide_window (idx : nat -> nat) (n r : nat) (g : nat -> Q)
  (L E : nat -> num) (s0 : Q) (arr : list num) :
  (forall k, k < n -> (lo <= g k /\ g k <= hi)%Q) ->
  (forall j, j < n -> L j = Fin (g (Nat.max 0 (j - r)))) ->
  (forall j, j < n -> E j = Fin (g (Nat.min (n - 1) (j + r + 1)))) ->
  s0 == window g n r 0 ->
  let st := for_ n (fun j '(sum, a) =>
              let a := <[idx j := ndiv sum (ofNat (r * 2 + 1))]> a in
              let sum := nsub sum (L j) in
              let sum := nadd sum (E j) in
              (sum, a)) (Fin s0, arr) in
  length st.2 = length arr /\
  forall k, k < length arr ->
    good lo hi arr k \/ (exists j, j < n /\ idx j = k) -> good lo hi st.2 k.
Proof.
  intros Hg HL HE Hs0 st. subst st.
  cut (let st := for_ n (fun j '(sum, a) =>
              let a := <[idx j := ndiv sum (ofNat (r * 2 + 1))]> a in
              let sum := nsub sum (L j) in
              let sum := nadd sum (E j) in
              (sum, a)) (Fin s0, arr) in
       (exists s, st.1 = Fin s /\ s == window g n r n) /\
       length st.2 = length arr /\
       forall k, k < length arr ->
         good lo hi arr k \/ (exists j, j < n /\ idx j = k) -> good lo hi st.2 k).
  { cbv zeta. tauto. }
  apply (for_inv (fun i (st : num * list num) =>
    (exists s, st.1 = Fin s /\ s == window g n r i) /\
    length st.2 = length arr /\
    forall k, k < length arr ->
      good lo hi arr k \/ (exists j, j < i /\ idx j = k) -> good lo hi st.2 k)).
  - cbn [fst snd]. split; [exists s0; split; [reflexivity | exact Hs0]|].
    split; [reflexivity|].
    intros k _ [Hk|[j [Hj _]]]; [exact Hk | lia].
  - intros i [sum a] Hi [[s [Es Hs]] [Hlen Hcells]]. cbn [fst snd] in *.
    subst sum. split; [|split].
    + rewrite (HL i Hi), (HE i Hi). cbn [nsub nadd].
      eexists. split; [reflexivity|].
      rewrite !Qred_correct, Hs, window_step by exact Hi. reflexivity.
    + rewrite length_insert. exact Hlen.
    + intros k Hk Hor.
      destruct (decide (idx i = k)) as [<-|Hne].
      * assert (HK : (0 < inject_Z (Z.of_nat (r * 2 + 1)))%Q).
        { change 0%Q with (inject_Z 0). rewrite <- Zlt_Qlt. lia. }
        destruct (qsum_bounds lo hi
          (fun j => g (Nat.min (n - 1) (i + j - r))) (r * 2 + 1)) as [B1 B2].
        { intros j _. apply Hg. lia. }
        fold (window g n r i) in B1, B2. rewrite <- Hs in B1, B2.
        exists (Qred (s / inject_Z (Z.of_nat (r * 2 + 1)))). split.
        -- rewrite list_lookup_insert_eq by lia. f_equal.
           unfold ndiv, ofNat, ofZ, qsign. simpl Qnum.
           destruct (Z.compare_spec (Z.of_nat (r * 2 + 1)) 0);
             try reflexivity. lia.
        -- rewrite Qred_correct. split.
           ++ apply Qle_shift_div_l; [exact HK|].
              rewrite Qmult_comm. exact B1.
           ++ apply Qle_shift_div_r; [exact HK|].
              rewrite Qmult_comm. exact B2.
      * unfold good. rewrite list_lookup_insert_ne by exact Hne.
        apply Hcells; [exact Hk|].
        destruct Hor as [Hor|[j [Hj Hjk]]]; [left; exact Hor|].
        right. exists j. split; [|exact Hjk].
        destruct (decide (j = i)) as [->|]; [congruence | lia].
Qed.

(** The pre-fill of a line whose first [r + 1] cells are read inside the
    buffer holds the window sum at position 0. *)
Lemma prefill_window (n r : nat) (g : nat -> Q) (R0 : num)
  (R : nat -> num) :
  r < n ->
  R0 = Fin (g 0) -> (forall i, i < r + 1 -> R i = Fin (g i)) ->
  exists s0,
    for_ (r + 1) (fun i sum => nadd sum (R i))
      (for_ r (fun _ sum => nadd sum R0) (Fin 0)) = Fin s0
    /\ s0 == window g n r 0.
Proof.
  intros Hr HR0 HR.
  destruct (prefill_sum r (fun _ => R0) (fun _ => g 0) 0)
    as [s1 [E1 Hs1]]; [intros; exact HR0|].
  destruct (prefill_sum (r + 1) R g s1 HR) as [s2 [E2 Hs2]].
  exists s2. rewrite E1, E2. split; [reflexivity|].
  rewrite Hs2, Hs1, window_init, qsum_const by exact Hr. ring.
Qed.

(** With a radius below both dimensions the blur of a plane whose values
    lie in [[lo, hi]] is a plane of the same size with values in
    [[lo, hi]]. *)
Lemma boxBlur_in_range (source : list num) (w h radius : nat) :
  1 <= radius -> radius < w -> radius < h ->
  (forall k, k < w * h -> good lo hi source k) ->
  length (boxBlur source w h radius) = w * h /\
  forall k, k < w * h -> good lo hi (boxBlur source w h radius) k.
Proof.
  intros Hr Hrw Hrh Hsrc. unfold boxBlur.
  destruct (Nat.ltb_spec radius 1) as [|_]; [lia|].
  (* horizontal pass *)
  set (temp := for_ h _ (replicate (w * h) (Fin 0))).
  assert (Htemp : length temp = w * h /\ forall k, k < h * w -> good lo hi temp k).
  { subst temp.
    apply (for_inv (fun y (t : list num) =>
      length t = w * h /\ forall k, k < y * w -> good lo hi t k)).
    - split; [apply length_replicate | intros; lia].
    - intros y t Hy [Hlen Hcells].
      assert (Hrow : forall k, k < w -> good lo hi source (y * w + k)).
      { intros k Hk. apply Hsrc. apply index_lt; assumption. }
      set (g := fun k => getQ source (y * w + k)).
      destruct (prefill_window w radius g (rd source (y * w))
                  (fun i => rd source (y * w + i)) Hrw) as [s0 [E0 Hs0]].
      { subst g. cbv beta. rewrite Nat.add_0_r.
        apply good_rd. replace (y * w) with (y * w + 0) by lia.
        apply Hrow. lia. }
      { intros i Hi. apply good_rd, Hrow. lia. }
      rewrite E0.
      pose proof (slide_window (fun x => y * w + x) w radius g
        (fun x => rd source (y * w + Nat.max 0 (x - radius)))
        (fun x => rd source (y * w + Nat.min (w - 1) (x + radius + 1)))
        s0 t) as Hslide.
      destruct Hslide as [Hl Hc].
      + intros k Hk. apply good_getQ, Hrow, Hk.
      + intros j Hj. apply good_rd, Hrow. lia.
      + intros j Hj. apply good_rd, Hrow. lia.
      + exact Hs0.
      + split; [rewrite <- Hlen; exact Hl|].
        intros k Hk. apply Hc; [nia|].
        destruct (decide (k < y * w)) as [Hlt|Hge]; [left; auto|].
        right. exists (k - y * w). lia. }
  destruct Htemp as [Htlen Htemp].
  clearbody temp.
  (* vertical pass *)
  set (target := for_ w _ (replicate (w * h) (Fin 0))).
  cut (length target = w * h /\
       forall k, k < w * h -> k mod w < w -> good lo hi target k).
  { intros [Hlen Hcells]. split; [exact Hlen|].
    intros k Hk. apply Hcells; [exact Hk|].
    apply Nat.mod_upper_bound. lia. }
  subst target.
  apply (for_inv (fun x (t : list num) =>
    length t = w * h /\
    forall k, k < w * h -> k mod w < x -> good lo hi t k)).
  - split; [apply length_replicate | intros; lia].
  - intros x t Hx [Hlen Hcells].
    assert (Hcol : forall k, k < h -> good lo hi temp (k * w + x)).
    { intros k Hk. apply Htemp. pose proof (index_lt w h x k Hx Hk). lia. }
    set (g := fun k => getQ temp (k * w + x)).
    destruct (prefill_window h radius g (rd temp x)
                (fun i => rd temp (x + i * w)) Hrh) as [s0 [E0 Hs0]].
    { subst g. cbv beta. change (0 * w + x) with x.
      apply good_rd. replace x with (0 * w + x) by lia.
      apply Hcol. lia. }
    { intros i Hi. subst g. cbv beta. rewrite (Nat.add_comm x).
      apply good_rd, Hcol. lia. }
    rewrite E0.
    pose proof (slide_window (fun y => y * w + x) h radius g
      (fun y => rd temp (Nat.max 0 (y - radius) * w + x))
      (fun y => rd temp (Nat.min (h - 1) (y + radius + 1) * w + x))
      s0 t) as Hslide.
    destruct Hslide as [Hl Hc].
    + intros k Hk. apply good_getQ, Hcol, Hk.
    + intros j Hj. apply good_rd, Hcol. lia.
    + intros j Hj. apply good_rd, Hcol. lia.
    + exact Hs0.
    + split; [rewrite <- Hlen; exact Hl|].
      intros k Hk Hmod. apply Hc; [lia|].
      destruct (decide (k mod w < x)) as [Hlt|Hge]; [left; auto|].
      right. exists (k / w). split.
      * apply Nat.Div0.div_lt_upper_bound. lia.
      * pose proof (Nat.div_mod_eq k w). nia.
Qed.
End Window.

(** * Box blur: identity, size and the unclamped pre-fill *)

Lemma boxBlur_identity (source : list num) (w h radius : nat) :
  radius < 1 -> boxBlur source w h radius = source.
Proof.
  intros Hr. unfold boxBlur.
  destruct (Nat.ltb_spec radius 1); [reflexivity | lia].
Qed.

(** A sliding loop keeps the size of the buffer it writes. *)
Lemma slide_length (idx : nat -> nat) (n : nat) (K : num) (L E : nat -> num)
  (sum0 : num) (arr : list num) :
  length (for_ n (fun j '(sum, a) =>
            let a := <[idx j := ndiv sum K]> a in
            let sum := nsub sum (L j) in
            let sum := nadd sum (E j) in
            (sum, a)) (sum0, arr)).2 = length arr.
Proof.
  apply (for_inv (fun _ (st : num * list num) => length st.2 = length arr));
    [reflexivity|].
  intros j [sum a] _ Ha. cbn [snd] in *. rewrite length_insert. exact Ha.
Qed.

(** From radius 1 on the output has [w * h] cells, whatever the input
    holds (for a radius below 1 it is the input itself). *)
Lemma boxBlur_length (source : list num) (w h radius : nat) :
  1 <= radius -> length (boxBlur source w h radius) = w * h.
Proof.
  intros Hr. unfold boxBlur.
  destruct (Nat.ltb_spec radius 1) as [|_]; [lia|].
  apply (for_inv (fun _ (t : list num) => length t = w * h));
    [apply length_replicate|].
  intros x t _ Ht. cbv zeta.
  rewrite (slide_length (fun y => y * w + x) h _
    (fun y => rd _ (Nat.max 0 (y - radius) * w + x))
    (fun y => rd _ (Nat.min (h - 1) (y + radius + 1) * w + x))).
  exact Ht.
Qed.

(** C7 at a failing input: on a one-pixel plane with radius 1 the pre-fill
    of the accumulator reads [source[rowStart + 1]], a cell past the buffer,
    and the only output value is NaN instead of the input value 5.  The same
    happens on a plane two pixels high, whose input values are 0 and 10. *)
Theorem boxBlur_prefill_reads_past_edge :
  boxBlur [Fin 5] 1 1 1 = [NaN]
  /\ boxBlur [Fin 0; Fin 10] 1 2 1 = [NaN; NaN].
Proof. split; vm_compute; reflexivity. Qed.

(** * Binarization *)

Lemma Qlt_bool_iff (x y : Q) : Qlt_bool x y = true <-> (x < y)%Q.
Proof.
  unfold Qlt_bool. rewrite negb_true_iff.
  split.
  - intros H. apply Qnot_le_lt. intros Hle.
    apply Qle_bool_iff in Hle. congruence.
  - intros H. destruct (Qle_bool y x) eqn:E; [|reflexivity].
    apply Qle_bool_iff in E. lra.
Qed.

Lemma Qlt_bool_false_iff (x y : Q) : Qlt_bool x y = false <-> (y <= x)%Q.
Proof.
  unfold Qlt_bool. rewrite negb_false_iff. apply Qle_bool_iff.
Qed.

Lemma extractLuma_spec (data : list Z) (w h : nat) :
  length (extractLuma data w h) = w * h /\
  forall i, i < w * h ->
    extractLuma data w h !! i =
    Some (nadd (nadd (nmul (rdb data (i * 4)) (Fin 0.299))
                     (nmul (rdb data (i * 4 + 1)) (Fin 0.587)))
               (nmul (rdb data (i * 4 + 2)) (Fin 0.114))).
Proof.
  unfold extractLuma.
  pose proof (for_write_spec (fun i =>
    nadd (nadd (nmul (rdb data (i * 4)) (Fin 0.299))
               (nmul (rdb data (i * 4 + 1)) (Fin 0.587)))
         (nmul (rdb data (i * 4 + 2)) (Fin 0.114)))
    (w * h) (replicate (w * h) (Fin 0))) as H.
  rewrite length_replicate in H. apply H. lia.
Qed.

Lemma extractLuma_uniform (data : list Z) (w h : nat) (R G B : Z) :
  uniform data w h R G B ->
  Forall (flat (lumaOf R G B) 1) (extractLuma data w h).
Proof.
  intros Hu. destruct (extractLuma_spec data w h) as [Hlen Hget].
  apply Forall_lookup. intros i v Hi.
  assert (Hlt : i < w * h) by (apply lookup_lt_Some in Hi; lia).
  rewrite (Hget i Hlt) in Hi. injection Hi as <-.
  destruct (Hu i Hlt) as (Hr & Hg & Hb).
  unfold rdb. rewrite Hr, Hg, Hb. cbn [from_option ofZ nadd nmul].
  right. eexists. split; [reflexivity|].
  rewrite !Qred_correct.
  unfold lumaOf. change (inject_Z 1) with 1%Q. ring.
Qed.

Lemma flat_mul_zero (c t : Q) (u : num) :
  flat c 0 u -> flat c 0 (nmul u (Fin t)).
Proof.
  intros [->|[p [-> Hp]]]; [left; reflexivity|].
  right. exists (Qred (p * t)). split; [reflexivity|].
  rewrite Qred_correct, Hp. change (inject_Z 0) with 0%Q. ring.
Qed.

Lemma flat_clamp (c : Q) (v : num) :
  flat c 1 v -> flat (Qclamp255 c) 1 (nmin (Fin 255) (nmax (Fin 0) v)).
Proof.
  intros [->|[p [-> Hp]]]; [left; reflexivity|].
  assert (Hpc : p == c) by (rewrite Hp; change (inject_Z 1) with 1%Q; ring).
  assert (E0 : Qle_bool 0 p = Qle_bool 0 c)
    by (apply Qleb_comp; [reflexivity | exact Hpc]).
  assert (E255 : Qle_bool 255 p = Qle_bool 255 c)
    by (apply Qleb_comp; [reflexivity | exact Hpc]).
  right. unfold Qclamp255.
  change (nmax (Fin 0) (Fin p)) with (if Qle_bool 0 p then Fin p else Fin 0).
  rewrite E0. destruct (Qle_bool 0 c).
  - change (nmin (Fin 255) (Fin p))
      with (if Qle_bool 255 p then Fin 255 else Fin p).
    rewrite E255. destruct (Qle_bool 255 c);
      eexists; (split; [reflexivity|]); [ring | rewrite Hpc; ring].
  - exists 0%Q. split; [reflexivity|].
    change (Qle_bool 255 0) with false. cbv iota. ring.
Qed.

(** The detail filter maps a flat plane to a flat plane. *)
Lemma preProcess_flat (settings : StencilSettings) (luma : list num)
  (w h : nat) (c : Q) :
  length luma = w * h -> Forall (flat c 1) luma ->
  exists c', Forall (flat c' 1) (preProcess settings luma w h).
Proof.
  intros Hlen Hflat. unfold preProcess.
  destruct (noiseReduction settings <? 0)%Z.
  - exists (Qclamp255 c).
    set (strength := nmul _ (Fin 0.5)).
    pose proof (for_write_spec (fun i =>
      nmin (Fin 255) (nmax (Fin 0)
        (nadd (rd luma i)
           (nmul (nsub (rd luma i) (rd (boxBlur luma w h 1) i)) strength))))
      (w * h) (replicate (w * h) (Fin 0))) as H.
    rewrite length_replicate in H. destruct (H ltac:(lia)) as [Hl Hget].
    apply Forall_lookup. intros i v Hi.
    assert (Hlt : i < w * h) by (apply lookup_lt_Some in Hi; lia).
    rewrite (Hget i Hlt) in Hi. injection Hi as <-.
    apply flat_clamp.
    replace 1%Z with (1 + 0)%Z by lia.
    apply flat_add; [apply flat_rd; exact Hflat|].
    subst strength. cbn [nmul ofZ].
    apply flat_mul_zero.
    replace 0%Z with (1 - 1)%Z by lia.
    apply flat_sub; apply flat_rd; [exact Hflat|].
    apply boxBlur_flat. exact Hflat.
  - destruct (noiseReduction settings >? 0)%Z; [|exists c; exact Hflat].
    destruct (mode_eqb _ _); exists c; [|exact Hflat].
    apply boxBlur_flat. exact Hflat.
Qed.

Lemma binarize_spec (settings : StencilSettings) (processedLuma : list num)
  (w h : nat) :
  length (binarize settings processedLuma w h) = w * h /\
  forall i, i < w * h ->
    binarize settings processedLuma w h !! i =
    Some (if mode_eqb (mode settings) SOLID
          then solidCell settings processedLuma w h i
          else hollowCell settings processedLuma w h i).
Proof.
  unfold binarize. destruct (mode_eqb _ _).
  - rewrite (for_ext _ _ (fun i output =>
      <[i := solidCell settings processedLuma w h i]> output)).
    + pose proof (for_write_spec (solidCell settings processedLuma w h)
        (w * h) (replicate (w * h) (Fin 0))) as H.
      rewrite length_replicate in H. apply H. lia.
    + intros i st _. unfold solidCell. destruct (nlt _ _); reflexivity.
  - rewrite (for_ext _ _ (fun i output =>
      <[i := hollowCell settings processedLuma w h i]> output)).
    + pose proof (for_write_spec (hollowCell settings processedLuma w h)
        (w * h) (replicate (w * h) (Fin 0))) as H.
      rewrite length_replicate in H. apply H. lia.
    + intros i st _. unfold hollowCell. destruct (nlt _ _); reflexivity.
Qed.

Lemma Qdiv_nonneg (a b : Q) : (0 <= a)%Q -> (0 < b)%Q -> (0 <= a / b)%Q.
Proof. intros Ha Hb. apply Qle_shift_div_l; [exact Hb | lra]. Qed.

Lemma Qdiv_le_mono (a b k : Q) : (a <= b)%Q -> (0 < k)%Q -> (a / k <= b / k)%Q.
Proof.
  intros Hab Hk. unfold Qdiv. apply Qmult_le_compat_r; [exact Hab|].
  apply Qlt_le_weak, Qinv_lt_0_compat. exact Hk.
Qed.

(** A map all of whose cells hold the same value is that constant map. *)
Lemma constant_map (a : list num) (n : nat) (v : num) :
  length a = n -> (forall i, i < n -> a !! i = Some v) -> a = replicate n v.
Proof.
  intros Hlen Hget. symmetry. apply replicate_as_Forall. split; [exact Hlen|].
  apply Forall_lookup. intros i x Hi.
  rewrite Hget in Hi by (apply lookup_lt_Some in Hi; lia). congruence.
Qed.

(** Adaptive threshold of a flat plane, for any detail level: no ink. *)
Lemma solid_flat_blank (settings : StencilSettings) (processedLuma : list num)
  (w h : nat) (c : Q) :
  mode settings = SOLID -> (threshold settings <= 255)%Q ->
  Forall (flat c 1) processedLuma ->
  binarize settings processedLuma w h = replicate (w * h) (Fin 255).
Proof.
  intros Hmode Hthr Hflat.
  destruct (binarize_spec settings processedLuma w h) as [Hlen Hget].
  apply constant_map; [exact Hlen|]. intros i Hi.
  rewrite (Hget i Hi), Hmode. simpl. f_equal. unfold solidCell.
  destruct (flat_rd c processedLuma i Hflat) as [->|[p [-> Hp]]];
    [reflexivity|].
  destruct (flat_rd c (boxBlur processedLuma w h 16) i
              (boxBlur_flat c _ _ _ _ Hflat)) as [->|[q [-> Hq]]];
    [reflexivity|].
  cbn [nsub nlt].
  assert (E : Qlt_bool p (Qred (q - (255 - threshold settings) / 5)) = false).
  { apply Qlt_bool_false_iff. rewrite Qred_correct, Hp, Hq.
    change (inject_Z 1) with 1%Q.
    pose proof (Qdiv_nonneg (255 - threshold settings) 5) as Hbias.
    lra. }
  rewrite E. reflexivity.
Qed.

(** Difference of Gaussians of a flat plane: no ink. *)
Lemma hollow_flat_blank (settings : StencilSettings) (processedLuma : list num)
  (w h : nat) (c : Q) :
  mode settings <> SOLID -> (threshold settings <= 255)%Q ->
  Forall (flat c 1) processedLuma ->
  binarize settings processedLuma w h = replicate (w * h) (Fin 255).
Proof.
  intros Hmode Hthr Hflat.
  destruct (binarize_spec settings processedLuma w h) as [Hlen Hget].
  apply constant_map; [exact Hlen|]. intros i Hi.
  rewrite (Hget i Hi).
  replace (mode_eqb (mode settings) SOLID) with false
    by (destruct (mode settings); [congruence | reflexivity..]).
  f_equal. unfold hollowCell.
  destruct (flat_rd c _ i (boxBlur_flat c _ w h (dogRadius1 settings) Hflat))
    as [->|[p [-> Hp]]]; [reflexivity|].
  destruct (flat_rd c _ i (boxBlur_flat c _ w h (dogRadius2 settings) Hflat))
    as [->|[q [-> Hq]]]; [reflexivity|].
  cbn [nsub nneg nlt].
  assert (E : Qlt_bool (Qred (p - q))
                (Qred (- (2 + (255 - threshold settings) / 255 * 10)))
              = false).
  { apply Qlt_bool_false_iff. rewrite !Qred_correct, Hp, Hq.
    change (inject_Z 1) with 1%Q.
    pose proof (Qdiv_nonneg (255 - threshold settings) 255) as Hsens.
    lra. }
  rewrite E. reflexivity.
Qed.

Lemma extractLuma_uniform_good (data : list Z) (w h : nat) (R G B : Z) :
  uniform data w h R G B ->
  forall k, k < w * h ->
    good (lumaOf R G B) (lumaOf R G B) (extractLuma data w h) k.
Proof.
  intros Hu k Hk. destruct (extractLuma_spec data w h) as [_ Hget].
  destruct (Hu k Hk) as (Hr & Hg & Hb).
  eexists. split.
  - rewrite (Hget k Hk). unfold rdb. rewrite Hr, Hg, Hb.
    cbn [from_option ofZ nadd nmul]. reflexivity.
  - rewrite !Qred_correct. unfold lumaOf. lra.
Qed.

(** Uniform rasters in SOLID mode, detail level 0, threshold in [0, 255]:
    the adaptive-threshold output is the all-blank map.  Every local mean is
    the luma of the colour, or NaN where the window of radius 16 reads past
    the buffer; on a raster more than 16 pixels wide and tall every local
    mean is that luma.  The bias is not negative, and the strict comparison
    fails at every pixel. *)
Lemma solid_uniform_all_blank (settings : StencilSettings) (data : list Z)
  (w h : nat) (R G B : Z) :
  mode settings = SOLID ->
  noiseReduction settings = 0%Z ->
  (0 <= threshold settings)%Q -> (threshold settings <= 255)%Q ->
  uniform data w h R G B ->
  binarized settings data w h = replicate (w * h) (Fin 255)
  /\ Forall (flat (lumaOf R G B) 1) (boxBlur (extractLuma data w h) w h 16)
  /\ (16 < w -> 16 < h ->
      Forall (fun v => exists q, v = Fin q /\ q == lumaOf R G B)
        (boxBlur (extractLuma data w h) w h 16))
  /\ (0 <= (255 - threshold settings) / 5)%Q.
Proof.
  intros Hmode Hnr Hlo Hhi Hu.
  pose proof (extractLuma_uniform data w h R G B Hu) as Hluma.
  split; [|split; [|split]].
  - unfold binarized.
    assert (Hpre : preProcess settings (extractLuma data w h) w h
                   = extractLuma data w h).
    { unfold preProcess. rewrite Hnr. reflexivity. }
    rewrite Hpre.
    apply (solid_flat_blank settings _ w h (lumaOf R G B)); assumption.
  - apply boxBlur_flat. exact Hluma.
  - intros Hw Hh.
    destruct (boxBlur_in_range (lumaOf R G B) (lumaOf R G B)
                (extractLuma data w h) w h 16 ltac:(lia) Hw Hh
                (extractLuma_uniform_good data w h R G B Hu)) as [Hlen Hgood].
    apply Forall_lookup. intros k v Hk.
    destruct (Hgood k) as [q [E [H1 H2]]].
    { apply lookup_lt_Some in Hk. lia. }
    exists q. split; [congruence | lra].
  - apply Qdiv_nonneg; lra.
Qed.

Lemma uniform_1x1 (R G B A : Z) : uniform [R; G; B; A] 1 1 R G B.
Proof.
  intros i Hi. assert (i = 0) as -> by lia. repeat split.
Qed.

Lemma solid_uniform_all_blank_witness :
  binarized
    (mkSettings 223 0 0 SOLID false false 9 1.5 3.5 true None None None None None)
    [128; 128; 128; 255]%Z 1 1 = [Fin 255].
Proof.
  refine (proj1 (solid_uniform_all_blank
    (mkSettings 223 0 0 SOLID false false 9 1.5 3.5 true None None None None None)
    [128; 128; 128; 255]%Z 1 1 128 128 128 eq_refl eq_refl _ _ _)).
  - vm_compute. discriminate.
  - vm_compute. discriminate.
  - apply uniform_1x1.
Defined.

(** C3 at a failing input: on a one-pixel gray image (SOLID mode, detail
    level 0) the local mean of radius 16 is NaN and not the luma 128 of the
    image, because the pre-fill of [boxBlur] reads past the buffer.  The
    output is blank there only because every comparison with NaN fails.  On
    a gray image of 17 x 17 pixels, the smallest on which the window stays
    inside the buffer, the local mean is 128 at every pixel. *)
Theorem solid_local_mean_of_small_image_is_NaN :
  let s := mkSettings 223 0 0 SOLID false false 9 1.5 3.5 true
             None None None None None in
  let plane := preProcess s (extractLuma [128; 128; 128; 255]%Z 1 1) 1 1 in
  let big := concat (replicate 289 [128; 128; 128; 255]%Z) in
  plane = [Fin 128]
  /\ boxBlur plane 1 1 16 = [NaN]
  /\ binarized s [128; 128; 128; 255]%Z 1 1 = [Fin 255]
  /\ boxBlur (preProcess s (extractLuma big 17 17) 17 17) 17 17 16
     = replicate 289 (Fin 128).
Proof. cbv zeta. repeat split; vm_compute; reflexivity. Qed.

(** Uniform rasters in HOLLOW mode, for every detail level and every
    threshold in [0, 255]: the difference-of-Gaussians output is the
    all-blank map.  At every pixel the difference of the two blurs is 0, or
    NaN where a window reads past the buffer, and the cutoff is at least
    2. *)
Lemma hollow_uniform_all_blank (settings : StencilSettings) (data : list Z)
  (w h : nat) (R G B : Z) :
  mode settings = HOLLOW ->
  (0 <= threshold settings)%Q -> (threshold settings <= 255)%Q ->
  uniform data w h R G B ->
  binarized settings data w h = replicate (w * h) (Fin 255)
  /\ (forall i,
        let processedLuma :=
          preProcess settings (extractLuma data w h) w h in
        let blur1 := boxBlur processedLuma w h (dogRadius1 settings) in
        let blur2 := boxBlur processedLuma w h (dogRadius2 settings) in
        nsub (rd blur1 i) (rd blur2 i) = NaN
        \/ exists q, nsub (rd blur1 i) (rd blur2 i) = Fin q /\ q == 0)
  /\ (2 <= 2 + (255 - threshold settings) / 255 * 10)%Q.
Proof.
  intros Hmode Hlo Hhi Hu.
  pose proof (extractLuma_uniform data w h R G B Hu) as Hluma.
  destruct (preProcess_flat settings (extractLuma data w h) w h _
              (proj1 (extractLuma_spec data w h)) Hluma) as [c' Hc'].
  split; [|split].
  - unfold binarized.
    apply (hollow_flat_blank settings _ w h c'); [|assumption..].
    rewrite Hmode. discriminate.
  - intros i. cbv zeta.
    destruct (flat_sub c' 1 1 _ _
      (flat_rd c' _ i (boxBlur_flat c' _ w h (dogRadius1 settings) Hc'))
      (flat_rd c' _ i (boxBlur_flat c' _ w h (dogRadius2 settings) Hc')))
      as [E|[q [E Hq]]]; [left; exact E|].
    right. exists q. split; [exact E|].
    rewrite Hq. change (inject_Z (1 - 1)) with 0%Q. ring.
  - pose proof (Qdiv_nonneg (255 - threshold settings) 255). lra.
Qed.

Lemma hollow_uniform_all_blank_witness :
  binarized
    (mkSettings 100 0 (-2) HOLLOW false false 9 1.5 3.5 true
       None None None None None)
    [30; 60; 90; 255]%Z 1 1 = [Fin 255].
Proof.
  refine (proj1 (hollow_uniform_all_blank
    (mkSettings 100 0 (-2) HOLLOW false false 9 1.5 3.5 true
       None None None None None)
    [30; 60; 90; 255]%Z 1 1 30 60 90 eq_refl _ _ _)).
  - vm_compute. discriminate.
  - vm_compute. discriminate.
  - apply uniform_1x1.
Defined.

(** C4 at a failing input: on a flat image of 2 x 2 pixels with the default
    settings (HOLLOW mode, detail level 0, radii 1 and 2) the narrow blur is
    the constant 90 of the plane but the wide blur is NaN at every pixel,
    because its pre-fill reads past the buffer: the difference of the two
    blurs is NaN everywhere, not 0.  The output is blank there only because
    the comparison with NaN fails.  On a flat image of 3 x 3 pixels, the
    smallest that holds the wide window, the difference is 0 everywhere. *)
Theorem hollow_difference_of_small_image_is_NaN :
  let s := mkSettings 223 0 0 HOLLOW false false 9 1.5 3.5 true
             None None None None None in
  let diff data w h :=
    let plane := preProcess s (extractLuma data w h) w h in
    map (fun i => nsub (rd (boxBlur plane w h (dogRadius1 s)) i)
                       (rd (boxBlur plane w h (dogRadius2 s)) i))
        (seq 0 (w * h)) in
  let small := concat (replicate 4 [90; 90; 90; 255]%Z) in
  let plane := preProcess s (extractLuma small 2 2) 2 2 in
  (dogRadius1 s = 1 /\ dogRadius2 s = 2)
  /\ plane = replicate 4 (Fin 90)
  /\ boxBlur plane 2 2 (dogRadius1 s) = replicate 4 (Fin 90)
  /\ boxBlur plane 2 2 (dogRadius2 s) = replicate 4 NaN
  /\ diff small 2 2 = replicate 4 NaN
  /\ binarized s small 2 2 = replicate 4 (Fin 255)
  /\ diff (concat (replicate 9 [90; 90; 90; 255]%Z)) 3 3
     = replicate 9 (Fin 0).
Proof. cbv zeta. repeat split; vm_compute; reflexivity. Qed.

(** The comparison of the adaptive threshold is monotone in the bias. *)
Lemma nlt_bias_mono (p m : num) (b1 b2 : Q) :
  (b2 <= b1)%Q ->
  nlt p (nsub m (Fin b1)) = true -> nlt p (nsub m (Fin b2)) = true.
Proof.
  intros Hb.
  destruct m as [q| | |]; cbn [nsub]; try (intros H; exact H).
  destruct p as [x| | |]; cbn [nlt]; try (intros H; exact H).
  rewrite !Qlt_bool_iff, !Qred_correct. lra.
Qed.

Lemma preProcess_set_threshold (t : Q) (settings : StencilSettings)
  (luma : list num) (w h : nat) :
  preProcess (set_threshold t settings) luma w h = preProcess settings luma w h.
Proof. reflexivity. Qed.

(** C8: in SOLID mode, with the raster and every other setting fixed, a
    pixel that the adaptive threshold classifies as ink at threshold [t1] is
    classified as ink at every threshold [t2] above [t1]. *)
Theorem solid_ink_monotone_in_threshold (settings : StencilSettings)
  (data : list Z) (w h : nat) (t1 t2 : Q) (i : nat) :
  mode settings = SOLID ->
  (t1 <= t2)%Q ->
  binarized (set_threshold t1 settings) data w h !! i = Some (Fin 0) ->
  binarized (set_threshold t2 settings) data w h !! i = Some (Fin 0).
Proof.
  intros Hmode Ht. unfold binarized.
  rewrite !preProcess_set_threshold.
  set (pl := preProcess settings (extractLuma data w h) w h).
  destruct (binarize_spec (set_threshold t1 settings) pl w h) as [Hl1 Hg1].
  destruct (binarize_spec (set_threshold t2 settings) pl w h) as [Hl2 Hg2].
  intros H1.
  assert (Hi : i < w * h) by (apply lookup_lt_Some in H1; lia).
  rewrite (Hg1 i Hi) in H1. rewrite (Hg2 i Hi).
  change (mode (set_threshold t1 settings)) with (mode settings) in H1.
  change (mode (set_threshold t2 settings)) with (mode settings).
  rewrite Hmode in *. cbn [mode_eqb] in *.
  unfold solidCell in *.
  change (threshold (set_threshold t1 settings)) with t1 in H1.
  change (threshold (set_threshold t2 settings)) with t2.
  revert H1.
  destruct (nlt (rd pl i) (nsub (rd (boxBlur pl w h 16) i)
                             (Fin ((255 - t1) / 5)))) eqn:E1.
  - intros _.
    rewrite (nlt_bias_mono _ _ ((255 - t1) / 5) ((255 - t2) / 5)); auto.
    apply Qdiv_le_mono; lra.
  - discriminate.
Qed.

Lemma solid_ink_monotone_in_threshold_witness :
  binarized
    (set_threshold 200
       (mkSettings 0 0 0 SOLID false false 9 1.5 3.5 true
          None None None None None))
    dotRaster 17 17 !! 144 = Some (Fin 0).
Proof.
  apply (solid_ink_monotone_in_threshold
    (mkSettings 0 0 0 SOLID false false 9 1.5 3.5 true None None None None None)
    dotRaster 17 17 100 200 144 eq_refl).
  - vm_compute. discriminate.
  - vm_compute. reflexivity.
Defined.

(** * Page composer *)

Lemma countImages_app (p q : list drawCall) :
  countImages (p ++ q) = countImages p + countImages q.
Proof. unfold countImages. rewrite filter_app, length_app. reflexivity. Qed.

Lemma countImages_image (dx dy dw dh : num) :
  countImages [DrawImage dx dy dw dh] = 1.
Proof. reflexivity. Qed.

Lemma countImages_text (v x y : num) : countImages [FillText v x y] = 0.
Proof. reflexivity. Qed.

Lemma drawVariant_count (settings : StencilSettings) (w h : nat) (count : Z)
  (i : nat) (page : list drawCall) :
  countImages (drawVariant settings w h count i page) = S (countImages page).
Proof.
  unfold drawVariant.
  destruct (gridLayout count) as [cols rows].
  destruct (h <=? w); destruct (showDimensions settings);
    try destruct (nlt _ _);
    rewrite ?countImages_app, ?countImages_image, ?countImages_text; lia.
Qed.

Lemma finishProcessing_count (settings : StencilSettings) (w h : nat) :
  isMultipleSizes settings = true ->
  countImages (finishProcessing settings w h)
  = Z.to_nat (variantTotal settings).
Proof.
  intros Hm. unfold finishProcessing. rewrite Hm.
  apply (for_inv (fun i page => countImages page = i)); [reflexivity|].
  intros i page _ <-. apply drawVariant_count.
Qed.

(** C2 fails as stated: a variant count of 5 gives a page of five variants,
    which is not the nine-variant page. *)
Lemma variant_count_5_is_not_9 :
  let s := mkSettings 223 0 0 SOLID false true 5 1 3 false
             None None None None None in
  finishProcessing s 100 100 <> finishProcessing (set_variantCount 9 s) 100 100
  /\ countImages (finishProcessing s 100 100) = 5
  /\ countImages (finishProcessing (set_variantCount 9 s) 100 100) = 9.
Proof.
  cbv zeta. split; [|split; vm_compute; reflexivity].
  intros E. apply (f_equal countImages) in E. vm_compute in E. discriminate.
Qed.

(** C2, amended: only the count 0 falls back to 9 (the fallback of
    [settings.variantCount || 9]); every other count outside 3 and 6 gets
    the 3 x 3 cell geometry, and the page always holds exactly as many
    variants as the count (none when it is negative). *)
Theorem variant_count_fallback (settings : StencilSettings) (w h : nat) :
  isMultipleSizes settings = true ->
  (variantCount settings = 0%Z ->
   finishProcessing settings w h
   = finishProcessing (set_variantCount 9 settings) w h)
  /\ (variantCount settings <> 3%Z -> variantCount settings <> 6%Z ->
      gridLayout (variantTotal settings) = (3, 3))
  /\ countImages (finishProcessing settings w h)
     = Z.to_nat (variantTotal settings).
Proof.
  intros Hm. split; [|split].
  - intros H0. unfold finishProcessing.
    change (isMultipleSizes (set_variantCount 9 settings))
      with (isMultipleSizes settings).
    rewrite Hm.
    assert (Hc : variantTotal settings = 9%Z)
      by (unfold variantTotal; rewrite H0; reflexivity).
    rewrite Hc.
    change (variantTotal (set_variantCount 9 settings)) with 9%Z.
    apply for_ext. intros i page _. reflexivity.
  - intros H3 H6. unfold variantTotal, gridLayout.
    destruct (Z.eqb_spec (variantCount settings) 0); [reflexivity|].
    destruct (Z.eqb_spec (variantCount settings) 3); [contradiction|].
    destruct (Z.eqb_spec (variantCount settings) 6); [contradiction|].
    reflexivity.
  - apply finishProcessing_count. exact Hm.
Qed.

Lemma variant_count_fallback_witness :
  let s := mkSettings 223 0 0 SOLID false true 0 1 3 true
             None None None None None in
  finishProcessing s 100 100 = finishProcessing (set_variantCount 9 s) 100 100
  /\ countImages (finishProcessing s 100 100) = 9.
Proof.
  cbv zeta.
  pose proof (variant_count_fallback
    (mkSettings 223 0 0 SOLID false true 0 1 3 true None None None None None)
    100 100 eq_refl) as [H0 [_ Hn]].
  split; [exact (H0 eq_refl) | exact Hn].
Defined.

(** * Realism path *)

(** C1 at a failing input: in [src/utils/imageProcessor.ts] the realism
    block, whose header announces brilliance and sharpness, has no
    brilliance step.  A brilliance of 50 leaves a mid-gray pixel as it is,
    exactly as a brilliance of 0 does, where the tone curve of the claim,
    which the second copy of the pipeline applies, moves it from 100 to
    105. *)
Theorem brilliance_has_no_effect :
  let s b := mkSettings 223 0 0 REALISM false false 9 1.5 3.5 true
               None None None None (Some b) in
  realism (s 50%Q) [100; 100; 100; 255]%Z 1 1
  = realism (s 0%Q) [100; 100; 100; 255]%Z 1 1
  /\ realism (s 50%Q) [100; 100; 100; 255]%Z 1 1 = [100; 100; 100; 255]%Z
  /\ BrillianceCopy.realism (s 50%Q) [100; 100; 100; 255]%Z 1 1
     = [105; 105; 105; 255]%Z.
Proof. cbv zeta. repeat split. Qed.

(** In the second copy the curve is applied, yet a dark pixel can keep its
    value after rounding: brilliance -1 scales (1, 1, 1) by 0.995. *)
Example brilliance_copy_rounding :
  BrillianceCopy.realism
    (mkSettings 223 0 0 REALISM false false 9 1.5 3.5 true
       None None None None (Some (-1)%Q))
    [1; 1; 1; 255]%Z 1 1 = [1; 1; 1; 255]%Z.
Proof. vm_compute. reflexivity. Qed.

(** The omission does not depend on the input: the output of the realism
    block of [src/utils/imageProcessor.ts] is the same for every brilliance
    value, and at saturation 100 with no sharpening it is the raster it was
    given. *)
Lemma realism_ignores_brilliance (settings : StencilSettings)
  (b : option Q) (data : list Z) (w h : nat) :
  realism (set_brilliance b settings) data w h = realism settings data w h
  /\ ((default 100%Q (saturation settings) == 100)%Q ->
      (default 0%Q (sharpness settings) <= 0)%Q ->
      realism (set_brilliance b settings) data w h = data).
Proof.
  split; [reflexivity|].
  intros Hsat Hsharp. unfold realism, sharpenStep.
  change (saturation (set_brilliance b settings)) with (saturation settings).
  change (sharpness (set_brilliance b settings)) with (sharpness settings).
  apply Qeq_bool_iff in Hsat. rewrite Hsat. cbn [negb].
  destruct (sharpness settings) as [s|]; [|reflexivity].
  change (s <= 0)%Q in Hsharp.
  apply Qlt_bool_false_iff in Hsharp. rewrite Hsharp. reflexivity.
Qed.

Lemma realism_ignores_brilliance_witness :
  realism
    (set_brilliance (Some 80%Q)
       (mkSettings 223 0 0 REALISM false false 9 1.5 3.5 true
          (Some 100%Q) None None (Some 0%Q) None))
    [10; 200; 30; 255]%Z 1 1 = [10; 200; 30; 255]%Z.
Proof.
  apply (proj2 (realism_ignores_brilliance
    (mkSettings 223 0 0 REALISM false false 9 1.5 3.5 true
       (Some 100%Q) None None (Some 0%Q) None)
    (Some 80%Q) [10; 200; 30; 255]%Z 1 1)).
  - vm_compute. reflexivity.
  - vm_compute. discriminate.
Defined.

(** * Convolution engine *)


Lemma index_mod (w x y : nat) : x < w -> (y * w + x) mod w = x.
Proof.
  intros Hx. symmetry. apply (Nat.mod_unique _ _ y); lia.
Qed.




(** Storing an integer of the byte range into a [Uint8ClampedArray] keeps
    it. *)
Lemma toUint8Clamp_byte (q : Q) (v : Z) :
  q == inject_Z v -> (0 <= v <= 255)%Z ->
  toUint8Clamp (clamp (Fin q) (Fin 0) (Fin 255)) = v.
Proof.
  intros Hq Hv.
  assert (H0 : (0 <= q)%Q) by (rewrite Hq; change 0%Q with (inject_Z 0);
                              rewrite <- Zle_Qle; lia).
  assert (H255 : (q <= 255)%Q) by (rewrite Hq; change 255%Q with (inject_Z 255);
                                  rewrite <- Zle_Qle; lia).
  unfold clamp.
  change (nmax (Fin 0) (Fin q)) with (if Qle_bool 0 q then Fin q else Fin 0).
  rewrite (proj2 (Qle_bool_iff 0 q) H0).
  change (nmin (Fin 255) (Fin q))
    with (if Qle_bool 255 q then Fin 255 else Fin q).
  destruct (Qle_bool 255 q) eqn:E255.
  - apply Qle_bool_iff in E255.
    assert (q == 255) by lra.
    assert (Hv255 : inject_Z v == inject_Z 255) by (rewrite <- Hq; assumption).
    unfold Qeq in Hv255. simpl in Hv255.
    assert (v = 255%Z) as -> by lia. reflexivity.
  - unfold toUint8Clamp. rewrite E255.
    destruct (Qle_bool q 0) eqn:E0.
    + apply Qle_bool_iff in E0.
      assert (Hv0 : inject_Z v == inject_Z 0)
        by (rewrite <- Hq; change (inject_Z 0) with 0%Q; lra).
      unfold Qeq in Hv0. simpl in Hv0.
      assert (v = 0%Z) as -> by lia. reflexivity.
    + assert (Hf : Qfloor q = v) by (rewrite Hq; apply Qfloor_Z).
      rewrite Hf.
      assert (E1 : Qlt_bool (inject_Z v + (1 # 2)) q = false)
        by (apply Qlt_bool_false_iff; lra).
      assert (E2 : Qlt_bool q (inject_Z v + (1 # 2)) = true)
        by (apply Qlt_bool_iff; lra).
      rewrite E1, E2. reflexivity.
Qed.








(** * Morphology: passes as a function of the source map *)

Lemma morphPass_cells (isDilate : bool) (w h : nat) (src dst : list num)
  (i : nat) :
  length dst = w * h -> i < w * h ->
  morphPass isDilate w h src dst !! i
  = Some (morphCell isDilate w h src (i / w) (i mod w)).
Proof.
  intros Hlen Hi.
  assert (Hw : 0 < w) by nia.
  assert (Hx : i mod w < w) by (apply Nat.mod_upper_bound; lia).
  assert (Hy : i / w < h) by (apply Nat.Div0.div_lt_upper_bound; lia).
  assert (E : i = i / w * w + i mod w).
  { rewrite (Nat.div_mod_eq i w) at 1. lia. }
  rewrite E at 1. apply morphPass_lookup; assumption.
Qed.

(** A pass does not depend on what its destination buffer held. *)
Lemma morphPass_indep (isDilate : bool) (w h : nat) (src dst dst' : list num) :
  length dst = w * h -> length dst' = w * h ->
  morphPass isDilate w h src dst = morphPass isDilate w h src dst'.
Proof.
  intros H1 H2. apply list_eq. intros i.
  destruct (decide (i < w * h)) as [Hi|Hi].
  - rewrite !morphPass_cells by assumption. reflexivity.
  - rewrite !lookup_ge_None_2; [reflexivity | |];
      rewrite morphPass_length by lia; lia.
Qed.

Lemma passFn_length (isDilate : bool) (w h : nat) (m : list num) :
  length m = w * h -> length (passFn isDilate w h m) = w * h.
Proof.
  intros Hm. unfold passFn.
  rewrite morphPass_length; rewrite length_replicate; lia.
Qed.

Lemma passFn_twoValued (isDilate : bool) (w h : nat) (m : list num) :
  length m = w * h -> Forall twoValued (passFn isDilate w h m).
Proof.
  intros Hm. apply morphPass_all_written.
  rewrite length_replicate. exact Hm.
Qed.

Lemma passFn_cells (isDilate : bool) (w h : nat) (m : list num) (x y : nat) :
  length m = w * h -> x < w -> y < h ->
  passFn isDilate w h m !! (y * w + x) = Some (morphCell isDilate w h m y x).
Proof.
  intros Hm Hx Hy. apply morphPass_lookup; [|assumption..].
  rewrite length_replicate. exact Hm.
Qed.

Lemma parity_succ (i : nat) : (S i mod 2 =? 0) = negb (i mod 2 =? 0).
Proof.
  pose proof (Nat.div_mod_eq i 2). pose proof (Nat.div_mod_eq (S i) 2).
  pose proof (Nat.mod_upper_bound i 2). pose proof (Nat.mod_upper_bound (S i) 2).
  destruct (Nat.eqb_spec (S i mod 2) 0), (Nat.eqb_spec (i mod 2) 0);
    simpl; try reflexivity; lia.
Qed.

Lemma iter_passFn_length (isDilate : bool) (w h p : nat) (m : list num) :
  length m = w * h -> length (Nat.iter p (passFn isDilate w h) m) = w * h.
Proof.
  intros Hm. induction p as [|p IH]; [exact Hm|].
  simpl. apply passFn_length. exact IH.
Qed.

Lemma iter_passFn_twoValued (isDilate : bool) (w h p : nat) (m : list num) :
  length m = w * h -> Forall twoValued m ->
  Forall twoValued (Nat.iter p (passFn isDilate w h) m).
Proof.
  intros Hm Htv. destruct p as [|p]; [exact Htv|].
  simpl. apply passFn_twoValued. apply iter_passFn_length. exact Hm.
Qed.

(** The two buffers of the morphology loop hold, in turn, the iterates of a
    single pass. *)
Lemma morphLoop_iter (isDilate : bool) (p : nat) (output : list num)
  (w h : nat) :
  length output = w * h ->
  morphLoop isDilate p output w h = Nat.iter p (passFn isDilate w h) output.
Proof.
  intros Hout. unfold morphLoop.
  assert (Hinv : let st := for_ p (fun p '(bufA, bufB) =>
        if p mod 2 =? 0
        then (bufA, morphPass isDilate w h bufA bufB)
        else (morphPass isDilate w h bufB bufA, bufB))
        (output, replicate (length output) (Fin 0)) in
      length st.1 = w * h /\ length st.2 = w * h /\
      (if p mod 2 =? 0 then st.1 else st.2)
      = Nat.iter p (passFn isDilate w h) output).
  { apply (for_inv (fun i (st : list num * list num) =>
      length st.1 = w * h /\ length st.2 = w * h /\
      (if i mod 2 =? 0 then st.1 else st.2)
      = Nat.iter i (passFn isDilate w h) output)).
    - cbn [fst snd]. rewrite length_replicate. auto.
    - intros i [a b] _ (Ha & Hb & Hi). cbn [fst snd] in *.
      rewrite parity_succ.
      destruct (i mod 2 =? 0); cbn [negb fst snd].
      + rewrite morphPass_length by lia. repeat split; try assumption.
        simpl. rewrite <- Hi. unfold passFn.
        apply morphPass_indep; [exact Hb|].
        rewrite length_replicate. exact Ha.
      + rewrite morphPass_length by lia. repeat split; try assumption.
        simpl. rewrite <- Hi. unfold passFn.
        apply morphPass_indep; [exact Ha|].
        rewrite length_replicate. exact Hb. }
  cbv zeta in Hinv. destruct (for_ _ _ _) as [a b].
  cbn [fst snd] in Hinv. apply Hinv.
Qed.

Lemma morphology_iter (thickness : Z) (output : list num) (w h : nat) :
  length output = w * h ->
  morphology thickness output w h
  = Nat.iter (safePasses thickness) (passFn (thickness >? 0)%Z w h) output.
Proof.
  intros Hout. destruct (Z.eq_dec thickness 0%Z) as [->|Hne].
  - reflexivity.
  - rewrite morphology_loop by exact Hne. apply morphLoop_iter. exact Hout.
Qed.

(** C6: the morphology step runs [min(|thickness|, 15)] passes: on a map
    of [w * h] cells its output is that many iterations of one pass in the
    direction of the thickness.  Thickness 20 therefore gives exactly the
    map of thickness 15, namely 15 dilation passes, on the morphology step
    alone and on the whole stencil path.  The cap is 15 and no less: on a
    row of 16 cells with ink in the first one, thickness 15 fills the row
    and thickness 14 leaves its last cell blank. *)
Theorem thickness_20_same_as_15 (settings : StencilSettings) (data : list Z)
  (t : Z) (output : list num) (w h : nat) :
  length output = w * h ->
  morphology t output w h
  = Nat.iter (Z.to_nat (Z.min (Z.abs t) 15)) (passFn (t >? 0)%Z w h) output
  /\ morphology 20 output w h = Nat.iter 15 (passFn true w h) output
  /\ morphology 20 output w h = morphology 15 output w h
  /\ stencilMap (set_thickness 20 settings) data w h
     = stencilMap (set_thickness 15 settings) data w h
  /\ morphology 15 (Fin 0 :: replicate 15 (Fin 255)) 16 1
     = replicate 16 (Fin 0)
  /\ morphology 14 (Fin 0 :: replicate 15 (Fin 255)) 16 1
     = replicate 15 (Fin 0) ++ [Fin 255].
Proof.
  intros Hout.
  assert (Hcap : forall o, morphology 20 o w h = morphology 15 o w h).
  { intros o. rewrite (morphology_capped 20), (morphology_capped 15) by lia.
    reflexivity. }
  split; [apply morphology_iter; exact Hout|].
  split; [apply (morphology_iter 20); exact Hout|].
  split; [apply Hcap|].
  split; [unfold stencilMap; cbn [set_thickness thickness]; apply Hcap|].
  split; vm_compute; reflexivity.
Qed.

Lemma thickness_20_same_as_15_witness :
  morphology 20 (Fin 0 :: replicate 15 (Fin 255) ++ [Fin 255]) 17 1
  = Nat.iter 15 (passFn true 17 1)
      (Fin 0 :: replicate 15 (Fin 255) ++ [Fin 255])
  /\ morphology 20 (Fin 0 :: replicate 15 (Fin 255) ++ [Fin 255]) 17 1
     = replicate 16 (Fin 0) ++ [Fin 255].
Proof.
  split.
  - apply (proj1 (proj2 (thickness_20_same_as_15
      (mkSettings 223 20 0 SOLID false false 9 1.5 3.5 true
         None None None None None)
      [] 20 (Fin 0 :: replicate 15 (Fin 255) ++ [Fin 255]) 17 1 eq_refl))).
  - vm_compute. reflexivity.
Defined.

(** * Morphology: what a pass computes on a binary map *)

Lemma dilateVal_spec (val n s w_pix e_pix : num) :
  twoValued val -> twoValued n -> twoValued s ->
  twoValued w_pix -> twoValued e_pix ->
  dilateVal val n s w_pix e_pix = Fin 0 <->
  val = Fin 0 \/ n = Fin 0 \/ s = Fin 0 \/ w_pix = Fin 0 \/ e_pix = Fin 0.
Proof.
  intros [->| ->] [->| ->] [->| ->] [->| ->] [->| ->];
    vm_compute; intuition (try discriminate; auto 10).
Qed.

Lemma erodeVal_spec (val n s w_pix e_pix : num) :
  twoValued val -> twoValued n -> twoValued s ->
  twoValued w_pix -> twoValued e_pix ->
  erodeVal val n s w_pix e_pix = Fin 0 <->
  val = Fin 0 /\ n = Fin 0 /\ s = Fin 0 /\ w_pix = Fin 0 /\ e_pix = Fin 0.
Proof.
  intros [->| ->] [->| ->] [->| ->] [->| ->] [->| ->];
    vm_compute; intuition (try discriminate; auto 10).
Qed.

Lemma rd_in_range (m : list num) (k : nat) :
  k < length m -> m !! k = Some (rd m k).
Proof.
  intros Hk. apply lookup_lt_is_Some_2 in Hk as [v Hv].
  unfold rd. rewrite Hv. reflexivity.
Qed.

Lemma rd_twoValued (m : list num) (k : nat) :
  Forall twoValued m -> k < length m -> twoValued (rd m k).
Proof.
  intros Hm Hk. apply (proj1 (Forall_lookup _ _) Hm k).
  apply rd_in_range. exact Hk.
Qed.

(** A neighbour read by a dilation pass: the map cell, or blank outside. *)
Lemma read_or_blank (b : bool) (m : list num) (k : nat) :
  Forall twoValued m -> (b = true -> k < length m) ->
  twoValued (if b then rd m k else Fin 255)
  /\ ((if b then rd m k else Fin 255) = Fin 0 <-> b = true /\ ink m k).
Proof.
  intros Hm Hk. destruct b.
  - specialize (Hk eq_refl). split; [apply rd_twoValued; assumption|].
    unfold ink. rewrite (rd_in_range m k Hk). split.
    + intros ->. auto.
    + intros [_ E]. congruence.
  - split; [right; reflexivity|]. split; [discriminate | intros [E _]; discriminate].
Qed.

(** A neighbour read by an erosion pass: the map cell, or ink outside. *)
Lemma read_or_ink (b : bool) (m : list num) (k : nat) :
  Forall twoValued m -> (b = true -> k < length m) ->
  twoValued (if b then rd m k else Fin 0)
  /\ ((if b then rd m k else Fin 0) = Fin 0 <-> (b = true -> ink m k)).
Proof.
  intros Hm Hk. destruct b.
  - specialize (Hk eq_refl). split; [apply rd_twoValued; assumption|].
    unfold ink. rewrite (rd_in_range m k Hk). split.
    + intros -> _. reflexivity.
    + intros E. specialize (E eq_refl). congruence.
  - split; [left; reflexivity|]. split; [discriminate | reflexivity].
Qed.

Lemma dilate_cell_spec (w h : nat) (src : list num) (x y : nat) :
  Forall twoValued src -> length src = w * h -> x < w -> y < h ->
  morphCell true w h src y x = Fin 0 <->
  ink src (y * w + x)
  \/ (0 < y /\ ink src ((y - 1) * w + x))
  \/ (y + 1 < h /\ ink src ((y + 1) * w + x))
  \/ (0 < x /\ ink src (y * w + (x - 1)))
  \/ (x + 1 < w /\ ink src (y * w + (x + 1))).
Proof.
  intros Htv Hlen Hx Hy.
  pose proof (index_lt w h x y Hx Hy) as Hidx.
  change (morphCell true w h src y x)
    with (dilateVal (rd src (y * w + x))
            (if 0 <? y then rd src (y * w + x - w) else Fin 255)
            (if y <? h - 1 then rd src (y * w + x + w) else Fin 255)
            (if 0 <? x then rd src (y * w + x - 1) else Fin 255)
            (if x <? w - 1 then rd src (y * w + x + 1) else Fin 255)).
  destruct (read_or_blank (0 <? y) src (y * w + x - w) Htv) as [Tn En].
  { intros _. lia. }
  destruct (read_or_blank (y <? h - 1) src (y * w + x + w) Htv) as [Ts Es].
  { intros E. apply Nat.ltb_lt in E. nia. }
  destruct (read_or_blank (0 <? x) src (y * w + x - 1) Htv) as [Tw Ew].
  { intros _. lia. }
  destruct (read_or_blank (x <? w - 1) src (y * w + x + 1) Htv) as [Te Ee].
  { intros E. apply Nat.ltb_lt in E. nia. }
  rewrite dilateVal_spec; try assumption; [|apply rd_twoValued; [assumption | lia]].
  rewrite En, Es, Ew, Ee, !Nat.ltb_lt.
  assert (Ec : rd src (y * w + x) = Fin 0 <-> ink src (y * w + x)).
  { unfold ink. rewrite (rd_in_range src (y * w + x)) by lia.
    split; congruence. }
  rewrite Ec.
  assert (E1 : 0 < y -> y * w + x - w = (y - 1) * w + x) by nia.
  assert (E2 : y * w + x + w = (y + 1) * w + x) by nia.
  assert (E3 : y * w + x - 1 = y * w + (x - 1) \/ x = 0) by lia.
  assert (E4 : y * w + x + 1 = y * w + (x + 1)) by lia.
  rewrite E2, E4.
  split.
  - intros [H|[[H1 H2]|[[H1 H2]|[[H1 H2]|[H1 H2]]]]].
    + left. exact H.
    + right; left. rewrite <- E1 by exact H1. auto.
    + right; right; left. split; [lia | exact H2].
    + right; right; right; left. destruct E3 as [<-|]; [auto | lia].
    + right; right; right; right. split; [lia | exact H2].
  - intros [H|[[H1 H2]|[[H1 H2]|[[H1 H2]|[H1 H2]]]]].
    + left. exact H.
    + right; left. rewrite E1 by exact H1. auto.
    + right; right; left. split; [lia | exact H2].
    + right; right; right; left. destruct E3 as [->|]; [auto | lia].
    + right; right; right; right. split; [lia | exact H2].
Qed.

Lemma erode_cell_spec (w h : nat) (src : list num) (x y : nat) :
  Forall twoValued src -> length src = w * h -> x < w -> y < h ->
  morphCell false w h src y x = Fin 0 <->
  ink src (y * w + x)
  /\ (0 < y -> ink src ((y - 1) * w + x))
  /\ (y + 1 < h -> ink src ((y + 1) * w + x))
  /\ (0 < x -> ink src (y * w + (x - 1)))
  /\ (x + 1 < w -> ink src (y * w + (x + 1))).
Proof.
  intros Htv Hlen Hx Hy.
  pose proof (index_lt w h x y Hx Hy) as Hidx.
  change (morphCell false w h src y x)
    with (erodeVal (rd src (y * w + x))
            (if 0 <? y then rd src (y * w + x - w) else Fin 0)
            (if y <? h - 1 then rd src (y * w + x + w) else Fin 0)
            (if 0 <? x then rd src (y * w + x - 1) else Fin 0)
            (if x <? w - 1 then rd src (y * w + x + 1) else Fin 0)).
  destruct (read_or_ink (0 <? y) src (y * w + x - w) Htv) as [Tn En].
  { intros _. lia. }
  destruct (read_or_ink (y <? h - 1) src (y * w + x + w) Htv) as [Ts Es].
  { intros E. apply Nat.ltb_lt in E. nia. }
  destruct (read_or_ink (0 <? x) src (y * w + x - 1) Htv) as [Tw Ew].
  { intros _. lia. }
  destruct (read_or_ink (x <? w - 1) src (y * w + x + 1) Htv) as [Te Ee].
  { intros E. apply Nat.ltb_lt in E. nia. }
  rewrite erodeVal_spec; try assumption; [|apply rd_twoValued; [assumption | lia]].
  rewrite En, Es, Ew, Ee, !Nat.ltb_lt.
  assert (Ec : rd src (y * w + x) = Fin 0 <-> ink src (y * w + x)).
  { unfold ink. rewrite (rd_in_range src (y * w + x)) by lia.
    split; congruence. }
  rewrite Ec.
  assert (E1 : 0 < y -> y * w + x - w = (y - 1) * w + x) by nia.
  assert (E2 : y * w + x + w = (y + 1) * w + x) by nia.
  assert (E3 : 0 < x -> y * w + x - 1 = y * w + (x - 1)) by lia.
  assert (E4 : y * w + x + 1 = y * w + (x + 1)) by lia.
  rewrite E2, E4.
  split.
  - intros (H & Hn & Hs & Hw & He). repeat split.
    + exact H.
    + intros H1. rewrite <- E1 by exact H1. auto.
    + intros H1. apply Hs. lia.
    + intros H1. rewrite <- E3 by exact H1. auto.
    + intros H1. apply He. lia.
  - intros (H & Hn & Hs & Hw & He). repeat split.
    + exact H.
    + intros H1. rewrite E1 by exact H1. auto.
    + intros H1. apply Hs. lia.
    + intros H1. rewrite E3 by exact H1. auto.
    + intros H1. apply He. lia.
Qed.

(** X1: on a binary map a dilation pass makes a cell ink exactly when the
    cell or one of its four neighbours inside the map was ink. *)
Theorem dilation_pass_grows_ink (w h : nat) (src dst : list num) (x y : nat) :
  Forall twoValued src -> length src = w * h -> length dst = w * h ->
  x < w -> y < h ->
  ink (morphPass true w h src dst) (y * w + x) <->
  ink src (y * w + x)
  \/ (0 < y /\ ink src ((y - 1) * w + x))
  \/ (y + 1 < h /\ ink src ((y + 1) * w + x))
  \/ (0 < x /\ ink src (y * w + (x - 1)))
  \/ (x + 1 < w /\ ink src (y * w + (x + 1))).
Proof.
  intros Htv Hsrc Hdst Hx Hy. unfold ink at 1.
  rewrite morphPass_lookup by assumption.
  rewrite <- (dilate_cell_spec w h src x y) by assumption.
  split; congruence.
Qed.

Lemma dilation_pass_grows_ink_witness :
  ink (morphPass true 3 1 [Fin 255; Fin 0; Fin 255] [Fin 0; Fin 0; Fin 0]) 2.
Proof.
  apply (proj2 (dilation_pass_grows_ink 3 1 [Fin 255; Fin 0; Fin 255]
                  [Fin 0; Fin 0; Fin 0] 2 0
                  ltac:(repeat constructor; (left + right); reflexivity)
                  eq_refl eq_refl ltac:(lia) ltac:(lia))).
  right; right; right; left. split; [lia | reflexivity].
Defined.

(** X2: on a binary map an erosion pass keeps a cell ink exactly when the
    cell and all of its four neighbours inside the map were ink; neighbours
    outside the map never remove ink. *)
Theorem erosion_pass_shrinks_ink (w h : nat) (src dst : list num) (x y : nat) :
  Forall twoValued src -> length src = w * h -> length dst = w * h ->
  x < w -> y < h ->
  ink (morphPass false w h src dst) (y * w + x) <->
  ink src (y * w + x)
  /\ (0 < y -> ink src ((y - 1) * w + x))
  /\ (y + 1 < h -> ink src ((y + 1) * w + x))
  /\ (0 < x -> ink src (y * w + (x - 1)))
  /\ (x + 1 < w -> ink src (y * w + (x + 1))).
Proof.
  intros Htv Hsrc Hdst Hx Hy. unfold ink at 1.
  rewrite morphPass_lookup by assumption.
  rewrite <- (erode_cell_spec w h src x y) by assumption.
  split; congruence.
Qed.

Lemma erosion_pass_shrinks_ink_witness :
  ink (morphPass false 2 1 [Fin 0; Fin 0] [Fin 255; Fin 255]) 0.
Proof.
  apply (proj2 (erosion_pass_shrinks_ink 2 1 [Fin 0; Fin 0]
                  [Fin 255; Fin 255] 0 0
                  ltac:(repeat constructor; (left + right); reflexivity)
                  eq_refl eq_refl ltac:(lia) ltac:(lia))).
  repeat split; try (intros; lia); intros; reflexivity.
Defined.

(** X3: the double-buffered morphology loop computes the iterate of a single
    pass: [min(|thickness|, 15)] passes, each reading only the result of the
    previous one, never what a buffer held from two passes before. *)
Theorem morphology_iterates_one_pass (thickness : Z) (output : list num)
  (w h : nat) :
  length output = w * h ->
  morphology thickness output w h
  = Nat.iter (Z.to_nat (Z.min (Z.abs thickness) 15))
      (passFn (thickness >? 0)%Z w h) output.
Proof. intros Hout. apply morphology_iter. exact Hout. Qed.

Lemma morphology_iterates_one_pass_witness :
  morphology 2 [Fin 255; Fin 255; Fin 0; Fin 255; Fin 255] 5 1
  = passFn true 5 1 (passFn true 5 1 [Fin 255; Fin 255; Fin 0; Fin 255; Fin 255]).
Proof.
  apply (morphology_iterates_one_pass 2
           [Fin 255; Fin 255; Fin 0; Fin 255; Fin 255] 5 1 eq_refl).
Defined.

Lemma ink_replicate (n k : nat) (v : num) :
  ink (replicate n v) k <-> k < n /\ v = Fin 0.
Proof.
  unfold ink. rewrite lookup_replicate. split.
  - intros [E Hk]. split; [exact Hk | symmetry; exact E].
  - intros [Hk E]. split; [symmetry; exact E | exact Hk].
Qed.

Lemma passFn_uniform (isDilate : bool) (w h : nat) (v : num) :
  twoValued v ->
  passFn isDilate w h (replicate (w * h) v) = replicate (w * h) v.
Proof.
  intros Hv.
  assert (Hlen : length (replicate (w * h) v) = w * h) by apply length_replicate.
  assert (Htv : Forall twoValued (replicate (w * h) v))
    by (apply Forall_replicate; exact Hv).
  apply constant_map; [apply passFn_length; exact Hlen|].
  intros i Hi. unfold passFn. rewrite morphPass_cells;
    [|rewrite length_replicate; exact Hlen | exact Hi].
  f_equal.
  assert (Hw : 0 < w) by nia.
  assert (Hx : i mod w < w) by (apply Nat.mod_upper_bound; lia).
  assert (Hy : i / w < h) by (apply Nat.Div0.div_lt_upper_bound; lia).
  pose proof (morphCell_twoValued isDilate w h (replicate (w * h) v)
                (i / w) (i mod w)) as Hcell.
  pose proof (dilate_cell_spec w h _ _ _ Htv Hlen Hx Hy) as Hd.
  pose proof (erode_cell_spec w h _ _ _ Htv Hlen Hx Hy) as He.
  rewrite !ink_replicate in Hd, He.
  destruct Hv as [-> | ->].
  - (* all ink *)
    destruct isDilate.
    + apply Hd. left. split; [nia | reflexivity].
    + apply He. repeat split; intros; nia.
  - (* all blank *)
    destruct Hcell as [E|E]; [|exact E]. exfalso.
    destruct isDilate.
    + apply Hd in E.
      destruct E as [[_ E]|[[_ [_ E]]|[[_ [_ E]]|[[_ [_ E]]|[_ [_ E]]]]]];
        discriminate.
    + apply He in E. destruct E as [[_ E] _]. discriminate.
Qed.

Lemma morphology_uniform (thickness : Z) (w h : nat) (v : num) :
  twoValued v ->
  morphology thickness (replicate (w * h) v) w h = replicate (w * h) v.
Proof.
  intros Hv. rewrite morphology_iter by apply length_replicate.
  induction (safePasses thickness) as [|p IH]; [reflexivity|].
  simpl. rewrite IH. apply passFn_uniform. exact Hv.
Qed.

(** X4: a map with no ink (all 255) and a map with nothing but ink (all 0)
    are left as they are by the morphology step, for every thickness: no
    pass creates ink from nothing, and the image border does not erode. *)
Theorem morphology_keeps_uniform_map (thickness : Z) (w h : nat) (v : num) :
  twoValued v ->
  morphology thickness (replicate (w * h) v) w h = replicate (w * h) v.
Proof. apply morphology_uniform. Qed.

Lemma morphology_keeps_uniform_map_witness :
  morphology (-3) (replicate (4 * 2) (Fin 0)) 4 2 = replicate (4 * 2) (Fin 0).
Proof.
  apply (morphology_keeps_uniform_map (-3) 4 2 (Fin 0)). left. reflexivity.
Defined.

(** * Morphology: ink as a function of the thickness *)

Lemma cell_coordinates (w h k : nat) :
  k < w * h -> k mod w < w /\ k / w < h /\ k = k / w * w + k mod w.
Proof.
  intros Hk. assert (Hw : 0 < w) by nia.
  split; [apply Nat.mod_upper_bound; lia|].
  split; [apply Nat.Div0.div_lt_upper_bound; lia|].
  rewrite (Nat.div_mod_eq k w) at 1. lia.
Qed.

Lemma dilate_extensive (w h : nat) (m : list num) (k : nat) :
  Forall twoValued m -> length m = w * h ->
  ink m k -> ink (passFn true w h m) k.
Proof.
  intros Htv Hlen Hk.
  assert (Hlt : k < w * h) by (apply lookup_lt_Some in Hk; lia).
  destruct (cell_coordinates w h k Hlt) as (Hx & Hy & E).
  unfold ink. rewrite E, passFn_cells by assumption. f_equal.
  apply dilate_cell_spec; try assumption. left. rewrite <- E. exact Hk.
Qed.

Lemma erode_antiextensive (w h : nat) (m : list num) (k : nat) :
  Forall twoValued m -> length m = w * h ->
  ink (passFn false w h m) k -> ink m k.
Proof.
  intros Htv Hlen Hk.
  assert (Hlt : k < w * h).
  { apply lookup_lt_Some in Hk. rewrite passFn_length in Hk by exact Hlen. lia. }
  destruct (cell_coordinates w h k Hlt) as (Hx & Hy & E).
  unfold ink in Hk. rewrite E, passFn_cells in Hk by assumption.
  injection Hk as Hk. apply erode_cell_spec in Hk; try assumption.
  rewrite E. apply Hk.
Qed.

Lemma iter_dilate_mono (w h p q : nat) (m : list num) (k : nat) :
  Forall twoValued m -> length m = w * h -> p <= q ->
  ink (Nat.iter p (passFn true w h) m) k ->
  ink (Nat.iter q (passFn true w h) m) k.
Proof.
  intros Htv Hlen Hpq Hk. induction Hpq as [|q Hpq IH]; [exact Hk|].
  simpl. apply dilate_extensive; [| |exact IH].
  - apply iter_passFn_twoValued; assumption.
  - apply iter_passFn_length; assumption.
Qed.

Lemma iter_erode_mono (w h p q : nat) (m : list num) (k : nat) :
  Forall twoValued m -> length m = w * h -> p <= q ->
  ink (Nat.iter q (passFn false w h) m) k ->
  ink (Nat.iter p (passFn false w h) m) k.
Proof.
  intros Htv Hlen Hpq. induction Hpq as [|q Hpq IH]; [auto|].
  intros Hk. apply IH. simpl in Hk.
  apply erode_antiextensive in Hk; [exact Hk| |].
  - apply iter_passFn_twoValued; assumption.
  - apply iter_passFn_length; assumption.
Qed.

Lemma morphology_nonneg (thickness : Z) (output : list num) (w h : nat) :
  length output = w * h -> (0 <= thickness)%Z ->
  morphology thickness output w h
  = Nat.iter (safePasses thickness) (passFn true w h) output.
Proof.
  intros Hout Ht. rewrite morphology_iter by exact Hout.
  destruct (Z.eq_dec thickness 0%Z) as [->|Hne]; [reflexivity|].
  replace (thickness >? 0)%Z with true by lia. reflexivity.
Qed.

Lemma morphology_nonpos (thickness : Z) (output : list num) (w h : nat) :
  length output = w * h -> (thickness <= 0)%Z ->
  morphology thickness output w h
  = Nat.iter (safePasses thickness) (passFn false w h) output.
Proof.
  intros Hout Ht. rewrite morphology_iter by exact Hout.
  replace (thickness >? 0)%Z with false by lia. reflexivity.
Qed.

Lemma morphology_ink_mono (t1 t2 : Z) (output : list num) (w h k : nat) :
  Forall twoValued output -> length output = w * h -> (t1 <= t2)%Z ->
  ink (morphology t1 output w h) k -> ink (morphology t2 output w h) k.
Proof.
  intros Htv Hlen Ht.
  destruct (Z_le_gt_dec 0 t1) as [H1|H1].
  - rewrite !morphology_nonneg by (assumption || lia).
    apply iter_dilate_mono; try assumption. unfold safePasses. lia.
  - destruct (Z_le_gt_dec t2 0) as [H2|H2].
    + rewrite !morphology_nonpos by (assumption || lia).
      apply iter_erode_mono; try assumption. unfold safePasses. lia.
    + rewrite morphology_nonpos, morphology_nonneg by (assumption || lia).
      intros Hk.
      apply (iter_dilate_mono w h 0); [assumption.. | lia |].
      apply (iter_erode_mono w h 0 (safePasses t1)); [assumption.. | lia |].
      exact Hk.
Qed.

(** X5: with the raster and every other setting fixed, the ink of the final
    map grows with the thickness: a pixel that is ink at thickness [t1] is
    ink at every thickness [t2] above it, across erosion (negative), no
    morphology (0) and dilation (positive). *)
Theorem final_ink_monotone_in_thickness (settings : StencilSettings)
  (data : list Z) (w h : nat) (t1 t2 : Z) (k : nat) :
  (t1 <= t2)%Z ->
  ink (stencilMap (set_thickness t1 settings) data w h) k ->
  ink (stencilMap (set_thickness t2 settings) data w h) k.
Proof.
  intros Ht.
  change (stencilMap (set_thickness t1 settings) data w h)
    with (morphology t1 (binarized settings data w h) w h).
  change (stencilMap (set_thickness t2 settings) data w h)
    with (morphology t2 (binarized settings data w h) w h).
  apply morphology_ink_mono; [apply binarize_twoValued | | exact Ht].
  apply binarize_spec.
Qed.

Lemma final_ink_monotone_in_thickness_witness :
  ink (stencilMap
         (set_thickness 2
            (mkSettings 223 0 0 SOLID false false 9 1.5 3.5 true
               None None None None None))
         dotRaster 17 17) 145.
Proof.
  apply (final_ink_monotone_in_thickness
    (mkSettings 223 0 0 SOLID false false 9 1.5 3.5 true None None None None None)
    dotRaster 17 17 1 2 145).
  - lia.
  - vm_compute. reflexivity.
Defined.

Lemma invert_twoValued (v : num) : twoValued (invert v).
Proof.
  unfold invert. destruct (num_eqb v (Fin 0)); [right | left]; reflexivity.
Qed.

Lemma erodeVal_dual (val n s w_pix e_pix : num) :
  twoValued val -> twoValued n -> twoValued s ->
  twoValued w_pix -> twoValued e_pix ->
  erodeVal val n s w_pix e_pix
  = invert (dilateVal (invert val) (invert n) (invert s)
              (invert w_pix) (invert e_pix)).
Proof.
  intros [->| ->] [->| ->] [->| ->] [->| ->] [->| ->];
    vm_compute; reflexivity.
Qed.

Lemma rd_fmap (f : num -> num) (m : list num) (k : nat) :
  k < length m -> rd (f <$> m) k = f (rd m k).
Proof.
  intros Hk. unfold rd. rewrite list_lookup_fmap.
  apply lookup_lt_is_Some_2 in Hk as [v ->]. reflexivity.
Qed.

Lemma guarded_invert (b : bool) (m : list num) (k : nat) :
  (b = true -> k < length m) ->
  (if b then rd (invert <$> m) k else Fin 255)
  = invert (if b then rd m k else Fin 0).
Proof.
  intros Hk. destruct b; [|reflexivity]. apply rd_fmap. auto.
Qed.

(** X6: on a binary map an erosion pass is the dilation pass of the inverted
    map, inverted back (ink and blank exchanged): the two passes, with their
    different treatment of the border, are exact duals. *)
Theorem erosion_is_dual_of_dilation (w h : nat) (m : list num) :
  Forall twoValued m -> length m = w * h ->
  passFn false w h m = invert <$> passFn true w h (invert <$> m).
Proof.
  intros Htv Hlen.
  assert (Hlen' : length (invert <$> m) = w * h)
    by (rewrite length_fmap; exact Hlen).
  apply list_eq. intros i.
  destruct (decide (i < w * h)) as [Hi|Hi].
  - destruct (cell_coordinates w h i Hi) as (Hx & Hy & E).
    rewrite list_lookup_fmap, E, !passFn_cells by assumption.
    cbn [fmap option_fmap option_map]. f_equal.
    set (x := i mod w) in *. set (y := i / w) in *.
    pose proof (index_lt w h x y Hx Hy) as Hidx.
    change (morphCell false w h m y x)
      with (erodeVal (rd m (y * w + x))
              (if 0 <? y then rd m (y * w + x - w) else Fin 0)
              (if y <? h - 1 then rd m (y * w + x + w) else Fin 0)
              (if 0 <? x then rd m (y * w + x - 1) else Fin 0)
              (if x <? w - 1 then rd m (y * w + x + 1) else Fin 0)).
    change (morphCell true w h (invert <$> m) y x)
      with (dilateVal (rd (invert <$> m) (y * w + x))
              (if 0 <? y then rd (invert <$> m) (y * w + x - w) else Fin 255)
              (if y <? h - 1 then rd (invert <$> m) (y * w + x + w) else Fin 255)
              (if 0 <? x then rd (invert <$> m) (y * w + x - 1) else Fin 255)
              (if x <? w - 1 then rd (invert <$> m) (y * w + x + 1) else Fin 255)).
    assert (B1 : (0 <? y) = true -> y * w + x - w < length m) by (intros _; lia).
    assert (B2 : (y <? h - 1) = true -> y * w + x + w < length m)
      by (intros B; apply Nat.ltb_lt in B; nia).
    assert (B3 : (0 <? x) = true -> y * w + x - 1 < length m) by (intros _; lia).
    assert (B4 : (x <? w - 1) = true -> y * w + x + 1 < length m)
      by (intros B; apply Nat.ltb_lt in B; nia).
    rewrite rd_fmap by lia.
    rewrite !guarded_invert by assumption.
    apply erodeVal_dual.
    + apply rd_twoValued; [assumption | lia].
    + apply (read_or_ink _ _ _ Htv B1).
    + apply (read_or_ink _ _ _ Htv B2).
    + apply (read_or_ink _ _ _ Htv B3).
    + apply (read_or_ink _ _ _ Htv B4).
  - rewrite !lookup_ge_None_2; [reflexivity | |].
    + rewrite length_fmap, passFn_length by exact Hlen'. lia.
    + rewrite passFn_length by exact Hlen. lia.
Qed.

Lemma erosion_is_dual_of_dilation_witness :
  passFn false 3 1 [Fin 0; Fin 0; Fin 255]
  = invert <$> passFn true 3 1 (invert <$> [Fin 0; Fin 0; Fin 255]).
Proof.
  apply (erosion_is_dual_of_dilation 3 1 [Fin 0; Fin 0; Fin 255]).
  - repeat constructor; (left + right); reflexivity.
  - reflexivity.
Defined.

(** * Box blur: size, range and the reach of the unclamped pre-fill *)

(** X7: on a plane of bytes, the blur neither overshoots nor loses a value:
    when the cells hold integers between [lo] and [hi], themselves within
    0..255, and the radius is at least 1, at most 255 and smaller than both
    dimensions, the blur is a plane of [w * h] finite values between [lo]
    and [hi]. *)
Theorem blur_stays_in_range (lo hi : Z) (source : list num) (w h radius : nat) :
  1 <= radius -> radius <= 255 -> radius < w -> radius < h ->
  (0 <= lo)%Z -> (hi <= 255)%Z ->
  (forall k, k < w * h ->
     exists v, source !! k = Some (ofZ v) /\ (lo <= v <= hi)%Z) ->
  length (boxBlur source w h radius) = w * h /\
  forall k, k < w * h ->
    good (inject_Z lo) (inject_Z hi) (boxBlur source w h radius) k.
Proof.
  intros Hr _ Hw Hh _ _ Hsrc.
  apply boxBlur_in_range; [exact Hr | exact Hw | exact Hh |].
  intros k Hk. destruct (Hsrc k Hk) as (v & Ev & Hv1 & Hv2).
  exists (inject_Z v). split; [exact Ev|].
  rewrite <- !Zle_Qle. split; assumption.
Qed.

Lemma blur_stays_in_range_witness :
  good 0 9 (boxBlur (map ofZ [0; 9; 3; 1; 4; 8; 2; 2; 7]%Z) 3 3 2) 4.
Proof.
  refine (proj2 (blur_stays_in_range 0 9 (map ofZ [0; 9; 3; 1; 4; 8; 2; 2; 7]%Z)
                   3 3 2 ltac:(lia) ltac:(lia) ltac:(lia) ltac:(lia)
                   ltac:(lia) ltac:(lia) _) 4 ltac:(lia)).
  intros k Hk.
  do 9 (destruct k as [|k];
        [eexists; split; [reflexivity | lia]|]).
  simpl in Hk. lia.
Defined.

(** X8: the blur keeps the size of the plane: for every radius the output of
    a [w * h] plane has [w * h] cells. *)
Theorem blur_keeps_size (source : list num) (w h radius : nat) :
  length source = w * h -> length (boxBlur source w h radius) = w * h.
Proof.
  intros Hlen. destruct (Nat.lt_ge_cases radius 1) as [Hr|Hr].
  - rewrite boxBlur_identity by exact Hr. exact Hlen.
  - apply boxBlur_length. exact Hr.
Qed.

Lemma blur_keeps_size_witness :
  length (boxBlur [Fin 1; Fin 2; Fin 3; Fin 4; Fin 5; Fin 6] 3 2 4) = 6.
Proof.
  apply (blur_keeps_size [Fin 1; Fin 2; Fin 3; Fin 4; Fin 5; Fin 6] 3 2 4).
  reflexivity.
Defined.

Lemma nadd_NaN_l (v : num) : nadd NaN v = NaN.
Proof. reflexivity. Qed.

Lemma nadd_NaN_r (v : num) : nadd v NaN = NaN.
Proof. destruct v; reflexivity. Qed.

Lemma nsub_NaN_l (v : num) : nsub NaN v = NaN.
Proof. reflexivity. Qed.

Lemma nsub_NaN_r (v : num) : nsub v NaN = NaN.
Proof. destruct v; reflexivity. Qed.

(** A pre-fill that reads one NaN is NaN. *)
Lemma prefill_poison (n : nat) (R : nat -> num) (s0 : num) (i : nat) :
  i < n -> R i = NaN -> for_ n (fun i sum => nadd sum (R i)) s0 = NaN.
Proof.
  intros Hi HR. induction n as [|n IH]; [lia|].
  rewrite for_S. destruct (decide (i = n)) as [->|Hne].
  - rewrite HR. apply nadd_NaN_r.
  - rewrite IH by lia. reflexivity.
Qed.

Lemma rd_out_of_range (a : list num) (k : nat) : length a <= k -> rd a k = NaN.
Proof.
  intros Hk. unfold rd. rewrite lookup_ge_None_2 by exact Hk. reflexivity.
Qed.

(** The sliding loop of one row or column, for an invariant [I] of the
    accumulator and a property [P] of the values written. *)
Lemma slide_gen (I : nat -> num -> Prop) (P : nat -> num -> Prop)
  (idx : nat -> nat) (n : nat) (K : num) (L E : nat -> num)
  (sum0 : num) (arr : list num) :
  I 0 sum0 ->
  (forall j sum, j < n -> I j sum ->
     P j (ndiv sum K) /\ I (S j) (nadd (nsub sum (L j)) (E j))) ->
  (forall j j', j < n -> j' < n -> idx j = idx j' -> j = j') ->
  (forall j, j < n -> idx j < length arr) ->
  let st := for_ n (fun j '(sum, a) =>
              let a := <[idx j := ndiv sum K]> a in
              let sum := nsub sum (L j) in
              let sum := nadd sum (E j) in
              (sum, a)) (sum0, arr) in
  length st.2 = length arr /\
  (forall j, j < n -> exists v, st.2 !! idx j = Some v /\ P j v) /\
  (forall k, (forall j, j < n -> idx j <> k) -> st.2 !! k = arr !! k).
Proof.
  intros H0 Hstep Hinj Hrange st. subst st.
  cut (let st := for_ n (fun j '(sum, a) =>
              let a := <[idx j := ndiv sum K]> a in
              let sum := nsub sum (L j) in
              let sum := nadd sum (E j) in
              (sum, a)) (sum0, arr) in
       I n st.1 /\ length st.2 = length arr /\
       (forall j, j < n -> exists v, st.2 !! idx j = Some v /\ P j v) /\
       (forall k, (forall j, j < n -> idx j <> k) -> st.2 !! k = arr !! k)).
  { cbv zeta. tauto. }
  cut (forall m, m <= n ->
       let st := for_ m (fun j '(sum, a) =>
              let a := <[idx j := ndiv sum K]> a in
              let sum := nsub sum (L j) in
              let sum := nadd sum (E j) in
              (sum, a)) (sum0, arr) in
       I m st.1 /\ length st.2 = length arr /\
       (forall j, j < m -> exists v, st.2 !! idx j = Some v /\ P j v) /\
       (forall k, (forall j, j < m -> idx j <> k) -> st.2 !! k = arr !! k)).
  { intros H. apply H. lia. }
  induction m as [|m IH]; intros Hm; cbv zeta.
  - rewrite for_0. cbn [fst snd].
    split; [exact H0|]. split; [reflexivity|]. split; [intros; lia | auto].
  - rewrite for_S. specialize (IH ltac:(lia)). cbv zeta in IH.
    destruct (for_ m _ _) as [sum a]. cbn [fst snd] in *.
    destruct IH as (HI & Hlen & Hw & Hf).
    destruct (Hstep m sum ltac:(lia) HI) as [HP HI'].
    split; [exact HI'|]. split; [rewrite length_insert; exact Hlen|]. split.
    + intros j Hj. destruct (decide (j = m)) as [->|Hne].
      * exists (ndiv sum K). split; [|exact HP].
        apply list_lookup_insert_eq. rewrite Hlen. apply Hrange. lia.
      * rewrite list_lookup_insert_ne.
        -- apply Hw. lia.
        -- intros E'. apply Hne. symmetry. apply Hinj; [lia | lia | exact E'].
    + intros k Hk. rewrite list_lookup_insert_ne by (apply Hk; lia).
      apply Hf. intros j Hj. apply Hk. lia.
Qed.

Lemma column_index_mod (w x y : nat) : x < w -> (y * w + x) mod w = x.
Proof. intros Hx. apply index_mod. exact Hx. Qed.

(** The vertical pass of a plane at most [radius] high writes NaN in every
    cell: its pre-fill reads [temp[x + h * w]], past the buffer. *)
Lemma vertical_pass_poisoned (temp : list num) (w h radius : nat) :
  length temp = w * h -> h <= radius ->
  for_ w (fun x target =>
    let sum := Fin 0 in
    let windowSize := ofNat (radius * 2 + 1) in
    let sum := for_ radius (fun _ sum => nadd sum (rd temp x)) sum in
    let sum := for_ (radius + 1) (fun i sum => nadd sum (rd temp (x + i * w))) sum in
    snd (for_ h (fun y '(sum, target) =>
      let target := <[y * w + x := ndiv sum windowSize]> target in
      let leavingIndex := Nat.max 0 (y - radius) in
      let enteringIndex := Nat.min (h - 1) (y + radius + 1) in
      let sum := nsub sum (rd temp (leavingIndex * w + x)) in
      let sum := nadd sum (rd temp (enteringIndex * w + x)) in
      (sum, target)) (sum, target))) (replicate (w * h) (Fin 0))
  = replicate (w * h) NaN.
Proof.
  intros Htemp Hh.
  set (target := for_ w _ (replicate (w * h) (Fin 0))).
  cut (length target = w * h /\
       forall k, k < w * h -> k mod w < w -> target !! k = Some NaN).
  { intros [Hlen Hcells]. apply constant_map; [exact Hlen|].
    intros k Hk. apply Hcells; [exact Hk|]. apply Nat.mod_upper_bound. nia. }
  subst target.
  apply (for_inv (fun x (t : list num) =>
    length t = w * h /\
    forall k, k < w * h -> k mod w < x -> t !! k = Some NaN)).
  - split; [apply length_replicate | intros; lia].
  - intros x t Hx [Hlen Hcells]. cbv zeta.
    rewrite (prefill_poison (radius + 1) (fun i => rd temp (x + i * w)) _ h)
      by (try lia; apply rd_out_of_range; nia).
    destruct (slide_gen (fun _ s => s = NaN) (fun _ v => v = NaN)
      (fun y => y * w + x) h (ofNat (radius * 2 + 1))
      (fun y => rd temp (Nat.max 0 (y - radius) * w + x))
      (fun y => rd temp (Nat.min (h - 1) (y + radius + 1) * w + x))
      NaN t) as (Hl & Hw & Hf).
    + reflexivity.
    + intros j s _ ->. split; reflexivity.
    + intros j j' _ _ E. nia.
    + intros j Hj. rewrite Hlen. apply index_lt; assumption.
    + cbv zeta in Hl, Hw, Hf.
      split; [rewrite Hl; exact Hlen|].
      intros k Hk Hmod.
      destruct (decide (k mod w = x)) as [Ex|Hne].
      * destruct (cell_coordinates w h k Hk) as (_ & Hy & E).
        rewrite Ex in E. rewrite E.
        destruct (Hw (k / w) Hy) as [v [Ev ->]]. exact Ev.
      * rewrite Hf.
        -- apply Hcells; [exact Hk | lia].
        -- intros j _ E. apply Hne. rewrite <- E. apply index_mod. exact Hx.
Qed.

Lemma horizontal_pass_length (source : list num) (w h radius : nat) :
  length (for_ h (fun y temp =>
        let rowStart := y * w in
        let sum := Fin 0 in
        let windowSize := ofNat (radius * 2 + 1) in
        let sum := for_ radius (fun _ sum => nadd sum (rd source rowStart)) sum in
        let sum := for_ (radius + 1) (fun i sum => nadd sum (rd source (rowStart + i))) sum in
        snd (for_ w (fun x '(sum, temp) =>
          let temp := <[rowStart + x := ndiv sum windowSize]> temp in
          let leavingIndex := Nat.max 0 (x - radius) in
          let enteringIndex := Nat.min (w - 1) (x + radius + 1) in
          let sum := nsub sum (rd source (rowStart + leavingIndex)) in
          let sum := nadd sum (rd source (rowStart + enteringIndex)) in
          (sum, temp)) (sum, temp))) (replicate (w * h) (Fin 0))) = w * h.
Proof.
  apply (for_inv (fun _ (t : list num) => length t = w * h));
    [apply length_replicate|].
  intros y t _ Ht. cbv zeta.
  rewrite (slide_length (fun x => y * w + x) w _
    (fun x => rd source (y * w + Nat.max 0 (x - radius)))
    (fun x => rd source (y * w + Nat.min (w - 1) (x + radius + 1)))).
  exact Ht.
Qed.

Lemma boxBlur_short_plane (source : list num) (w h radius : nat) :
  1 <= radius -> h <= radius ->
  boxBlur source w h radius = replicate (w * h) NaN.
Proof.
  intros Hr Hh. unfold boxBlur.
  destruct (Nat.ltb_spec radius 1) as [|_]; [lia|].
  apply vertical_pass_poisoned; [|exact Hh].
  apply horizontal_pass_length.
Qed.

(** X9: on a plane at most [radius] pixels high the blur returns NaN in
    every cell, whatever the plane holds: the unclamped pre-fill of the
    vertical pass reads past the buffer in every column. *)
Theorem blur_of_short_plane_is_NaN (source : list num) (w h radius : nat) :
  1 <= radius -> h <= radius ->
  boxBlur source w h radius = replicate (w * h) NaN.
Proof. apply boxBlur_short_plane. Qed.

Lemma blur_of_short_plane_is_NaN_witness :
  boxBlur [Fin 10; Fin 20; Fin 30; Fin 40; Fin 50; Fin 60] 3 2 2
  = replicate 6 NaN.
Proof.
  apply (blur_of_short_plane_is_NaN
           [Fin 10; Fin 20; Fin 30; Fin 40; Fin 50; Fin 60] 3 2 2); lia.
Defined.

Lemma horizontal_rows_length (source : list num) (w h radius m : nat) :
  length (for_ m (fun y temp =>
        let rowStart := y * w in
        let sum := Fin 0 in
        let windowSize := ofNat (radius * 2 + 1) in
        let sum := for_ radius (fun _ sum => nadd sum (rd source rowStart)) sum in
        let sum := for_ (radius + 1) (fun i sum => nadd sum (rd source (rowStart + i))) sum in
        snd (for_ w (fun x '(sum, temp) =>
          let temp := <[rowStart + x := ndiv sum windowSize]> temp in
          let leavingIndex := Nat.max 0 (x - radius) in
          let enteringIndex := Nat.min (w - 1) (x + radius + 1) in
          let sum := nsub sum (rd source (rowStart + leavingIndex)) in
          let sum := nadd sum (rd source (rowStart + enteringIndex)) in
          (sum, temp)) (sum, temp))) (replicate (w * h) (Fin 0))) = w * h.
Proof.
  apply (for_inv (fun _ (t : list num) => length t = w * h));
    [apply length_replicate|].
  intros y t _ Ht. cbv zeta.
  rewrite (slide_length (fun x => y * w + x) w _
    (fun x => rd source (y * w + Nat.max 0 (x - radius)))
    (fun x => rd source (y * w + Nat.min (w - 1) (x + radius + 1)))).
  exact Ht.
Qed.

(** The horizontal pass of a plane at most [radius] wide writes NaN in the
    whole last row: the pre-fill of that row reads past the buffer. *)
Lemma horizontal_pass_last_row (source : list num) (w h radius : nat) (x : nat) :
  length source = w * h -> w <= radius -> 0 < h -> x < w ->
  for_ h (fun y temp =>
        let rowStart := y * w in
        let sum := Fin 0 in
        let windowSize := ofNat (radius * 2 + 1) in
        let sum := for_ radius (fun _ sum => nadd sum (rd source rowStart)) sum in
        let sum := for_ (radius + 1) (fun i sum => nadd sum (rd source (rowStart + i))) sum in
        snd (for_ w (fun x '(sum, temp) =>
          let temp := <[rowStart + x := ndiv sum windowSize]> temp in
          let leavingIndex := Nat.max 0 (x - radius) in
          let enteringIndex := Nat.min (w - 1) (x + radius + 1) in
          let sum := nsub sum (rd source (rowStart + leavingIndex)) in
          let sum := nadd sum (rd source (rowStart + enteringIndex)) in
          (sum, temp)) (sum, temp))) (replicate (w * h) (Fin 0))
  !! ((h - 1) * w + x) = Some NaN.
Proof.
  intros Hsrc Hw Hh Hx.
  destruct h as [|h']; [lia|].
  rewrite for_S. cbv zeta.
  replace (S h' - 1) with h' by lia.
  pose proof (horizontal_rows_length source w (S h') radius h') as Hlen.
  cbv zeta in Hlen.
  set (t := for_ h' _ (replicate (w * S h') (Fin 0))) in *.
  rewrite (prefill_poison (radius + 1) (fun i => rd source (h' * w + i)) _ w)
    by (try lia; apply rd_out_of_range; nia).
  destruct (slide_gen (fun _ s => s = NaN) (fun _ v => v = NaN)
    (fun x => h' * w + x) w (ofNat (radius * 2 + 1))
    (fun x => rd source (h' * w + Nat.max 0 (x - radius)))
    (fun x => rd source (h' * w + Nat.min (w - 1) (x + radius + 1)))
    NaN t) as (Hl & Hwr & Hf).
  - reflexivity.
  - intros j s _ ->. split; reflexivity.
  - intros j j' _ _ E. lia.
  - intros j Hj. rewrite Hlen. nia.
  - cbv zeta in Hwr. destruct (Hwr x Hx) as [v [Ev ->]]. exact Ev.
Qed.

(** The vertical pass over a buffer whose last row is NaN writes NaN in every
    row whose window reaches the last row. *)
Lemma vertical_pass_reaches_last_row (temp : list num) (w h radius : nat)
  (x y : nat) :
  length temp = w * h ->
  (forall x', x' < w -> temp !! ((h - 1) * w + x') = Some NaN) ->
  x < w -> y < h -> h <= y + radius + 1 ->
  for_ w (fun x target =>
    let sum := Fin 0 in
    let windowSize := ofNat (radius * 2 + 1) in
    let sum := for_ radius (fun _ sum => nadd sum (rd temp x)) sum in
    let sum := for_ (radius + 1) (fun i sum => nadd sum (rd temp (x + i * w))) sum in
    snd (for_ h (fun y '(sum, target) =>
      let target := <[y * w + x := ndiv sum windowSize]> target in
      let leavingIndex := Nat.max 0 (y - radius) in
      let enteringIndex := Nat.min (h - 1) (y + radius + 1) in
      let sum := nsub sum (rd temp (leavingIndex * w + x)) in
      let sum := nadd sum (rd temp (enteringIndex * w + x)) in
      (sum, target)) (sum, target))) (replicate (w * h) (Fin 0))
  !! (y * w + x) = Some NaN.
Proof.
  intros Htemp Hlast Hx Hy Hreach.
  assert (Hrd : forall x', x' < w -> rd temp ((h - 1) * w + x') = NaN).
  { intros x' Hx'. unfold rd. rewrite Hlast by exact Hx'. reflexivity. }
  set (target := for_ w _ (replicate (w * h) (Fin 0))).
  cut (length target = w * h /\
       forall x' y', x' < w -> y' < h -> h <= y' + radius + 1 ->
                     target !! (y' * w + x') = Some NaN).
  { intros [_ H]. apply H; assumption. }
  subst target.
  apply (for_inv (fun c (t : list num) =>
    length t = w * h /\
    forall x' y', x' < c -> y' < h -> h <= y' + radius + 1 ->
                  t !! (y' * w + x') = Some NaN)).
  - split; [apply length_replicate | intros; lia].
  - intros c t Hc [Hlen Hcells]. cbv zeta.
    destruct (slide_gen
      (fun j s => h <= j + radius + 1 -> s = NaN)
      (fun j v => h <= j + radius + 1 -> v = NaN)
      (fun y => y * w + c) h (ofNat (radius * 2 + 1))
      (fun y => rd temp (Nat.max 0 (y - radius) * w + c))
      (fun y => rd temp (Nat.min (h - 1) (y + radius + 1) * w + c))
      (for_ (radius + 1) (fun i sum => nadd sum (rd temp (c + i * w)))
         (for_ radius (fun _ sum => nadd sum (rd temp c)) (Fin 0))) t)
      as (Hl & Hw & Hf).
    + intros H0.
      apply (prefill_poison (radius + 1) (fun i => rd temp (c + i * w)) _ (h - 1));
        [lia|].
      rewrite Nat.add_comm. apply Hrd. exact Hc.
    + intros j s Hj HI. split.
      * intros H1. rewrite (HI H1). reflexivity.
      * intros H1. destruct (decide (h <= j + radius + 1)) as [H2|H2].
        -- rewrite (HI H2). reflexivity.
        -- replace (Nat.min (h - 1) (j + radius + 1)) with (h - 1) by lia.
           rewrite (Hrd c Hc). apply nadd_NaN_r.
    + intros j j' _ _ E. nia.
    + intros j Hj. rewrite Hlen. apply index_lt; assumption.
    + cbv zeta in Hl, Hw, Hf.
      split; [rewrite Hl; exact Hlen|].
      intros x' y' Hx' Hy' Hr'.
      destruct (decide (x' = c)) as [->|Hne].
      * destruct (Hw y' Hy') as [v [Ev Hv]]. rewrite Ev, (Hv Hr'). reflexivity.
      * rewrite Hf.
        -- apply Hcells; [lia | assumption..].
        -- intros j _ E. apply Hne.
           apply (index_inj w c j x' y') in E as [E _]; [congruence | lia..].
Qed.

Lemma boxBlur_narrow_plane (source : list num) (w h radius : nat) (x y : nat) :
  length source = w * h ->
  1 <= radius -> w <= radius ->
  x < w -> y < h -> h <= y + radius + 1 ->
  boxBlur source w h radius !! (y * w + x) = Some NaN.
Proof.
  intros Hsrc Hr Hw Hx Hy Hreach. unfold boxBlur.
  destruct (Nat.ltb_spec radius 1) as [|_]; [lia|].
  apply vertical_pass_reaches_last_row; try assumption.
  - apply horizontal_pass_length.
  - intros x' Hx'. apply horizontal_pass_last_row; [assumption | assumption | lia | assumption].
Qed.

(** X10: on a plane at most [radius] pixels wide the blur returns NaN in
    every row within [radius] of the bottom, whatever the plane holds: the
    pre-fill of the last row reads past the buffer, and every vertical window
    that reaches the last row inherits the NaN. *)
Theorem blur_of_narrow_plane_has_NaN_rows (source : list num)
  (w h radius : nat) (x y : nat) :
  length source = w * h ->
  1 <= radius -> w <= radius ->
  x < w -> y < h -> h <= y + radius + 1 ->
  boxBlur source w h radius !! (y * w + x) = Some NaN.
Proof. apply boxBlur_narrow_plane. Qed.

Lemma blur_of_narrow_plane_has_NaN_rows_witness :
  boxBlur [Fin 1; Fin 2; Fin 3; Fin 4; Fin 5; Fin 6; Fin 7; Fin 8] 2 4 2
  !! (1 * 2 + 1) = Some NaN.
Proof.
  apply (blur_of_narrow_plane_has_NaN_rows
           [Fin 1; Fin 2; Fin 3; Fin 4; Fin 5; Fin 6; Fin 7; Fin 8] 2 4 2 1 1);
    (reflexivity || lia).
Defined.

(** * Binarization of small images *)

Lemma nlt_NaN_r (a : num) : nlt a NaN = false.
Proof. destruct a; reflexivity. Qed.

Lemma rd_replicate_NaN (n k : nat) : rd (replicate n NaN) k = NaN.
Proof.
  unfold rd. destruct (replicate n NaN !! k) as [v|] eqn:E; [|reflexivity].
  apply lookup_replicate in E as [-> _]. reflexivity.
Qed.

Lemma preProcess_length (settings : StencilSettings) (luma : list num)
  (w h : nat) :
  length luma = w * h -> length (preProcess settings luma w h) = w * h.
Proof.
  intros Hl. unfold preProcess.
  destruct (noiseReduction settings <? 0)%Z.
  - apply (for_inv (fun _ (t : list num) => length t = w * h));
      [apply length_replicate|].
    intros i t _ Ht. rewrite length_insert. exact Ht.
  - destruct (noiseReduction settings >? 0)%Z; [|exact Hl].
    destruct (mode_eqb _ _); [|exact Hl].
    destruct (Nat.lt_ge_cases (Z.to_nat (noiseReduction settings)) 1) as [Hr|Hr].
    + rewrite boxBlur_identity by exact Hr. exact Hl.
    + apply boxBlur_length. exact Hr.
Qed.

(** X11: in SOLID mode an image at most 16 pixels high gives an entirely
    blank stencil map, whatever its pixels, threshold, detail level and
    thickness: every local mean of radius 16 is NaN and no comparison with
    NaN succeeds. *)
Theorem solid_short_image_is_blank (settings : StencilSettings)
  (data : list Z) (w h : nat) :
  mode settings = SOLID -> h <= 16 ->
  binarized settings data w h = replicate (w * h) (Fin 255)
  /\ stencilMap settings data w h = replicate (w * h) (Fin 255).
Proof.
  intros Hmode Hh.
  assert (Hb : binarized settings data w h = replicate (w * h) (Fin 255)).
  { unfold binarized.
    set (pl := preProcess settings (extractLuma data w h) w h).
    destruct (binarize_spec settings pl w h) as [Hlen Hget].
    apply constant_map; [exact Hlen|]. intros i Hi.
    rewrite (Hget i Hi), Hmode. cbn [mode_eqb]. f_equal. unfold solidCell.
    rewrite boxBlur_short_plane by lia.
    rewrite rd_replicate_NaN, nsub_NaN_l, nlt_NaN_r. reflexivity. }
  split; [exact Hb|].
  change (stencilMap settings data w h)
    with (morphology (thickness settings) (binarized settings data w h) w h).
  rewrite Hb. apply morphology_uniform. right. reflexivity.
Qed.

Lemma solid_short_image_is_blank_witness :
  stencilMap
    (mkSettings 250 3 0 SOLID false false 9 1.5 3.5 true None None None None None)
    [0; 0; 0; 255; 255; 255; 255; 255]%Z 2 1 = replicate (2 * 1) (Fin 255).
Proof.
  apply (proj2 (solid_short_image_is_blank
    (mkSettings 250 3 0 SOLID false false 9 1.5 3.5 true None None None None None)
    [0; 0; 0; 255; 255; 255; 255; 255]%Z 2 1 eq_refl ltac:(lia))).
Defined.

(** The wider radius over the range of the detail slider: 2 up to level 1,
    then 4, 7, 8 and 10. *)
Lemma dogRadius2_slider (settings : StencilSettings) :
  (noiseReduction settings <= 5)%Z ->
  dogRadius2 settings
  = nth (Z.to_nat (noiseReduction settings)) [2; 2; 4; 7; 8; 10] 0.
Proof.
  intros H. unfold dogRadius2.
  destruct (Z.le_gt_cases (noiseReduction settings) 0) as [H0|H0].
  - rewrite Z.max_l by exact H0.
    replace (Z.to_nat (noiseReduction settings)) with 0 by lia.
    vm_compute. reflexivity.
  - rewrite Z.max_r by lia.
    assert (Hc : (noiseReduction settings = 1 \/ noiseReduction settings = 2
                  \/ noiseReduction settings = 3 \/ noiseReduction settings = 4
                  \/ noiseReduction settings = 5)%Z) by lia.
    destruct Hc as [-> | [-> | [-> | [-> | ->]]]]; vm_compute; reflexivity.
Qed.

(** X12: in HOLLOW mode an image at most [ceil(r2)] pixels high ([r2] is the
    wider radius of the difference of Gaussians, as the doubles of the code
    give it: at least 2 over the range of the detail slider, and 7 at level
    3) gives an entirely blank stencil map, whatever its pixels and the
    other settings: the wider blur is NaN everywhere. *)
Theorem hollow_short_image_is_blank (settings : StencilSettings)
  (data : list Z) (w h : nat) :
  mode settings = HOLLOW -> h <= dogRadius2 settings ->
  ((noiseReduction settings <= 5)%Z -> 2 <= dogRadius2 settings)
  /\ (noiseReduction settings = 3%Z -> dogRadius2 settings = 7)
  /\ binarized settings data w h = replicate (w * h) (Fin 255)
  /\ stencilMap settings data w h = replicate (w * h) (Fin 255).
Proof.
  intros Hmode Hh.
  assert (Hb : binarized settings data w h = replicate (w * h) (Fin 255)).
  { unfold binarized.
    set (pl := preProcess settings (extractLuma data w h) w h).
    destruct (binarize_spec settings pl w h) as [Hlen Hget].
    apply constant_map; [exact Hlen|]. intros i Hi.
    rewrite (Hget i Hi), Hmode. cbn [mode_eqb]. f_equal. unfold hollowCell.
    assert (H1 : 1 <= dogRadius2 settings \/ dogRadius2 settings = 0) by lia.
    destruct H1 as [H1|H1].
    - rewrite (boxBlur_short_plane pl w h (dogRadius2 settings)) by lia.
      rewrite rd_replicate_NaN, nsub_NaN_r. reflexivity.
    - assert (h = 0) by lia. subst h. lia. }
  split.
  { intros Hs. rewrite (dogRadius2_slider settings Hs).
    assert (Hc : Z.to_nat (noiseReduction settings) < 6) by lia.
    destruct (Z.to_nat (noiseReduction settings)) as [|[|[|[|[|[|n]]]]]];
      simpl; lia. }
  split.
  { intros H3. rewrite (dogRadius2_slider settings) by lia. rewrite H3.
    reflexivity. }
  split; [exact Hb|].
  change (stencilMap settings data w h)
    with (morphology (thickness settings) (binarized settings data w h) w h).
  rewrite Hb. apply morphology_uniform. right. reflexivity.
Qed.

Lemma hollow_short_image_is_blank_witness :
  stencilMap
    (mkSettings 238 1 3 HOLLOW false false 9 1.5 3.5 true None None None None None)
    (concat (replicate 3 [0; 0; 0; 255; 255; 255; 255; 255]%Z)
     ++ [0; 0; 0; 255]%Z) 1 7
  = replicate (1 * 7) (Fin 255).
Proof.
  apply (proj2 (proj2 (proj2 (hollow_short_image_is_blank
    (mkSettings 238 1 3 HOLLOW false false 9 1.5 3.5 true None None None None None)
    (concat (replicate 3 [0; 0; 0; 255; 255; 255; 255; 255]%Z)
     ++ [0; 0; 0; 255]%Z) 1 7
    eq_refl ltac:(vm_compute; lia))))).
Defined.

(** X13: in SOLID mode, on an image at most 16 pixels wide, the binarization
    leaves the 17 bottom rows blank whatever the image holds there. *)
Theorem solid_narrow_image_bottom_is_blank (settings : StencilSettings)
  (data : list Z) (w h : nat) (x y : nat) :
  mode settings = SOLID -> w <= 16 ->
  x < w -> y < h -> h <= y + 17 ->
  binarized settings data w h !! (y * w + x) = Some (Fin 255).
Proof.
  intros Hmode Hw Hx Hy Hreach. unfold binarized.
  set (pl := preProcess settings (extractLuma data w h) w h).
  assert (Hpl : length pl = w * h)
    by (apply preProcess_length, extractLuma_spec).
  destruct (binarize_spec settings pl w h) as [Hlen Hget].
  rewrite Hget by (apply index_lt; assumption).
  rewrite Hmode. cbn [mode_eqb]. f_equal. unfold solidCell.
  assert (E : rd (boxBlur pl w h 16) (y * w + x) = NaN).
  { unfold rd. rewrite (boxBlur_narrow_plane pl w h 16 x y) by (assumption || lia).
    reflexivity. }
  rewrite E, nsub_NaN_l, nlt_NaN_r. reflexivity.
Qed.

Lemma solid_narrow_image_bottom_is_blank_witness :
  binarized
    (mkSettings 250 0 0 SOLID false false 9 1.5 3.5 true None None None None None)
    [255; 255; 255; 255; 0; 0; 0; 255]%Z 1 2 !! (1 * 1 + 0) = Some (Fin 255).
Proof.
  apply (solid_narrow_image_bottom_is_blank
    (mkSettings 250 0 0 SOLID false false 9 1.5 3.5 true None None None None None)
    [255; 255; 255; 255; 0; 0; 0; 255]%Z 1 2 0 1 eq_refl);
    lia.
Defined.

(** * Loops over the pixels of a raster *)

Lemma insert_lookup_agree {A : Type} (l l' : list A) (a k : nat) (v : A) :
  l !! k = l' !! k -> <[a := v]> l !! k = <[a := v]> l' !! k.
Proof.
  intros E. destruct (decide (a = k)) as [->|Hne].
  - destruct (l !! k) as [u|] eqn:El; symmetry in E.
    + rewrite !list_lookup_insert_eq
        by (eapply lookup_lt_Some; eassumption). reflexivity.
    + transitivity (@None A); [|symmetry];
        apply lookup_ge_None; rewrite length_insert;
        apply lookup_ge_None; assumption.
  - rewrite !list_lookup_insert_ne by exact Hne. exact E.
Qed.

Section PixelLoop.
Context {A : Type}.
Variable body : nat -> list A -> list A.
Hypothesis body_frame :
  forall i d k, k / 4 <> i -> body i d !! k = d !! k.
Hypothesis body_local :
  forall i d d' k, (forall j, j / 4 = i -> d !! j = d' !! j) ->
    k / 4 = i -> body i d !! k = body i d' !! k.

(** A loop whose iteration [i] reads and writes the four cells of pixel [i]
    only gives each pixel the value its own iteration computes from the
    initial raster. *)
Lemma pixel_loop (n : nat) (d : list A) (k : nat) :
  for_ n body d !! k = if k / 4 <? n then body (k / 4) d !! k else d !! k.
Proof.
  induction n as [|n IH] in k |- *; [reflexivity|].
  rewrite for_S. destruct (decide (k / 4 = n)) as [E|Hne].
  - destruct (Nat.ltb_spec (k / 4) (S n)) as [_|]; [|lia].
    rewrite E. apply body_local; [|exact E].
    intros j Hj. rewrite IH.
    destruct (Nat.ltb_spec (j / 4) n) as [|_]; [lia | reflexivity].
  - rewrite body_frame by exact Hne. rewrite IH.
    destruct (Nat.ltb_spec (k / 4) n), (Nat.ltb_spec (k / 4) (S n));
      (reflexivity || lia).
Qed.
End PixelLoop.

Lemma pixel_div (p c : nat) : c < 4 -> (p * 4 + c) / 4 = p.
Proof. intros Hc. symmetry. apply (Nat.div_unique _ _ _ c); lia. Qed.

Lemma stencilRaster_lookup (finalMap : list num) (w h : nat) (d : list Z)
  (p c : nat) :
  c < 4 -> p < w * h -> p * 4 + c < length d ->
  stencilRaster finalMap w h d !! (p * 4 + c) =
  Some (if c =? 3 then 255%Z else toUint8Clamp (rd finalMap p)).
Proof.
  intros Hc Hp Hin. unfold stencilRaster.
  rewrite (pixel_loop (fun i dstData =>
    let val := rd finalMap i in
    let dstData := <[i * 4 := toUint8Clamp val]> dstData in
    let dstData := <[i * 4 + 1 := toUint8Clamp val]> dstData in
    let dstData := <[i * 4 + 2 := toUint8Clamp val]> dstData in
    <[i * 4 + 3 := 255%Z]> dstData)).
  - rewrite pixel_div by exact Hc.
    destruct (Nat.ltb_spec p (w * h)) as [_|]; [|lia]. cbv zeta.
    destruct c as [|[|[|[|c]]]]; [| | | |lia]; cbn [Nat.eqb].
    + rewrite !list_lookup_insert_ne by lia.
      rewrite Nat.add_0_r in *. apply list_lookup_insert_eq. exact Hin.
    + rewrite !list_lookup_insert_ne by lia.
      apply list_lookup_insert_eq. rewrite !length_insert. exact Hin.
    + rewrite !list_lookup_insert_ne by lia.
      apply list_lookup_insert_eq. rewrite !length_insert. exact Hin.
    + apply list_lookup_insert_eq. rewrite !length_insert. exact Hin.
  - intros i d0 j Hj. cbv zeta.
    pose proof (Nat.div_mod_eq j 4).
    pose proof (Nat.mod_upper_bound j 4 ltac:(lia)).
    rewrite !list_lookup_insert_ne by lia. reflexivity.
  - intros i d0 d' j Hag Hj. cbv zeta.
    repeat apply insert_lookup_agree. apply Hag. exact Hj.
Qed.

Lemma stencilMap_length (settings : StencilSettings) (data : list Z) (w h : nat) :
  length (stencilMap settings data w h) = w * h.
Proof.
  unfold stencilMap.
  set (pl := preProcess settings (extractLuma data w h) w h).
  destruct (binarize_spec settings pl w h) as [Hlen _].
  rewrite morphology_iter by exact Hlen.
  rewrite iter_passFn_length by exact Hlen. reflexivity.
Qed.

Lemma stencilMap_twoValued (settings : StencilSettings) (data : list Z)
  (w h : nat) : Forall twoValued (stencilMap settings data w h).
Proof.
  unfold stencilMap. apply morphology_twoValued, binarize_twoValued.
Qed.

(** * The stencil image *)

(** X14: outside the realism mode, every pixel of the raster put on the
    canvas is fully opaque and either pure black, exactly where the final
    map has ink, or pure white; the colours and the transparency of the
    source raster do not show through. *)
Theorem stencil_image_is_opaque_black_and_white (settings : StencilSettings)
  (data : list Z) (w h : nat) (p : nat) :
  mode settings <> REALISM -> length data = w * h * 4 -> p < w * h ->
  let out := canvasRaster settings data w h in
  out !! (p * 4 + 3) = Some 255%Z /\
  ((ink (stencilMap settings data w h) p /\ hasColour out p 0 0 0) \/
   (~ ink (stencilMap settings data w h) p /\ hasColour out p 255 255 255)).
Proof.
  intros Hmode Hlen Hp out. subst out. unfold canvasRaster.
  destruct (mode settings) eqn:Em; [| |congruence]; cbn [mode_eqb].
  all: set (m := stencilMap settings data w h).
  all: assert (Hm : exists v, m !! p = Some v /\ twoValued v)
    by (destruct (lookup_lt_is_Some_2 m p) as [v Hv];
        [subst m; rewrite stencilMap_length; exact Hp|];
        exists v; split; [exact Hv|];
        exact (proj1 (Forall_lookup _ _) (stencilMap_twoValued _ _ _ _) _ _ Hv)).
  all: destruct Hm as (v & Hv & Htv).
  all: assert (Hrd : rd m p = v) by (unfold rd; rewrite Hv; reflexivity).
  all: assert (Hget : forall c, c < 4 ->
         stencilRaster m w h data !! (p * 4 + c) =
         Some (if c =? 3 then 255%Z else toUint8Clamp v)).
  1, 3: intros c Hc; rewrite stencilRaster_lookup by (assumption || lia);
    rewrite Hrd; reflexivity.
  all: split; [exact (Hget 3 ltac:(lia))|].
  all: unfold hasColour, ink; rewrite Hv.
  all: pose proof (Hget 0 ltac:(lia)) as H0; rewrite Nat.add_0_r in H0.
  all: rewrite H0, (Hget 1), (Hget 2) by lia; cbn [Nat.eqb].
  all: destruct Htv as [-> | ->]; [left | right];
    (split; [try reflexivity; intros [=] | repeat split; reflexivity]).
Qed.

Lemma stencil_image_is_opaque_black_and_white_witness :
  canvasRaster
    (mkSettings 223 0 0 SOLID false false 9 1.5 3.5 true None None None None None)
    [10; 200; 30; 0; 90; 80; 70; 128]%Z 2 1 !! (1 * 4 + 3) = Some 255%Z.
Proof.
  apply (stencil_image_is_opaque_black_and_white
    (mkSettings 223 0 0 SOLID false false 9 1.5 3.5 true None None None None None)
    [10; 200; 30; 0; 90; 80; 70; 128]%Z 2 1 1);
    [discriminate | reflexivity | lia].
Defined.

(** * Realism: what the tone loops and the convolution leave alone *)

Lemma pixel_cell_ne (i k : nat) :
  k / 4 <> i -> k <> i * 4 /\ k <> i * 4 + 1 /\ k <> i * 4 + 2 /\ k <> i * 4 + 3.
Proof.
  intros Hk. pose proof (Nat.div_mod_eq k 4).
  pose proof (Nat.mod_upper_bound k 4 ltac:(lia)). lia.
Qed.

Lemma rdb_agree (d d' : list Z) (j : nat) :
  d !! j = d' !! j -> rdb d j = rdb d' j.
Proof. intros E. unfold rdb. rewrite E. reflexivity. Qed.

Lemma vibrancePixel_frame (strength : Q) (i : nat) (d : list Z) (k : nat) :
  k <> i * 4 -> k <> i * 4 + 1 -> k <> i * 4 + 2 ->
  vibrancePixel strength i d !! k = d !! k.
Proof.
  intros H0 H1 H2. unfold vibrancePixel. cbv zeta.
  destruct (Qlt_bool 0 strength);
    rewrite !list_lookup_insert_ne by lia; reflexivity.
Qed.

Lemma vibrancePixel_length (strength : Q) (i : nat) (d : list Z) :
  length (vibrancePixel strength i d) = length d.
Proof.
  unfold vibrancePixel. cbv zeta.
  destruct (Qlt_bool 0 strength); rewrite !length_insert; reflexivity.
Qed.

Lemma vibrancePixel_local (strength : Q) (i : nat) (d d' : list Z) (k : nat) :
  (forall j, j / 4 = i -> d !! j = d' !! j) -> k / 4 = i ->
  vibrancePixel strength i d !! k = vibrancePixel strength i d' !! k.
Proof.
  intros Hag Hk. unfold vibrancePixel.
  rewrite (rdb_agree d d' (i * 4))
    by (apply Hag; rewrite <- (Nat.add_0_r (i * 4)); apply pixel_div; lia).
  rewrite (rdb_agree d d' (i * 4 + 1)) by (apply Hag, pixel_div; lia).
  rewrite (rdb_agree d d' (i * 4 + 2)) by (apply Hag, pixel_div; lia).
  cbv zeta. destruct (Qlt_bool 0 strength);
    repeat apply insert_lookup_agree; apply Hag; exact Hk.
Qed.

Lemma vibrance_loop_lookup (strength : Q) (n : nat) (d : list Z) (k : nat) :
  for_ n (vibrancePixel strength) d !! k =
  if k / 4 <? n then vibrancePixel strength (k / 4) d !! k else d !! k.
Proof.
  apply pixel_loop.
  - intros i d0 j Hj. destruct (pixel_cell_ne i j Hj) as (? & ? & ? & _).
    apply vibrancePixel_frame; assumption.
  - apply vibrancePixel_local.
Qed.

Lemma brilliancePixel_frame (strength : Q) (i : nat) (d : list Z) (k : nat) :
  k <> i * 4 -> k <> i * 4 + 1 -> k <> i * 4 + 2 ->
  BrillianceCopy.brilliancePixel strength i d !! k = d !! k.
Proof.
  intros H0 H1 H2. unfold BrillianceCopy.brilliancePixel. cbv zeta.
  destruct (ngt _ _); [|reflexivity].
  rewrite !list_lookup_insert_ne by lia. reflexivity.
Qed.

Lemma brilliancePixel_length (strength : Q) (i : nat) (d : list Z) :
  length (BrillianceCopy.brilliancePixel strength i d) = length d.
Proof.
  unfold BrillianceCopy.brilliancePixel. cbv zeta.
  destruct (ngt _ _); [|reflexivity]. rewrite !length_insert. reflexivity.
Qed.

Lemma brilliancePixel_local (strength : Q) (i : nat) (d d' : list Z) (k : nat) :
  (forall j, j / 4 = i -> d !! j = d' !! j) -> k / 4 = i ->
  BrillianceCopy.brilliancePixel strength i d !! k
  = BrillianceCopy.brilliancePixel strength i d' !! k.
Proof.
  intros Hag Hk. unfold BrillianceCopy.brilliancePixel.
  rewrite (rdb_agree d d' (i * 4))
    by (apply Hag; rewrite <- (Nat.add_0_r (i * 4)); apply pixel_div; lia).
  rewrite (rdb_agree d d' (i * 4 + 1)) by (apply Hag, pixel_div; lia).
  rewrite (rdb_agree d d' (i * 4 + 2)) by (apply Hag, pixel_div; lia).
  cbv zeta. destruct (ngt _ _); [|apply Hag; exact Hk].
  repeat apply insert_lookup_agree; apply Hag; exact Hk.
Qed.

Lemma brilliance_loop_lookup (strength : Q) (n : nat) (d : list Z) (k : nat) :
  for_ n (BrillianceCopy.brilliancePixel strength) d !! k =
  if k / 4 <? n then BrillianceCopy.brilliancePixel strength (k / 4) d !! k
  else d !! k.
Proof.
  apply pixel_loop.
  - intros i d0 j Hj. destruct (pixel_cell_ne i j Hj) as (? & ? & ? & _).
    apply brilliancePixel_frame; assumption.
  - apply brilliancePixel_local.
Qed.

Lemma alpha_cell_ne (k i : nat) :
  k mod 4 = 3 -> k <> i * 4 /\ k <> i * 4 + 1 /\ k <> i * 4 + 2.
Proof.
  intros Hk.
  assert (E0 : (i * 4) mod 4 = 0) by (apply Nat.Div0.mod_mul).
  assert (E1 : (i * 4 + 1) mod 4 = 1)
    by (symmetry; apply (Nat.mod_unique _ _ i); lia).
  assert (E2 : (i * 4 + 2) mod 4 = 2)
    by (symmetry; apply (Nat.mod_unique _ _ i); lia).
  repeat split; intros ->; congruence.
Qed.

Lemma convolve_frame (data : list Z) (w h : nat) (matrix : list num) (k : nat) :
  k mod 4 = 3 -> convolve data w h matrix !! k = data !! k.
Proof.
  intros Hk. unfold convolve. cbv zeta.
  apply (for_inv (fun _ (st : list Z) => st !! k = data !! k));
    [reflexivity|].
  intros y st _ Hst.
  apply (for_inv (fun _ (st' : list Z) => st' !! k = data !! k));
    [exact Hst|].
  intros x st' _ Hst'.
  destruct (tapSums _ _ _ _ _ _ _ _) as [[r g] b].
  destruct (alpha_cell_ne k (y * w + x) Hk) as (? & ? & ?).
  rewrite !list_lookup_insert_ne by lia. exact Hst'.
Qed.

Lemma convolve_length (data : list Z) (w h : nat) (matrix : list num) :
  length (convolve data w h matrix) = length data.
Proof.
  unfold convolve. cbv zeta.
  apply (for_inv (fun _ (st : list Z) => length st = length data));
    [reflexivity|].
  intros y st _ Hst.
  apply (for_inv (fun _ (st' : list Z) => length st' = length data));
    [exact Hst|].
  intros x st' _ Hst'.
  destruct (tapSums _ _ _ _ _ _ _ _) as [[r g] b].
  rewrite !length_insert. exact Hst'.
Qed.

Lemma sharpenStep_frame (settings : StencilSettings) (data : list Z)
  (w h k : nat) :
  k mod 4 = 3 -> sharpenStep settings data w h !! k = data !! k.
Proof.
  intros Hk. unfold sharpenStep.
  destruct (sharpness settings) as [s|]; [|reflexivity].
  destruct (Qlt_bool 0 s); [|reflexivity]. apply convolve_frame. exact Hk.
Qed.

Lemma sharpenStep_length (settings : StencilSettings) (data : list Z)
  (w h : nat) : length (sharpenStep settings data w h) = length data.
Proof.
  unfold sharpenStep.
  destruct (sharpness settings) as [s|]; [|reflexivity].
  destruct (Qlt_bool 0 s); [|reflexivity]. apply convolve_length.
Qed.

Lemma for_length {A : Type} (n : nat) (body : nat -> list A -> list A)
  (d : list A) :
  (forall i st, length (body i st) = length st) ->
  length (for_ n body d) = length d.
Proof.
  intros Hb.
  apply (for_inv (fun _ (st : list A) => length st = length d));
    [reflexivity|].
  intros i st _ Hst. rewrite Hb. exact Hst.
Qed.

(** X15: the realism block never touches transparency or size: for every
    settings record and raster, in the processor and in the copy appended to
    the application file, every alpha cell (index 3 modulo 4) of the output
    is the one of the input and the raster keeps its length. *)
Theorem realism_keeps_alpha_and_size (settings : StencilSettings)
  (data : list Z) (w h : nat) (k : nat) :
  k mod 4 = 3 ->
  (realism settings data w h !! k = data !! k
   /\ length (realism settings data w h) = length data)
  /\ (BrillianceCopy.realism settings data w h !! k = data !! k
      /\ length (BrillianceCopy.realism settings data w h) = length data).
Proof.
  intros Hk.
  destruct (alpha_cell_ne k (k / 4) Hk) as (H0 & H1 & H2).
  unfold realism, BrillianceCopy.realism. cbv zeta.
  repeat split.
  - rewrite sharpenStep_frame by exact Hk.
    destruct (negb _); [|reflexivity].
    rewrite vibrance_loop_lookup. destruct (_ <? _); [|reflexivity].
    apply vibrancePixel_frame; assumption.
  - rewrite sharpenStep_length.
    destruct (negb _); [|reflexivity].
    apply for_length. intros. apply vibrancePixel_length.
  - rewrite sharpenStep_frame by exact Hk.
    destruct (negb _); [|reflexivity].
    rewrite brilliance_loop_lookup. destruct (_ <? _); [|reflexivity].
    apply brilliancePixel_frame; assumption.
  - rewrite sharpenStep_length.
    destruct (negb _); [|reflexivity].
    apply for_length. intros. apply brilliancePixel_length.
Qed.

Lemma realism_keeps_alpha_and_size_witness :
  realism
    (mkSettings 223 0 0 REALISM false false 9 1.5 3.5 true
       (Some 150%Q) None None (Some 2%Q) None)
    [10; 200; 30; 77; 90; 80; 70; 128]%Z 2 1 !! 3 = Some 77%Z.
Proof.
  apply (proj1 (proj1 (realism_keeps_alpha_and_size
    (mkSettings 223 0 0 REALISM false false 9 1.5 3.5 true
       (Some 150%Q) None None (Some 2%Q) None)
    [10; 200; 30; 77; 90; 80; 70; 128]%Z 2 1 3 eq_refl))).
Defined.

(** * Stores into a byte raster *)

Lemma toUint8Clamp_proper (q q' : Q) :
  q == q' -> toUint8Clamp (Fin q) = toUint8Clamp (Fin q').
Proof.
  intros H. unfold toUint8Clamp, Qlt_bool. cbv zeta.
  rewrite (Qfloor_comp _ _ H).
  rewrite (Qleb_comp _ _ H 0%Q 0%Q (Qeq_refl 0%Q)).
  rewrite (Qleb_comp 255%Q 255%Q (Qeq_refl _) _ _ H).
  set (mid := (inject_Z (Qfloor q') + (1 # 2))%Q).
  rewrite (Qleb_comp _ _ H mid mid (Qeq_refl _)).
  rewrite (Qleb_comp mid mid (Qeq_refl _) _ _ H). reflexivity.
Qed.

(** The explicit clamp before a store changes nothing: the store clamps. *)
Lemma store_clamp (v : num) :
  toUint8Clamp (clamp v (Fin 0) (Fin 255)) = toUint8Clamp v.
Proof.
  destruct v as [q| | |]; try reflexivity.
  unfold clamp.
  change (nmax (Fin 0) (Fin q)) with (if Qle_bool 0 q then Fin q else Fin 0).
  destruct (Qle_bool 0 q) eqn:E0.
  - change (nmin (Fin 255) (Fin q))
      with (if Qle_bool 255 q then Fin 255 else Fin q).
    destruct (Qle_bool 255 q) eqn:E255; [|reflexivity].
    apply Qle_bool_iff in E255. unfold toUint8Clamp at 2.
    destruct (Qle_bool q 0) eqn:Eq0; [apply Qle_bool_iff in Eq0; lra|].
    rewrite (proj2 (Qle_bool_iff 255%Q q) E255). reflexivity.
  - change (nmin (Fin 255) (Fin 0)) with (Fin 0).
    unfold toUint8Clamp at 2.
    destruct (Qle_bool q 0) eqn:Eq0; [reflexivity|].
    exfalso.
    assert (~ (0 <= q)%Q) by (rewrite <- Qle_bool_iff; congruence).
    assert (~ (q <= 0)%Q) by (rewrite <- Qle_bool_iff; congruence).
    lra.
Qed.

Lemma toUint8Clamp_range (v : num) : (0 <= toUint8Clamp v <= 255)%Z.
Proof.
  destruct v as [q| | |]; cbn [toUint8Clamp]; try lia.
  destruct (Qle_bool q 0) eqn:E0; [lia|].
  destruct (Qle_bool 255 q) eqn:E255; [lia|].
  assert (H0 : (0 < q)%Q).
  { apply Qnot_le_lt. rewrite <- Qle_bool_iff. congruence. }
  assert (H255 : (q < 255)%Q).
  { apply Qnot_le_lt. rewrite <- Qle_bool_iff. congruence. }
  assert (Hf0 : (0 <= Qfloor q)%Z).
  { change 0%Z with (Qfloor 0%Q). apply Qfloor_resp_le. lra. }
  assert (Hf1 : (Qfloor q < 255)%Z).
  { rewrite Zlt_Qlt. change (inject_Z 255) with 255%Q.
    pose proof (Qfloor_le q). lra. }
  cbv zeta.
  destruct (Qlt_bool _ _); [lia|]. destruct (Qlt_bool _ _); [lia|].
  destruct (Z.even _); lia.
Qed.

(** A value at most the integer [v] is stored as a byte at most [v]. *)
Lemma toUint8Clamp_le (q : Q) (v : Z) :
  (q <= inject_Z v)%Q -> (0 <= v)%Z -> (toUint8Clamp (Fin q) <= v)%Z.
Proof.
  intros Hq Hv. cbn [toUint8Clamp].
  destruct (Qle_bool q 0) eqn:E0; [lia|].
  destruct (Qle_bool 255 q) eqn:E255.
  { apply Qle_bool_iff in E255.
    rewrite Zle_Qle. change (inject_Z 255) with 255%Q. lra. }
  cbv zeta.
  assert (Hf : (Qfloor q <= v)%Z).
  { rewrite <- (Qfloor_Z v). apply Qfloor_resp_le. exact Hq. }
  assert (Hup : (inject_Z (Qfloor q) + (1 # 2) <= q)%Q -> (Qfloor q + 1 <= v)%Z).
  { intros Hmid.
    assert (Hlt : (inject_Z (Qfloor q) < inject_Z v)%Q) by lra.
    rewrite <- Zlt_Qlt in Hlt. lia. }
  destruct (Qlt_bool (inject_Z (Qfloor q) + (1 # 2)) q) eqn:E1.
  { apply Qlt_bool_iff in E1. apply Hup. lra. }
  destruct (Qlt_bool q (inject_Z (Qfloor q) + (1 # 2))) eqn:E2; [exact Hf|].
  apply Qlt_bool_false_iff in E2.
  destruct (Z.even _); [exact Hf | apply Hup; exact E2].
Qed.

Lemma bytes_insert (d : list Z) (k : nat) (v : num) :
  bytes d -> bytes (<[k := toUint8Clamp v]> d).
Proof. intros Hd. apply Forall_insert; [exact Hd | apply toUint8Clamp_range]. Qed.

Lemma vibrancePixel_bytes (strength : Q) (i : nat) (d : list Z) :
  bytes d -> bytes (vibrancePixel strength i d).
Proof.
  intros Hd. unfold vibrancePixel. cbv zeta.
  destruct (Qlt_bool 0 strength); repeat apply bytes_insert; exact Hd.
Qed.

Lemma convolve_bytes (data : list Z) (w h : nat) (matrix : list num) :
  bytes data -> bytes (convolve data w h matrix).
Proof.
  intros Hd. unfold convolve. cbv zeta.
  apply (for_inv (fun _ (st : list Z) => bytes st)); [exact Hd|].
  intros y st _ Hst.
  apply (for_inv (fun _ (st' : list Z) => bytes st')); [exact Hst|].
  intros x st' _ Hst'.
  destruct (tapSums _ _ _ _ _ _ _ _) as [[r g] b].
  repeat apply bytes_insert. exact Hst'.
Qed.

Lemma realism_bytes (settings : StencilSettings) (data : list Z) (w h : nat) :
  bytes data -> bytes (realism settings data w h).
Proof.
  intros Hd. unfold realism, sharpenStep. cbv zeta.
  assert (Hv : bytes (if negb (Qeq_bool (default 100%Q (saturation settings)) 100)
                      then for_ (w * h)
                             (vibrancePixel
                                ((default 100%Q (saturation settings) - 100) / 100))
                             data
                      else data)).
  { destruct (negb _); [|exact Hd].
    apply (for_inv (fun _ (st : list Z) => bytes st)); [exact Hd|].
    intros i st _ Hst. apply vibrancePixel_bytes. exact Hst. }
  destruct (sharpness settings) as [s|]; [|exact Hv].
  destruct (Qlt_bool 0 s); [|exact Hv].
  apply convolve_bytes. exact Hv.
Qed.

Lemma stencilRaster_bytes (finalMap : list num) (w h : nat) (d : list Z) :
  bytes d -> bytes (stencilRaster finalMap w h d).
Proof.
  intros Hd. unfold stencilRaster.
  apply (for_inv (fun _ (st : list Z) => bytes st)); [exact Hd|].
  intros i st _ Hst. cbv zeta.
  apply Forall_insert; [|lia]. repeat apply bytes_insert. exact Hst.
Qed.

(** X16: in every mode and for every settings record, the raster put on the
    canvas has the length of the raster read from it, and holds bytes only
    when the input does: no store leaves the range 0..255. *)
Theorem canvas_raster_stays_a_byte_raster (settings : StencilSettings)
  (data : list Z) (w h : nat) :
  bytes data ->
  bytes (canvasRaster settings data w h)
  /\ length (canvasRaster settings data w h) = length data.
Proof.
  intros Hd. unfold canvasRaster.
  destruct (mode_eqb (mode settings) REALISM).
  - split; [apply realism_bytes; exact Hd|].
    unfold realism. cbv zeta. rewrite sharpenStep_length.
    destruct (negb _); [|reflexivity].
    apply for_length. intros. apply vibrancePixel_length.
  - split; [apply stencilRaster_bytes; exact Hd|].
    unfold stencilRaster. apply for_length. intros i st. cbv zeta.
    rewrite !length_insert. reflexivity.
Qed.

Lemma canvas_raster_stays_a_byte_raster_witness :
  bytes (canvasRaster
    (mkSettings 223 0 0 REALISM false false 9 1.5 3.5 true
       (Some 400%Q) None None (Some 10%Q) None)
    [10; 200; 30; 77; 90; 80; 70; 128]%Z 2 1).
Proof.
  apply (canvas_raster_stays_a_byte_raster
    (mkSettings 223 0 0 REALISM false false 9 1.5 3.5 true
       (Some 400%Q) None None (Some 10%Q) None)
    [10; 200; 30; 77; 90; 80; 70; 128]%Z 2 1).
  unfold bytes. repeat constructor; lia.
Defined.

(** * Realism: saturation *)

(** The pixel written by the vibrance step when the strength is negative. *)
Lemma vibrancePixel_desaturate (strength : Q) (i : nat) (d : list Z)
  (R G B : Z) :
  (strength < 0)%Q -> hasColour d i R G B ->
  exists r g b,
    vibrancePixel strength i d
    = <[i * 4 + 2 := toUint8Clamp (Fin b)]>
        (<[i * 4 + 1 := toUint8Clamp (Fin g)]>
           (<[i * 4 := toUint8Clamp (Fin r)]> d))
    /\ r == lumaOf R G B + (inject_Z R - lumaOf R G B) * (1 + strength)
    /\ g == lumaOf R G B + (inject_Z G - lumaOf R G B) * (1 + strength)
    /\ b == lumaOf R G B + (inject_Z B - lumaOf R G B) * (1 + strength).
Proof.
  intros Hs (HR & HG & HB). unfold vibrancePixel.
  assert (ER : rdb d (i * 4) = ofZ R) by (unfold rdb; rewrite HR; reflexivity).
  assert (EG : rdb d (i * 4 + 1) = ofZ G)
    by (unfold rdb; rewrite HG; reflexivity).
  assert (EB : rdb d (i * 4 + 2) = ofZ B)
    by (unfold rdb; rewrite HB; reflexivity).
  rewrite ER, EG, EB.
  assert (E1 : Qle_bool 0 strength = false).
  { destruct (Qle_bool 0 strength) eqn:E; [|reflexivity].
    apply Qle_bool_iff in E. lra. }
  assert (E2 : Qlt_bool 0 strength = false)
    by (apply Qlt_bool_false_iff; lra).
  rewrite E1, E2. cbv zeta. unfold ofZ.
  cbn [nadd nsub nmul]. rewrite !store_clamp.
  eexists _, _, _. split; [reflexivity|].
  unfold lumaOf. rewrite !Qred_correct. repeat split; reflexivity.
Qed.

Lemma sharpenStep_off (settings : StencilSettings) (data : list Z) (w h : nat) :
  (forall s, sharpness settings = Some s -> (s <= 0)%Q) ->
  sharpenStep settings data w h = data.
Proof.
  intros Hs. unfold sharpenStep.
  destruct (sharpness settings) as [s|]; [|reflexivity].
  rewrite (proj2 (Qlt_bool_false_iff 0 s)); [reflexivity|].
  apply Hs. reflexivity.
Qed.

Lemma desaturated_pixel (strength : Q) (n : nat) (d : list Z) (p : nat)
  (R G B : Z) :
  (strength < 0)%Q -> p < n -> hasColour d p R G B ->
  exists r g b,
    hasColour (for_ n (vibrancePixel strength) d) p
      (toUint8Clamp (Fin r)) (toUint8Clamp (Fin g)) (toUint8Clamp (Fin b))
    /\ r == lumaOf R G B + (inject_Z R - lumaOf R G B) * (1 + strength)
    /\ g == lumaOf R G B + (inject_Z G - lumaOf R G B) * (1 + strength)
    /\ b == lumaOf R G B + (inject_Z B - lumaOf R G B) * (1 + strength).
Proof.
  intros Hs Hp Hc.
  destruct (vibrancePixel_desaturate strength p d R G B Hs Hc)
    as (r & g & b & Ev & Hr & Hg & Hb).
  exists r, g, b. split; [|repeat split; assumption].
  destruct Hc as (HR & HG & HB).
  apply lookup_lt_Some in HR, HG, HB.
  assert (Hget : forall c, c < 3 ->
    for_ n (vibrancePixel strength) d !! (p * 4 + c)
    = vibrancePixel strength p d !! (p * 4 + c)).
  { intros c Hc. rewrite vibrance_loop_lookup, pixel_div by lia.
    destruct (Nat.ltb_spec p n); [reflexivity | lia]. }
  unfold hasColour.
  rewrite <- (Nat.add_0_r (p * 4)) at 1.
  rewrite !Hget by lia. rewrite Nat.add_0_r, Ev.
  repeat split.
  - rewrite !list_lookup_insert_ne by lia.
    apply list_lookup_insert_eq. exact HR.
  - rewrite list_lookup_insert_ne by lia.
    apply list_lookup_insert_eq. rewrite length_insert. exact HG.
  - apply list_lookup_insert_eq. rewrite !length_insert. exact HB.
Qed.

(** A value within 0..255 is stored as one of the integers nearest to
    it. *)
Lemma toUint8Clamp_nearest (q : Q) :
  (0 <= q)%Q -> (q <= 255)%Q ->
  (inject_Z (toUint8Clamp (Fin q)) - (1 # 2) <= q
   /\ q <= inject_Z (toUint8Clamp (Fin q)) + (1 # 2))%Q.
Proof.
  intros H0 H255. cbn [toUint8Clamp].
  destruct (Qle_bool q 0) eqn:E0.
  { apply Qle_bool_iff in E0. change (inject_Z 0) with 0%Q. lra. }
  destruct (Qle_bool 255 q) eqn:E255.
  { apply Qle_bool_iff in E255. change (inject_Z 255) with 255%Q. lra. }
  cbv zeta.
  pose proof (Qfloor_le q) as Hf1. pose proof (Qlt_floor q) as Hf2.
  rewrite inject_Z_plus in Hf2. change (inject_Z 1) with 1%Q in Hf2.
  destruct (Qlt_bool (inject_Z (Qfloor q) + (1 # 2)) q) eqn:E1.
  { apply Qlt_bool_iff in E1. rewrite inject_Z_plus.
    change (inject_Z 1) with 1%Q. lra. }
  apply Qlt_bool_false_iff in E1.
  destruct (Qlt_bool q (inject_Z (Qfloor q) + (1 # 2))) eqn:E2.
  { apply Qlt_bool_iff in E2. lra. }
  apply Qlt_bool_false_iff in E2.
  destruct (Z.even (Qfloor q)); [lra|].
  rewrite inject_Z_plus. change (inject_Z 1) with 1%Q. lra.
Qed.

(** X17: with the saturation slider at 0 and no sharpening, the realism
    block turns every pixel gray: its three channels become one byte, an
    integer nearest to the Rec. 601 luma of its old colour (within one
    half of it; which of the two neighbours a luma halfway between them
    gets is not stated). *)
Theorem zero_saturation_gives_gray (settings : StencilSettings)
  (data : list Z) (w h : nat) (p : nat) (R G B : Z) :
  saturation settings = Some 0%Q ->
  (forall s, sharpness settings = Some s -> (s <= 0)%Q) ->
  p < w * h ->
  (0 <= R <= 255)%Z -> (0 <= G <= 255)%Z -> (0 <= B <= 255)%Z ->
  hasColour data p R G B ->
  exists v,
    hasColour (realism settings data w h) p v v v
    /\ (0 <= v <= 255)%Z
    /\ (inject_Z v - (1 # 2) <= lumaOf R G B
        /\ lumaOf R G B <= inject_Z v + (1 # 2))%Q.
Proof.
  intros Hsat Hsh Hp HR HG HB Hc. unfold realism. cbv zeta.
  rewrite sharpenStep_off by exact Hsh.
  rewrite Hsat. cbn [default from_option id].
  change (negb (Qeq_bool 0 100)) with true. cbv iota.
  destruct (desaturated_pixel ((0 - 100) / 100) (w * h) data p R G B)
    as (r & g & b & Hout & Hr & Hg & Hb);
    [reflexivity | exact Hp | exact Hc |].
  assert (E : (1 + (0 - 100) / 100 == 0)%Q) by reflexivity.
  rewrite E in Hr, Hg, Hb.
  rewrite (toUint8Clamp_proper r (lumaOf R G B)) in Hout by (rewrite Hr; ring).
  rewrite (toUint8Clamp_proper g (lumaOf R G B)) in Hout by (rewrite Hg; ring).
  rewrite (toUint8Clamp_proper b (lumaOf R G B)) in Hout by (rewrite Hb; ring).
  exists (toUint8Clamp (Fin (lumaOf R G B))).
  split; [exact Hout|]. split; [apply toUint8Clamp_range|].
  assert (HRq : (0 <= inject_Z R /\ inject_Z R <= 255)%Q).
  { change 0%Q with (inject_Z 0). change 255%Q with (inject_Z 255).
    rewrite <- !Zle_Qle. exact HR. }
  assert (HGq : (0 <= inject_Z G /\ inject_Z G <= 255)%Q).
  { change 0%Q with (inject_Z 0). change 255%Q with (inject_Z 255).
    rewrite <- !Zle_Qle. exact HG. }
  assert (HBq : (0 <= inject_Z B /\ inject_Z B <= 255)%Q).
  { change 0%Q with (inject_Z 0). change 255%Q with (inject_Z 255).
    rewrite <- !Zle_Qle. exact HB. }
  apply toUint8Clamp_nearest; unfold lumaOf; lra.
Qed.

Lemma zero_saturation_gives_gray_witness :
  exists v,
    hasColour
      (realism
         (mkSettings 223 0 0 REALISM false false 9 1.5 3.5 true
            (Some 0%Q) None None None None)
         [0; 80; 110; 77; 90; 80; 70; 128]%Z 2 1) 0 v v v
    /\ (0 <= v <= 255)%Z
    /\ (inject_Z v - (1 # 2) <= lumaOf 0 80 110
        /\ lumaOf 0 80 110 <= inject_Z v + (1 # 2))%Q.
Proof.
  apply (zero_saturation_gives_gray
    (mkSettings 223 0 0 REALISM false false 9 1.5 3.5 true
       (Some 0%Q) None None None None)
    [0; 80; 110; 77; 90; 80; 70; 128]%Z 2 1 0 0 80 110 eq_refl).
  - intros s Hs. discriminate Hs.
  - lia.
  - lia.
  - lia.
  - lia.
  - repeat split; reflexivity.
Defined.

(** X18: with the saturation slider below 100 and no sharpening, the realism
    block leaves every gray pixel as it is. *)
Theorem desaturation_keeps_gray_pixels (settings : StencilSettings)
  (data : list Z) (w h : nat) (p : nat) (q : Q) (v : Z) :
  saturation settings = Some q -> (q < 100)%Q ->
  (forall s, sharpness settings = Some s -> (s <= 0)%Q) ->
  p < w * h -> (0 <= v <= 255)%Z -> hasColour data p v v v ->
  hasColour (realism settings data w h) p v v v.
Proof.
  intros Hsat Hq Hsh Hp Hv Hc. unfold realism. cbv zeta.
  rewrite sharpenStep_off by exact Hsh.
  rewrite Hsat. cbn [default from_option id].
  assert (Hne : negb (Qeq_bool q 100) = true).
  { apply negb_true_iff. destruct (Qeq_bool q 100) eqn:E; [|reflexivity].
    apply Qeq_bool_iff in E. lra. }
  rewrite Hne.
  assert (Hs : ((q - 100) / 100 < 0)%Q).
  { unfold Qdiv. change (/ 100)%Q with (1 # 100)%Q. lra. }
  destruct (desaturated_pixel ((q - 100) / 100) (w * h) data p v v v Hs Hp Hc)
    as (r & g & b & Hout & Hr & Hg & Hb).
  assert (Hl : lumaOf v v v == inject_Z v) by (unfold lumaOf; ring).
  assert (Hbyte : forall x,
    x == lumaOf v v v + (inject_Z v - lumaOf v v v) * (1 + (q - 100) / 100) ->
    toUint8Clamp (Fin x) = v).
  { intros x Hx. rewrite <- store_clamp.
    apply toUint8Clamp_byte; [|exact Hv]. rewrite Hx, Hl. ring. }
  rewrite (Hbyte r Hr), (Hbyte g Hg), (Hbyte b Hb) in Hout. exact Hout.
Qed.

Lemma desaturation_keeps_gray_pixels_witness :
  hasColour
    (realism
       (mkSettings 223 0 0 REALISM false false 9 1.5 3.5 true
          (Some 40%Q) None None None None)
       [10; 200; 30; 77; 90; 90; 90; 128]%Z 2 1) 1 90 90 90.
Proof.
  apply (desaturation_keeps_gray_pixels
    (mkSettings 223 0 0 REALISM false false 9 1.5 3.5 true
       (Some 40%Q) None None None None)
    [10; 200; 30; 77; 90; 90; 90; 128]%Z 2 1 1 40 90 eq_refl).
  - reflexivity.
  - intros s Hs. discriminate Hs.
  - lia.
  - lia.
  - repeat split; reflexivity.
Defined.

(** * The brilliance curve of the second copy *)

Lemma qsign_pos (q : Q) : (0 < q)%Q -> qsign q = Gt.
Proof.
  unfold qsign, Qlt. simpl. intros H. apply Z.compare_gt_iff. lia.
Qed.

(** A channel multiplied by a factor at most 1 is stored as a byte at most
    the channel. *)
Lemma scaled_channel_le (v : Z) (x k : Q) :
  (0 <= v)%Z -> (k <= 1)%Q -> x == inject_Z v * k ->
  (toUint8Clamp (clamp (Fin x) (Fin 0) (Fin 255)) <= v)%Z.
Proof.
  intros Hv Hk Hx. rewrite store_clamp. apply toUint8Clamp_le; [|exact Hv].
  assert (H0 : (0 <= inject_Z v)%Q)
    by (change 0%Q with (inject_Z 0); rewrite <- Zle_Qle; exact Hv).
  assert (Hp : (0 <= inject_Z v * (1 - k))%Q)
    by (apply Qmult_le_0_compat; lra).
  rewrite Hx. lra.
Qed.

Lemma brilliancePixel_darkens (strength : Q) (i : nat) (d : list Z)
  (k : nat) (v : Z) :
  (strength < 0)%Q -> bytes d -> d !! k = Some v ->
  exists v', BrillianceCopy.brilliancePixel strength i d !! k = Some v'
             /\ (v' <= v)%Z.
Proof.
  intros Hs Hd Hk.
  assert (Hsame : exists v', d !! k = Some v' /\ (v' <= v)%Z)
    by (exists v; split; [exact Hk | lia]).
  unfold BrillianceCopy.brilliancePixel, rdb.
  destruct (d !! (i * 4)) as [R|] eqn:ER; [|exact Hsame].
  destruct (d !! (i * 4 + 1)) as [G|] eqn:EG;
    [|cbn; exact Hsame].
  destruct (d !! (i * 4 + 2)) as [B|] eqn:EB;
    [|cbn; exact Hsame].
  cbn [from_option]. unfold ofZ.
  rewrite (proj2 (Qlt_bool_false_iff 0 strength)) by lra.
  cbn [nadd nmul]. 
  change (ndiv (Fin ?a) (Fin 255)) with (Fin (Qred (a / 255))).
  set (yq := Qred (_ / 255)).
  cbv zeta. cbn [nmul].
  change (ngt (Fin yq) (Fin 0.001)) with (Qlt_bool 0.001 yq).
  destruct (Qlt_bool 0.001 yq) eqn:Ey; [|exact Hsame].
  apply Qlt_bool_iff in Ey.
  assert (Hy : (0 < yq)%Q) by lra.
  set (K := (1 + strength * 0.5)%Q).
  assert (Esc : ndiv (Fin (Qred (yq * K))) (Fin yq)
                = Fin (Qred (Qred (yq * K) / yq))).
  { unfold ndiv. rewrite (qsign_pos yq Hy). reflexivity. }
  rewrite Esc. cbn [nmul].
  assert (Hsc : Qred (yq * K) / yq == K).
  { rewrite Qred_correct. field. lra. }
  assert (HK : (K <= 1)%Q) by (subst K; lra).
  pose proof (proj1 (Forall_lookup _ _) Hd) as Hb.
  assert (Hch : forall c, (0 <= c)%Z ->
    (toUint8Clamp (clamp (Fin (Qred (inject_Z c * Qred (Qred (yq * K) / yq))))
       (Fin 0) (Fin 255)) <= c)%Z).
  { intros c Hc. apply (scaled_channel_le c _ K Hc HK).
    rewrite !Qred_correct. rewrite Qred_correct in Hsc. rewrite Hsc.
    reflexivity. }
  pose proof (lookup_lt_Some _ _ _ ER) as LR.
  pose proof (lookup_lt_Some _ _ _ EG) as LG.
  pose proof (lookup_lt_Some _ _ _ EB) as LB.
  destruct (decide (k = i * 4 + 2)) as [->|N2].
  { eexists. split;
      [apply list_lookup_insert_eq; rewrite !length_insert; exact LB|].
    assert (v = B) by congruence. subst v. apply Hch.
    apply (Hb _ _ EB). }
  rewrite list_lookup_insert_ne by congruence.
  destruct (decide (k = i * 4 + 1)) as [->|N1].
  { eexists. split;
      [apply list_lookup_insert_eq; rewrite !length_insert; exact LG|].
    assert (v = G) by congruence. subst v. apply Hch.
    apply (Hb _ _ EG). }
  rewrite list_lookup_insert_ne by congruence.
  destruct (decide (k = i * 4)) as [->|N0].
  { eexists. split; [apply list_lookup_insert_eq; exact LR|].
    assert (v = R) by congruence. subst v. apply Hch.
    apply (Hb _ _ ER). }
  rewrite list_lookup_insert_ne by congruence. exact Hsame.
Qed.

(** X19: in the copy of the pipeline that has the brilliance curve, a
    negative brilliance (without sharpening) never raises a channel: every
    cell of the output raster is at most the cell of the input. *)
Theorem negative_brilliance_never_brightens (settings : StencilSettings)
  (data : list Z) (w h : nat) (b : Q) (k : nat) (v : Z) :
  brilliance settings = Some b -> (b < 0)%Q ->
  (forall s, sharpness settings = Some s -> (s <= 0)%Q) ->
  bytes data -> data !! k = Some v ->
  exists v', BrillianceCopy.realism settings data w h !! k = Some v'
             /\ (v' <= v)%Z.
Proof.
  intros Hbr Hb Hsh Hd Hk. unfold BrillianceCopy.realism. cbv zeta.
  rewrite sharpenStep_off by exact Hsh.
  rewrite Hbr. cbn [default from_option id].
  assert (Hne : negb (Qeq_bool b 0) = true).
  { apply negb_true_iff. destruct (Qeq_bool b 0) eqn:E; [|reflexivity].
    apply Qeq_bool_iff in E. lra. }
  rewrite Hne. rewrite brilliance_loop_lookup.
  destruct (k / 4 <? w * h);
    [|exists v; split; [exact Hk | lia]].
  apply brilliancePixel_darkens; [|exact Hd | exact Hk].
  unfold Qdiv. change (/ 100)%Q with (1 # 100)%Q. lra.
Qed.

Lemma negative_brilliance_never_brightens_witness :
  exists v',
    BrillianceCopy.realism
      (mkSettings 223 0 0 REALISM false false 9 1.5 3.5 true
         None None None None (Some (-50)%Q))
      [10; 200; 30; 77; 90; 80; 70; 128]%Z 2 1 !! 1 = Some v'
    /\ (v' <= 200)%Z.
Proof.
  apply (negative_brilliance_never_brightens
    (mkSettings 223 0 0 REALISM false false 9 1.5 3.5 true
       None None None None (Some (-50)%Q))
    [10; 200; 30; 77; 90; 80; 70; 128]%Z 2 1 (-50) 1 200 eq_refl).
  - reflexivity.
  - intros s Hs. discriminate Hs.
  - unfold bytes. repeat constructor; lia.
  - reflexivity.
Defined.

(** * Page composer: the calls of each variant *)

Lemma drawVariant_calls (settings : StencilSettings) (w h : nat) (count : Z)
  (i : nat) (page : list drawCall) :
  drawVariant settings w h count i page
  = page ++ variantImage settings w h count i
         :: (if showDimensions settings
             then [variantLabel settings w h count i] else []).
Proof.
  unfold drawVariant, variantImage, variantLabel.
  destruct (gridLayout count) as [cols rows]. cbv zeta.
  destruct (h <=? w); destruct (showDimensions settings);
    try destruct (nlt _ _); rewrite <- ?app_assoc; reflexivity.
Qed.

Lemma variantImage_is_image (settings : StencilSettings) (w h : nat)
  (count : Z) (i : nat) :
  isDrawImage (variantImage settings w h count i) = true.
Proof.
  unfold variantImage. destruct (gridLayout count) as [cols rows].
  destruct (h <=? w); reflexivity.
Qed.

Lemma variantLabel_is_label (settings : StencilSettings) (w h : nat)
  (count : Z) (i : nat) :
  isDrawImage (variantLabel settings w h count i) = false.
Proof.
  unfold variantLabel. destruct (gridLayout count) as [cols rows].
  destruct (h <=? w); cbv zeta; destruct (nlt _ _); reflexivity.
Qed.

Lemma variants_page (settings : StencilSettings) (w h : nat) (count : Z)
  (n : nat) :
  images (for_ n (drawVariant settings w h count) [])
  = map (variantImage settings w h count) (seq 0 n)
  /\ labels (for_ n (drawVariant settings w h count) [])
     = if showDimensions settings
       then map (variantLabel settings w h count) (seq 0 n) else [].
Proof.
  induction n as [|n [IHi IHl]].
  - split; [reflexivity|]. destruct (showDimensions settings); reflexivity.
  - rewrite for_S, drawVariant_calls, seq_S, !map_app. unfold images, labels.
    rewrite !filter_app, !filter_cons.
    fold (images (for_ n (drawVariant settings w h count) [])).
    fold (labels (for_ n (drawVariant settings w h count) [])).
    rewrite IHi, IHl.
    pose proof (variantImage_is_image settings w h count n) as Hi.
    pose proof (variantLabel_is_label settings w h count n) as Hl.
    destruct (showDimensions settings).
    + rewrite !filter_cons, !filter_nil.
      repeat case_decide; try congruence. split; reflexivity.
    + rewrite !filter_nil.
      repeat case_decide; try congruence.
      split; [reflexivity | rewrite app_nil_r; reflexivity].
Qed.

Lemma images_variant (settings : StencilSettings) (w h : nat) (i : nat) :
  isMultipleSizes settings = true ->
  i < Z.to_nat (variantTotal settings) ->
  images (finishProcessing settings w h) !! i
  = Some (variantImage settings w h (variantTotal settings) i).
Proof.
  intros Hm Hi. unfold finishProcessing. rewrite Hm. cbv zeta.
  rewrite (proj1 (variants_page settings w h _ _)).
  rewrite list_lookup_fmap, lookup_seq_lt by exact Hi. reflexivity.
Qed.

Lemma labels_variant (settings : StencilSettings) (w h : nat) (i : nat) :
  isMultipleSizes settings = true -> showDimensions settings = true ->
  i < Z.to_nat (variantTotal settings) ->
  labels (finishProcessing settings w h) !! i
  = Some (variantLabel settings w h (variantTotal settings) i).
Proof.
  intros Hm Hs Hi. unfold finishProcessing. rewrite Hm. cbv zeta.
  rewrite (proj2 (variants_page settings w h _ _)), Hs.
  rewrite list_lookup_fmap, lookup_seq_lt by exact Hi. reflexivity.
Qed.

Lemma ndiv_fin_pos (x y : Q) :
  (0 < y)%Q -> ndiv (Fin x) (Fin y) = Fin (Qred (x / y)).
Proof. intros Hy. unfold ndiv. rewrite (qsign_pos y Hy). reflexivity. Qed.

Lemma inject_nat_pos (n : nat) : 1 <= n -> (0 < inject_Z (Z.of_nat n))%Q.
Proof.
  intros Hn. change 0%Q with (inject_Z 0). rewrite <- Zlt_Qlt. lia.
Qed.

Lemma gridLayout_cases (count : Z) :
  gridLayout count = (1, 3) /\ count = 3%Z
  \/ gridLayout count = (2, 3) /\ count = 6%Z
  \/ gridLayout count = (3, 3) /\ count <> 3%Z /\ count <> 6%Z.
Proof.
  unfold gridLayout.
  destruct (Z.eqb_spec count 3); [left; split; [reflexivity | assumption]|].
  destruct (Z.eqb_spec count 6);
    [right; left; split; [reflexivity | assumption]|].
  right; right. repeat split; assumption.
Qed.

(** The geometry of the image of variant [i] when the sizes are defined. *)
Lemma variantImage_geometry (settings : StencilSettings) (w h : nat)
  (count : Z) (i : nat) :
  (2 <= count)%Z -> 1 <= w -> 1 <= h ->
  let T := (300 * (minSize settings
                   + (maxSize settings - minSize settings)
                     / inject_Z (count - 1) * inject_Z (Z.of_nat i)))%Q in
  let cols := gridCols count in
  exists dx dy dw dh,
    variantImage settings w h count i
    = DrawImage (Fin dx) (Fin dy) (Fin dw) (Fin dh)
    /\ (if h <=? w then dw else dh) == T
    /\ dw * inject_Z (Z.of_nat h) == dh * inject_Z (Z.of_nat w)
    /\ dx + dw / 2
       == (inject_Z (Z.of_nat (i mod cols)) + (1 # 2))
          * (2480 / inject_Z (Z.of_nat cols))
    /\ dy + dh / 2 == (inject_Z (Z.of_nat (i / cols)) + (1 # 2)) * (3508 / 3).
Proof.
  intros Hc Hw Hh T cols. subst T cols. unfold gridCols, variantImage.
  pose proof (inject_nat_pos w Hw) as Hwq.
  pose proof (inject_nat_pos h Hh) as Hhq.
  assert (Hcq : (0 < inject_Z (count - 1))%Q).
  { change 0%Q with (inject_Z 0). rewrite <- Zlt_Qlt. lia. }
  unfold ofNat, ofZ, A4_WIDTH, A4_HEIGHT, DPI.
  rewrite (ndiv_fin_pos _ _ Hhq).
  set (aspect := Qred (inject_Z (Z.of_nat w) / inject_Z (Z.of_nat h))).
  assert (Easp : aspect == inject_Z (Z.of_nat w) / inject_Z (Z.of_nat h))
    by (subst aspect; apply Qred_correct).
  assert (Hasp : (0 < aspect)%Q).
  { rewrite Easp. apply Qlt_shift_div_l; [exact Hhq | lra]. }
  clearbody aspect.
  destruct (gridLayout_cases count) as [[-> _] | [[-> _] | [-> _]]];
    cbn [fst]; cbv zeta.
  all: cbn [nsub]; rewrite (ndiv_fin_pos _ _ Hcq); cbn [nadd nmul].
  all: rewrite !(ndiv_fin_pos _ (inject_Z (Z.of_nat _))) by reflexivity.
  all: cbn [nadd nmul].
  all: rewrite !(ndiv_fin_pos _ 2) by reflexivity.
  all: destruct (h <=? w); cbn [nadd nmul nsub];
    rewrite ?(ndiv_fin_pos _ _ Hasp), ?(ndiv_fin_pos _ 2) by reflexivity;
    cbn [nadd nmul nsub].
  all: eexists _, _, _, _; split; [reflexivity|].
  all: rewrite !Qred_correct, ?Easp.
  all: repeat split; try reflexivity; field; lra.
Qed.

(** X20: in multi-size mode with at least two variants, the side of variant
    [i] along the longer dimension of the image is 300 pixels per inch times
    a size that runs linearly from [minSize] (first variant) to [maxSize]
    (last variant), and every variant keeps the aspect ratio of the image. *)
Theorem variant_sizes_run_from_min_to_max (settings : StencilSettings)
  (w h : nat) (i : nat) :
  isMultipleSizes settings = true ->
  (2 <= variantTotal settings)%Z -> 1 <= w -> 1 <= h ->
  i < Z.to_nat (variantTotal settings) ->
  exists dx dy dw dh,
    images (finishProcessing settings w h) !! i
    = Some (DrawImage (Fin dx) (Fin dy) (Fin dw) (Fin dh))
    /\ (if h <=? w then dw else dh)
       == 300 * (minSize settings
                 + (maxSize settings - minSize settings)
                   / inject_Z (variantTotal settings - 1)
                   * inject_Z (Z.of_nat i))
    /\ (i = 0 -> (if h <=? w then dw else dh) == 300 * minSize settings)
    /\ (Z.of_nat i = (variantTotal settings - 1)%Z ->
        (if h <=? w then dw else dh) == 300 * maxSize settings)
    /\ dw * inject_Z (Z.of_nat h) == dh * inject_Z (Z.of_nat w).
Proof.
  intros Hm Hc Hw Hh Hi.
  destruct (variantImage_geometry settings w h (variantTotal settings) i
              Hc Hw Hh) as (dx & dy & dw & dh & E & Hside & Hasp & _).
  exists dx, dy, dw, dh.
  rewrite (images_variant settings w h i Hm Hi), E.
  assert (Hcq : (0 < inject_Z (variantTotal settings - 1))%Q).
  { change 0%Q with (inject_Z 0). rewrite <- Zlt_Qlt. lia. }
  repeat split; try assumption.
  - intros ->. rewrite Hside. change (inject_Z (Z.of_nat 0)) with 0%Q. ring.
  - intros Hl. rewrite Hside, Hl. field. lra.
Qed.

Lemma variant_sizes_run_from_min_to_max_witness :
  exists dx dy dw dh,
    images (finishProcessing
      (mkSettings 223 0 0 SOLID false true 6 1.5 3.5 true
         None None None None None) 400 200) !! 5
    = Some (DrawImage (Fin dx) (Fin dy) (Fin dw) (Fin dh))
    /\ dw == 300 * 3.5.
Proof.
  destruct (variant_sizes_run_from_min_to_max
    (mkSettings 223 0 0 SOLID false true 6 1.5 3.5 true
       None None None None None) 400 200 5 eq_refl)
    as (dx & dy & dw & dh & E & _ & _ & Hlast & _);
    [vm_compute; discriminate | lia | lia | vm_compute; lia |].
  exists dx, dy, dw, dh. split; [exact E|].
  apply Hlast. reflexivity.
Defined.

(** X21: in multi-size mode every variant is centred in a cell of the grid:
    column [i mod cols], row [i / cols], in cells of [2480 / cols] by
    [3508 / 3] pixels.  The centre is on the page exactly for the first
    [3 * cols] variants; the centre of every later variant (the tenth and
    following of a 3-column grid) lies below the page. *)
Theorem variant_is_centred_in_its_cell (settings : StencilSettings)
  (w h : nat) (i : nat) :
  isMultipleSizes settings = true ->
  (2 <= variantTotal settings)%Z -> 1 <= w -> 1 <= h ->
  i < Z.to_nat (variantTotal settings) ->
  let cols := gridCols (variantTotal settings) in
  exists dx dy dw dh,
    images (finishProcessing settings w h) !! i
    = Some (DrawImage (Fin dx) (Fin dy) (Fin dw) (Fin dh))
    /\ dx + dw / 2
       == (inject_Z (Z.of_nat (i mod cols)) + (1 # 2))
          * (2480 / inject_Z (Z.of_nat cols))
    /\ dy + dh / 2 == (inject_Z (Z.of_nat (i / cols)) + (1 # 2)) * (3508 / 3)
    /\ (i < 3 * cols -> (dy + dh / 2 < 3508)%Q)
    /\ (3 * cols <= i -> (3508 < dy + dh / 2)%Q).
Proof.
  intros Hm Hc Hw Hh Hi cols.
  destruct (variantImage_geometry settings w h (variantTotal settings) i
              Hc Hw Hh) as (dx & dy & dw & dh & E & _ & _ & Hx & Hy).
  fold cols in Hx, Hy.
  exists dx, dy, dw, dh.
  rewrite (images_variant settings w h i Hm Hi), E.
  assert (Hcols : 1 <= cols).
  { subst cols. unfold gridCols.
    destruct (gridLayout_cases (variantTotal settings))
      as [[-> _] | [[-> _] | [-> _]]]; simpl; lia. }
  change (3508 / 3)%Q with (3508 # 3)%Q in Hy.
  repeat split; try assumption.
  - intros Hon. rewrite Hy.
    assert (Hrow : (i / cols < 3)%nat)
      by (apply Nat.Div0.div_lt_upper_bound; lia).
    assert (Hq : (inject_Z (Z.of_nat (i / cols)) <= inject_Z 2)%Q)
      by (rewrite <- Zle_Qle; lia).
    change (inject_Z 2) with 2%Q in Hq. lra.
  - intros Hoff. rewrite Hy.
    assert (Hrow : (3 <= i / cols)%nat)
      by (apply Nat.div_le_lower_bound; lia).
    assert (Hq : (inject_Z 3 <= inject_Z (Z.of_nat (i / cols)))%Q)
      by (rewrite <- Zle_Qle; lia).
    change (inject_Z 3) with 3%Q in Hq. lra.
Qed.

Lemma variant_is_centred_in_its_cell_witness :
  exists dx dy dw dh,
    images (finishProcessing
      (mkSettings 223 0 0 SOLID false true 12 1.5 3.5 true
         None None None None None) 400 200) !! 10
    = Some (DrawImage (Fin dx) (Fin dy) (Fin dw) (Fin dh))
    /\ (3508 < dy + dh / 2)%Q.
Proof.
  destruct (variant_is_centred_in_its_cell
    (mkSettings 223 0 0 SOLID false true 12 1.5 3.5 true
       None None None None None) 400 200 10 eq_refl)
    as (dx & dy & dw & dh & E & _ & _ & _ & Hoff);
    [vm_compute; discriminate | lia | lia | vm_compute; lia |].
  exists dx, dy, dw, dh. split; [exact E|].
  apply Hoff. vm_compute. lia.
Defined.

Lemma zero_step_is_NaN (x : Q) :
  nmul (ndiv (Fin x) (ofZ (1 - 1))) (ofNat 0) = NaN.
Proof.
  change (ofZ (1 - 1)) with (Fin 0). change (ofNat 0) with (Fin 0).
  unfold ndiv. change (qsign 0) with Eq. cbv iota.
  unfold inf_times. destruct (qsign x); reflexivity.
Qed.

Lemma nmul_NaN_l (v : num) : nmul NaN v = NaN.
Proof. reflexivity. Qed.

Lemma ndiv_NaN_l (v : num) : ndiv NaN v = NaN.
Proof. reflexivity. Qed.

(** X22: with a variant count of 1 the size of the only variant is not a
    number, whatever the sizes asked for: the step [(max - min) / (count -
    1)] divides by zero and is multiplied by 0 (the guarded [step] constant
    of the source is never used).  The image is drawn with NaN position and
    size, and its label, if shown, carries NaN. *)
Theorem single_variant_has_no_size (settings : StencilSettings) (w h : nat) :
  isMultipleSizes settings = true -> variantCount settings = 1%Z ->
  finishProcessing settings w h
  = DrawImage NaN NaN NaN NaN
    :: (if showDimensions settings
        then [FillText NaN (Fin (1240 # 3)) (Fin (3448 # 3))] else []).
Proof.
  intros Hm Hc. unfold finishProcessing, variantTotal. rewrite Hm, Hc.
  cbv zeta. change (1 =? 0)%Z with false. cbv iota.
  change (Z.to_nat 1) with 1. rewrite for_S, for_0, drawVariant_calls.
  cbn [app]. f_equal.
  - unfold variantImage. change (gridLayout 1) with (3, 3). cbv zeta.
    cbn [nsub]. rewrite zero_step_is_NaN.
    rewrite nadd_NaN_r, nmul_NaN_l, ndiv_NaN_l.
    destruct (h <=? w); rewrite ?nmul_NaN_l, ?ndiv_NaN_l, !nsub_NaN_r;
      reflexivity.
  - destruct (showDimensions settings); [|reflexivity]. f_equal.
    unfold variantLabel. change (gridLayout 1) with (3, 3). cbv zeta.
    cbn [nsub]. rewrite zero_step_is_NaN.
    rewrite nadd_NaN_r, nmul_NaN_l, ndiv_NaN_l.
    destruct (h <=? w); rewrite ?nmul_NaN_l, ?ndiv_NaN_l, !nadd_NaN_r,
      !nadd_NaN_l; reflexivity.
Qed.

Lemma single_variant_has_no_size_witness :
  finishProcessing
    (mkSettings 223 0 0 SOLID false true 1 1.5 3.5 false
       None None None None None) 400 200
  = [DrawImage NaN NaN NaN NaN].
Proof.
  apply (single_variant_has_no_size
    (mkSettings 223 0 0 SOLID false true 1 1.5 3.5 false
       None None None None None) 400 200 eq_refl eq_refl).
Defined.

(** X23: in single mode an image of positive size is drawn once, with its
    aspect ratio, centred on the page and scaled to fill the page less a
    margin of 100 pixels: it is 2280 wide or 3308 high and exceeds neither. *)
Theorem single_image_fits_the_padded_page (settings : StencilSettings)
  (w h : nat) :
  isMultipleSizes settings = false -> 1 <= w -> 1 <= h ->
  exists dx dy dw dh,
    finishProcessing settings w h
    = [DrawImage (Fin dx) (Fin dy) (Fin dw) (Fin dh)]
    /\ (dw <= 2280 /\ dh <= 3308)%Q
    /\ (dw == 2280 \/ dh == 3308)
    /\ dw * inject_Z (Z.of_nat h) == dh * inject_Z (Z.of_nat w)
    /\ (dx + dw / 2 == 1240 /\ dy + dh / 2 == 1754)
    /\ (100 <= dx /\ 100 <= dy)%Q.
Proof.
  intros Hm Hw Hh. unfold finishProcessing. rewrite Hm. cbv zeta.
  pose proof (inject_nat_pos w Hw) as Hwq.
  pose proof (inject_nat_pos h Hh) as Hhq.
  unfold ofNat, ofZ, A4_WIDTH, A4_HEIGHT.
  rewrite (ndiv_fin_pos _ _ Hhq).
  set (aspect := Qred (inject_Z (Z.of_nat w) / inject_Z (Z.of_nat h))).
  assert (Easp : aspect == inject_Z (Z.of_nat w) / inject_Z (Z.of_nat h))
    by (subst aspect; apply Qred_correct).
  assert (Hasp : (0 < aspect)%Q).
  { rewrite Easp. apply Qlt_shift_div_l; [exact Hhq | lra]. }
  clearbody aspect.
  change (nsub (Fin 2480) (nmul (Fin 100) (Fin 2))) with (Fin 2280).
  change (nsub (Fin 3508) (nmul (Fin 100) (Fin 2))) with (Fin 3308).
  rewrite (ndiv_fin_pos _ _ Hasp).
  change (ngt (Fin ?a) (Fin ?b)) with (Qlt_bool b a).
  assert (Hmul : forall c, c / aspect * aspect == c)
    by (intros c; field; lra).
  destruct (Qlt_bool 3308 (Qred (2280 / aspect))) eqn:Ecmp.
  - apply Qlt_bool_iff in Ecmp. rewrite Qred_correct in Ecmp.
    assert (Hlt : (3308 * aspect < 2280)%Q).
    { rewrite <- (Hmul 2280%Q). apply Qmult_lt_compat_r; assumption. }
    cbn [nmul nsub]. rewrite !(ndiv_fin_pos _ 2) by reflexivity.
    eexists _, _, _, _. split; [reflexivity|].
    rewrite !Qred_correct.
    change ((3508 - 3308) / 2)%Q with (200 # 2)%Q.
    repeat split; try lra.
    + rewrite Easp. field. lra.
    + field.
    + unfold Qdiv. change (/ 2)%Q with (1 # 2)%Q. lra.
  - apply Qlt_bool_false_iff in Ecmp. rewrite Qred_correct in Ecmp.
    cbn [nmul nsub]. rewrite !(ndiv_fin_pos _ 2) by reflexivity.
    eexists _, _, _, _. split; [reflexivity|].
    rewrite !Qred_correct.
    change ((2480 - 2280) / 2)%Q with (200 # 2)%Q.
    repeat split; try lra.
    + rewrite Easp. field. lra.
    + field. lra.
    + set (dh := (2280 / aspect)%Q) in *. unfold Qdiv.
      change (/ 2)%Q with (1 # 2)%Q. lra.
Qed.

Lemma single_image_fits_the_padded_page_witness :
  exists dx dy dw dh,
    finishProcessing
      (mkSettings 223 0 0 SOLID false false 9 1.5 3.5 true
         None None None None None) 100 400
    = [DrawImage (Fin dx) (Fin dy) (Fin dw) (Fin dh)]
    /\ (dw <= 2280 /\ dh <= 3308)%Q.
Proof.
  destruct (single_image_fits_the_padded_page
    (mkSettings 223 0 0 SOLID false false 9 1.5 3.5 true
       None None None None None) 100 400 eq_refl)
    as (dx & dy & dw & dh & E & Hfit & _); [lia | lia |].
  exists dx, dy, dw, dh. split; [exact E | exact Hfit].
Defined.

(** X24: when the dimensions are shown, variant [i] gets one label: it
    carries the size of the variant in inches, is centred under the variant,
    and is always written above the bottom of the variant's row of cells,
    also when the variant itself overflows the cell. *)
Theorem label_stays_inside_its_row (settings : StencilSettings)
  (w h : nat) (i : nat) :
  isMultipleSizes settings = true -> showDimensions settings = true ->
  (2 <= variantTotal settings)%Z -> 1 <= w -> 1 <= h ->
  i < Z.to_nat (variantTotal settings) ->
  let cols := gridCols (variantTotal settings) in
  exists v x y,
    labels (finishProcessing settings w h) !! i
    = Some (FillText (Fin v) (Fin x) (Fin y))
    /\ v == minSize settings
            + (maxSize settings - minSize settings)
              / inject_Z (variantTotal settings - 1) * inject_Z (Z.of_nat i)
    /\ x == (inject_Z (Z.of_nat (i mod cols)) + (1 # 2))
            * (2480 / inject_Z (Z.of_nat cols))
    /\ (y < inject_Z (Z.of_nat (i / cols + 1)) * (3508 / 3))%Q.
Proof.
  intros Hm Hs Hc Hw Hh Hi cols. subst cols.
  rewrite (labels_variant settings w h i Hm Hs Hi).
  set (count := variantTotal settings) in *. clearbody count.
  unfold gridCols, variantLabel.
  pose proof (inject_nat_pos w Hw) as Hwq.
  pose proof (inject_nat_pos h Hh) as Hhq.
  assert (Hcq : (0 < inject_Z (count - 1))%Q).
  { change 0%Q with (inject_Z 0). rewrite <- Zlt_Qlt. lia. }
  unfold ofNat, ofZ, A4_WIDTH, A4_HEIGHT, DPI.
  rewrite (ndiv_fin_pos _ _ Hhq).
  set (aspect := Qred (inject_Z (Z.of_nat w) / inject_Z (Z.of_nat h))).
  assert (Hasp : (0 < aspect)%Q).
  { subst aspect. rewrite Qred_correct.
    apply Qlt_shift_div_l; [exact Hhq | lra]. }
  clearbody aspect.
  destruct (gridLayout_cases count) as [[-> _] | [[-> _] | [-> _]]];
    cbn [fst]; cbv zeta.
  all: cbn [nsub]; rewrite (ndiv_fin_pos _ _ Hcq); cbn [nadd nmul].
  all: rewrite !(ndiv_fin_pos _ (inject_Z (Z.of_nat _))) by reflexivity.
  all: cbn [nadd nmul].
  all: rewrite !(ndiv_fin_pos _ 2) by reflexivity.
  all: destruct (h <=? w); cbn [nadd nmul nsub];
    rewrite ?(ndiv_fin_pos _ _ Hasp), ?(ndiv_fin_pos _ 2) by reflexivity;
    cbn [nadd nmul nsub nlt].
  all: match goal with |- context [Qlt_bool ?a ?b] =>
         destruct (Qlt_bool a b) eqn:Ecmp end.
  all: eexists _, _, _; (split; [reflexivity|]).
  all: try (apply Qlt_bool_iff in Ecmp).
  all: rewrite !Qred_correct; rewrite ?Qred_correct in Ecmp.
  all: (split; [reflexivity|]).
  all: (split; [field|]).
  all: try exact Ecmp.
  all: set (row := inject_Z (Z.of_nat (i / _ + 1))).
  all: change (3508 / inject_Z (Z.of_nat 3))%Q with (3508 # 3)%Q.
  all: change (3508 / 3)%Q with (3508 # 3)%Q.
  all: lra.
Qed.

Lemma label_stays_inside_its_row_witness :
  exists v x y,
    labels (finishProcessing
      (mkSettings 223 0 0 SOLID false true 9 1.5 3.5 true
         None None None None None) 200 400) !! 8
    = Some (FillText (Fin v) (Fin x) (Fin y))
    /\ v == 3.5.
Proof.
  destruct (label_stays_inside_its_row
    (mkSettings 223 0 0 SOLID false true 9 1.5 3.5 true
       None None None None None) 200 400 8 eq_refl eq_refl)
    as (v & x & y & E & Hv & _);
    [vm_compute; discriminate | lia | lia | vm_compute; lia |].
  exists v, x, y. split; [exact E|].
  rewrite Hv. reflexivity.
Defined.

(** * The size of the processing canvas *)

Lemma inject_nat_le (a b : nat) :
  a <= b -> (inject_Z (Z.of_nat a) <= inject_Z (Z.of_nat b))%Q.
Proof. intros H. rewrite <- Zle_Qle. lia. Qed.

Lemma inject_nat_lt (a b : nat) :
  a < b -> (inject_Z (Z.of_nat a) < inject_Z (Z.of_nat b))%Q.
Proof. intros H. rewrite <- Zlt_Qlt. lia. Qed.

Lemma ndiv_by_zero_dim : ndiv MAX_DIM (ofNat 0) = PInf.
Proof. reflexivity. Qed.

Lemma ratio_of_dim (n : nat) :
  1 <= n ->
  ndiv MAX_DIM (ofNat n) = Fin (Qred (2500 / inject_Z (Z.of_nat n))).
Proof. intros Hn. apply ndiv_fin_pos, inject_nat_pos, Hn. Qed.

(** The scaling ratio brings the longer side to [MAX_DIM]. *)
Lemma ratio_spec (nw nh : nat) :
  2500 < nw \/ 2500 < nh ->
  exists r, nmin (ndiv MAX_DIM (ofNat nw)) (ndiv MAX_DIM (ofNat nh)) = Fin r
            /\ r * inject_Z (Z.of_nat (Nat.max nw nh)) == 2500.
Proof.
  intros Hbig.
  destruct (Nat.eq_dec nw 0) as [->|Hw0].
  { rewrite ndiv_by_zero_dim, ratio_of_dim by lia.
    eexists. split; [reflexivity|].
    rewrite Nat.max_0_l, Qred_correct. field.
    pose proof (inject_nat_pos nh ltac:(lia)). lra. }
  destruct (Nat.eq_dec nh 0) as [->|Hh0].
  { rewrite ndiv_by_zero_dim, ratio_of_dim by lia.
    eexists. split; [reflexivity|].
    rewrite Nat.max_0_r, Qred_correct. field.
    pose proof (inject_nat_pos nw ltac:(lia)). lra. }
  rewrite !ratio_of_dim by lia.
  pose proof (inject_nat_pos nw ltac:(lia)) as Hwq.
  pose proof (inject_nat_pos nh ltac:(lia)) as Hhq.
  set (a := Qred (2500 / inject_Z (Z.of_nat nw))).
  set (b := Qred (2500 / inject_Z (Z.of_nat nh))).
  assert (Ha : a * inject_Z (Z.of_nat nw) == 2500)
    by (subst a; rewrite Qred_correct; field; lra).
  assert (Hb : b * inject_Z (Z.of_nat nh) == 2500)
    by (subst b; rewrite Qred_correct; field; lra).
  assert (Ha0 : (0 < a)%Q).
  { subst a. rewrite Qred_correct. apply Qlt_shift_div_l; [exact Hwq | lra]. }
  assert (Hb0 : (0 < b)%Q).
  { subst b. rewrite Qred_correct. apply Qlt_shift_div_l; [exact Hhq | lra]. }
  clearbody a b.
  change (nmin (Fin a) (Fin b)) with (if Qle_bool a b then Fin a else Fin b).
  destruct (Qle_bool a b) eqn:E.
  - apply Qle_bool_iff in E. exists a. split; [reflexivity|].
    destruct (Nat.le_gt_cases nh nw) as [Hle|Hgt].
    + rewrite Nat.max_l by exact Hle. exact Ha.
    + exfalso. apply inject_nat_lt in Hgt.
      assert (H1 : (a * inject_Z (Z.of_nat nw) < a * inject_Z (Z.of_nat nh))%Q)
        by (apply Qmult_lt_l; assumption).
      assert (H2 : (a * inject_Z (Z.of_nat nh) <= b * inject_Z (Z.of_nat nh))%Q)
        by (apply Qmult_le_compat_r; lra).
      lra.
  - assert (Hlt : (b < a)%Q).
    { apply Qnot_le_lt. rewrite <- Qle_bool_iff. congruence. }
    exists b. split; [reflexivity|].
    destruct (Nat.le_gt_cases nw nh) as [Hle|Hgt].
    + rewrite Nat.max_r by exact Hle. exact Hb.
    + exfalso. apply inject_nat_lt in Hgt.
      assert (H1 : (b * inject_Z (Z.of_nat nh) < b * inject_Z (Z.of_nat nw))%Q)
        by (apply Qmult_lt_l; assumption).
      assert (H2 : (b * inject_Z (Z.of_nat nw) <= a * inject_Z (Z.of_nat nw))%Q)
        by (apply Qmult_le_compat_r; lra).
      lra.
Qed.

(** A side scaled by the ratio and rounded. *)
Lemma scaled_side (x M : nat) (r : Q) :
  r * inject_Z (Z.of_nat M) == 2500 -> x <= M -> 1 <= M ->
  exists z, nround (nmul (ofNat x) (Fin r)) = ofZ z
            /\ (0 <= z <= 2500)%Z
            /\ (x = M -> z = 2500%Z)
            /\ (5000 * x < M -> z = 0%Z).
Proof.
  intros Hr Hx HM.
  pose proof (inject_nat_pos M HM) as HMq.
  pose proof (inject_nat_le x M Hx) as Hxq.
  assert (Hx0 : (0 <= inject_Z (Z.of_nat x))%Q).
  { change 0%Q with (inject_Z 0). rewrite <- Zle_Qle. lia. }
  assert (Hr0 : (0 < r)%Q).
  { destruct (Qlt_le_dec 0 r) as [|Hneg]; [assumption|].
    exfalso.
    assert ((- r) * inject_Z (Z.of_nat M) >= 0)%Q
      by (apply Qmult_le_0_compat; lra).
    lra. }
  unfold ofNat, ofZ. cbn [nmul nround].
  set (q := Qred (inject_Z (Z.of_nat x) * r)).
  assert (Eq : q == inject_Z (Z.of_nat x) * r) by (subst q; apply Qred_correct).
  clearbody q.
  assert (Hq0 : (0 <= q)%Q) by (rewrite Eq; apply Qmult_le_0_compat; lra).
  assert (Hq1 : (q <= 2500)%Q).
  { rewrite Eq, <- Hr, (Qmult_comm r). apply Qmult_le_compat_r; lra. }
  exists (Qfloor (q + (1 # 2))). split; [reflexivity|].
  assert (Hlo : (0 <= Qfloor (q + (1 # 2)))%Z).
  { change 0%Z with (Qfloor 0%Q). apply Qfloor_resp_le. lra. }
  assert (Hhi : (Qfloor (q + (1 # 2)) <= 2500)%Z).
  { change 2500%Z with (Qfloor (2500 + (1 # 2))%Q).
    apply Qfloor_resp_le. lra. }
  repeat split; try assumption.
  - intros ->.
    assert (E : q + (1 # 2) == 2500 + (1 # 2))
      by (rewrite Eq, (Qmult_comm _ r), Hr; reflexivity).
    rewrite (Qfloor_comp _ _ E). reflexivity.
  - intros Hthin.
    assert (Hhalf : (q < 1 # 2)%Q).
    { assert (H5 : (5000 * inject_Z (Z.of_nat x) < inject_Z (Z.of_nat M))%Q).
      { change 5000%Q with (inject_Z (Z.of_nat 5000)).
        rewrite <- inject_Z_mult, <- Nat2Z.inj_mul. apply inject_nat_lt.
        exact Hthin. }
      assert (H6 : (r * (5000 * inject_Z (Z.of_nat x))
                    < r * inject_Z (Z.of_nat M))%Q)
        by (apply Qmult_lt_l; assumption).
      rewrite Eq. lra. }
    pose proof (Qfloor_le (q + (1 # 2))) as Hf.
    assert (Hlt1 : (inject_Z (Qfloor (q + (1 # 2))) < inject_Z 1)%Q)
      by (change (inject_Z 1) with 1%Q; lra).
    rewrite <- Zlt_Qlt in Hlt1. lia.
Qed.

Lemma no_resize (nw nh : nat) :
  nw <= 2500 -> nh <= 2500 ->
  processingSize nw nh = (ofNat nw, ofNat nh).
Proof.
  intros Hw Hh. unfold processingSize, MAX_DIM, ofNat, ofZ. cbv zeta.
  change (ngt (Fin ?a) (Fin ?b)) with (Qlt_bool b a).
  rewrite !(proj2 (Qlt_bool_false_iff _ _));
    [reflexivity | |];
    change 2500%Q with (inject_Z (Z.of_nat 2500));
    apply inject_nat_le; assumption.
Qed.

Lemma resize (nw nh : nat) :
  2500 < nw \/ 2500 < nh ->
  exists r,
    r * inject_Z (Z.of_nat (Nat.max nw nh)) == 2500
    /\ processingSize nw nh
       = (nround (nmul (ofNat nw) (Fin r)), nround (nmul (ofNat nh) (Fin r))).
Proof.
  intros Hbig. destruct (ratio_spec nw nh Hbig) as (r & Er & Hr).
  exists r. split; [exact Hr|].
  unfold processingSize. cbv zeta. rewrite Er.
  assert (E : ngt (ofNat nw) MAX_DIM || ngt (ofNat nh) MAX_DIM = true).
  { unfold MAX_DIM, ofNat, ofZ.
    change (ngt (Fin ?a) (Fin ?b)) with (Qlt_bool b a).
    apply orb_true_iff.
    destruct Hbig as [H|H]; [left | right];
      apply Qlt_bool_iff;
      change 2500%Q with (inject_Z (Z.of_nat 2500));
      apply inject_nat_lt; exact H. }
  rewrite E. reflexivity.
Qed.

(** X25: the processing canvas never exceeds 2500 pixels on a side: an image
    within that bound keeps its size, and a larger one is scaled so that its
    longer side is exactly 2500 and the other at most 2500. *)
Theorem processing_size_is_bounded (naturalWidth naturalHeight : nat) :
  exists w h : Z,
    processingSize naturalWidth naturalHeight = (ofZ w, ofZ h)
    /\ (0 <= w <= 2500 /\ 0 <= h <= 2500)%Z
    /\ (naturalWidth <= 2500 -> naturalHeight <= 2500 ->
        w = Z.of_nat naturalWidth /\ h = Z.of_nat naturalHeight)
    /\ (2500 < naturalWidth \/ 2500 < naturalHeight -> Z.max w h = 2500%Z).
Proof.
  destruct (Nat.le_gt_cases naturalWidth 2500) as [Hw|Hw];
    [destruct (Nat.le_gt_cases naturalHeight 2500) as [Hh|Hh]|].
  - exists (Z.of_nat naturalWidth), (Z.of_nat naturalHeight).
    split; [apply no_resize; assumption|].
    repeat split; lia.
  - destruct (resize naturalWidth naturalHeight (or_intror Hh))
      as (r & Hr & ->).
    rewrite Nat.max_r in Hr by lia.
    destruct (scaled_side naturalWidth naturalHeight r Hr ltac:(lia) ltac:(lia))
      as (zw & -> & Hzw & _ & _).
    destruct (scaled_side naturalHeight naturalHeight r Hr ltac:(lia) ltac:(lia))
      as (zh & -> & Hzh & Hmax & _).
    exists zw, zh. split; [reflexivity|].
    specialize (Hmax eq_refl). repeat split; lia.
  - destruct (resize naturalWidth naturalHeight (or_introl Hw))
      as (r & Hr & ->).
    set (M := Nat.max naturalWidth naturalHeight) in *.
    destruct (scaled_side naturalWidth M r Hr ltac:(lia) ltac:(lia))
      as (zw & -> & Hzw & Hmw & _).
    destruct (scaled_side naturalHeight M r Hr ltac:(lia) ltac:(lia))
      as (zh & -> & Hzh & Hmh & _).
    exists zw, zh. split; [reflexivity|].
    assert (naturalWidth = M \/ naturalHeight = M) as [E|E] by lia;
      [specialize (Hmw E) | specialize (Hmh E)]; repeat split; lia.
Qed.

(** X26: an image more than 5000 times as wide as it is high gets a
    processing canvas of height 0 (and width 2500): the rounding of the
    scaled height is not kept above zero. *)
Theorem thin_image_gets_zero_height (naturalWidth naturalHeight : nat) :
  5000 * naturalHeight < naturalWidth -> 2500 < naturalWidth ->
  processingSize naturalWidth naturalHeight = (Fin 2500, Fin 0).
Proof.
  intros Hthin Hbig.
  destruct (resize naturalWidth naturalHeight (or_introl Hbig))
    as (r & Hr & ->).
  rewrite Nat.max_l in Hr by lia.
  destruct (scaled_side naturalWidth naturalWidth r Hr ltac:(lia) ltac:(lia))
    as (zw & -> & _ & Hmax & _).
  destruct (scaled_side naturalHeight naturalWidth r Hr ltac:(lia) ltac:(lia))
    as (zh & -> & _ & _ & Hzero).
  rewrite (Hmax eq_refl), (Hzero Hthin). reflexivity.
Qed.

Lemma thin_image_gets_zero_height_witness :
  processingSize (5000 + 1) 1 = (Fin 2500, Fin 0).
Proof.
  apply (thin_image_gets_zero_height (5000 + 1) 1); lia.
Defined.

(** * The gallery updates of [processImages] *)

Lemma findById_id (l : list App.ProcessedImage) (i : string)
  (u : App.ProcessedImage) :
  App.findById l i = Some u -> App.id u = i.
Proof.
  intros H. apply find_some in H as [_ H]. apply String.eqb_eq. exact H.
Qed.

Lemma updatedImage_id (s : StencilSettings) (o : App.outcome)
  (img : App.ProcessedImage) :
  App.id (App.updatedImage s o img) = App.id img.
Proof. destruct o; reflexivity. Qed.

Lemma updatedImage_idle (s : StencilSettings) (o : App.outcome)
  (img : App.ProcessedImage) :
  App.isProcessing (App.updatedImage s o img) = false.
Proof. destruct o; reflexivity. Qed.

Lemma markProcessing_ids (targets prev : list App.ProcessedImage) :
  List.map App.id (App.markProcessing targets prev) = List.map App.id prev.
Proof.
  unfold App.markProcessing. rewrite List.map_map. apply List.map_ext.
  intros img. destruct (App.findById targets (App.id img)); reflexivity.
Qed.

Lemma mergeUpdated_ids (updated prev : list App.ProcessedImage) :
  List.map App.id (App.mergeUpdated updated prev) = List.map App.id prev.
Proof.
  unfold App.mergeUpdated. rewrite List.map_map. apply List.map_ext.
  intros img. destruct (App.findById updated (App.id img)) as [u|] eqn:E;
    [|reflexivity].
  apply (findById_id _ _ _ E).
Qed.

Lemma findById_map_update (s : StencilSettings)
  (run : App.ProcessedImage -> App.outcome)
  (targets : list App.ProcessedImage) (i : string) :
  App.findById
    (List.map (fun img => App.updatedImage s (run img) img) targets) i
  = option_map (fun img => App.updatedImage s (run img) img)
      (App.findById targets i).
Proof.
  unfold App.findById. induction targets as [|t ts IH]; [reflexivity|].
  simpl. rewrite updatedImage_id.
  destruct (String.eqb (App.id t) i); [reflexivity | exact IH].
Qed.

Lemma lookup_map {A B : Type} (f : A -> B) (l : list A) (k : nat) :
  List.map f l !! k = option_map f (l !! k).
Proof.
  induction l as [|a l IH] in k |- *; destruct k; simpl; auto.
Qed.

(** X27: [processImages] never adds, drops or reorders images: after its
    two updates the gallery lists the same ids in the same order, whatever
    the targets and however their processing ends. *)
Theorem processImages_keeps_the_gallery
  (run : App.ProcessedImage -> App.outcome)
  (targets : list App.ProcessedImage) (settingsToUse : StencilSettings)
  (prev : list App.ProcessedImage) :
  List.map App.id (App.processImages run targets settingsToUse prev)
  = List.map App.id prev.
Proof.
  unfold App.processImages. cbv zeta.
  rewrite mergeUpdated_ids. apply markProcessing_ids.
Qed.

(** X28: after [processImages] no target is left flagged as being
    processed, whether its processing succeeded or failed, and an image
    whose id is not among the targets is exactly as it was. *)
Theorem processImages_clears_the_busy_flag
  (run : App.ProcessedImage -> App.outcome)
  (targets : list App.ProcessedImage) (settingsToUse : StencilSettings)
  (prev : list App.ProcessedImage) (k : nat) (img : App.ProcessedImage) :
  prev !! k = Some img ->
  exists img',
    App.processImages run targets settingsToUse prev !! k = Some img'
    /\ (In (App.id img) (List.map App.id targets) ->
        App.isProcessing img' = false)
    /\ (~ In (App.id img) (List.map App.id targets) -> img' = img).
Proof.
  intros Hk. unfold App.processImages, App.mergeUpdated, App.markProcessing.
  cbv zeta. rewrite List.map_map, lookup_map, Hk. cbn [option_map].
  eexists. split; [reflexivity|].
  assert (Hid : App.id
    match App.findById targets (App.id img) with
    | Some _ =>
        App.mkImage (App.id img) (App.originalUrl img) (App.processedUrl img)
          (App.name img) (App.settings img) true (App.fileType img)
    | None => img
    end = App.id img)
    by (destruct (App.findById targets (App.id img)); reflexivity).
  rewrite Hid, findById_map_update.
  destruct (App.findById targets (App.id img)) as [t|] eqn:E;
    cbn [option_map]; split.
  - intros _. apply updatedImage_idle.
  - intros Hno. exfalso. apply Hno.
    apply find_some in E as [Hin Heq]. apply String.eqb_eq in Heq.
    rewrite <- Heq. apply in_map. exact Hin.
  - intros Hin. exfalso. apply in_map_iff in Hin as (t & Ht & Hin).
    apply (find_none _ _ E) in Hin. apply String.eqb_neq in Hin. congruence.
  - intros _. reflexivity.
Qed.

Lemma processImages_clears_the_busy_flag_witness :
  exists img',
    App.processImages (fun _ => App.Rejected)
      [App.mkImage "a" "u" None "a.png"
         (mkSettings 223 0 0 HOLLOW false false 9 1.5 3.5 true
            None None None None None) false "image/png"]
      (mkSettings 223 0 0 HOLLOW false false 9 1.5 3.5 true
         None None None None None)
      [App.mkImage "a" "u" None "a.png"
         (mkSettings 223 0 0 HOLLOW false false 9 1.5 3.5 true
            None None None None None) false "image/png"] !! 0 = Some img'
    /\ App.isProcessing img' = false.
Proof.
  destruct (processImages_clears_the_busy_flag (fun _ => App.Rejected)
    [App.mkImage "a" "u" None "a.png"
       (mkSettings 223 0 0 HOLLOW false false 9 1.5 3.5 true
          None None None None None) false "image/png"]
    (mkSettings 223 0 0 HOLLOW false false 9 1.5 3.5 true
       None None None None None)
    [App.mkImage "a" "u" None "a.png"
       (mkSettings 223 0 0 HOLLOW false false 9 1.5 3.5 true
          None None None None None) false "image/png"] 0 _ eq_refl)
    as (img' & E & Hidle & _).
  exists img'. split; [exact E|]. apply Hidle. left. reflexivity.
Defined.

(** * Luma and the detail filter *)







Lemma extractLuma_agree (data data' : list Z) (w h : nat) :
  (forall k, k mod 4 <> 3 -> data !! k = data' !! k) ->
  extractLuma data w h = extractLuma data' w h.
Proof.
  intros Hag.
  destruct (extractLuma_spec data w h) as [Hl Hget].
  destruct (extractLuma_spec data' w h) as [Hl' Hget'].
  apply list_eq. intros i.
  destruct (Nat.lt_ge_cases i (w * h)) as [Hi|Hi].
  - rewrite (Hget i Hi), (Hget' i Hi).
    assert (E0 : (i * 4) mod 4 = 0) by apply Nat.Div0.mod_mul.
    assert (E1 : (i * 4 + 1) mod 4 = 1)
      by (symmetry; apply (Nat.mod_unique _ _ i); lia).
    assert (E2 : (i * 4 + 2) mod 4 = 2)
      by (symmetry; apply (Nat.mod_unique _ _ i); lia).
    rewrite (rdb_agree data data' (i * 4)) by (apply Hag; lia).
    rewrite (rdb_agree data data' (i * 4 + 1)) by (apply Hag; lia).
    rewrite (rdb_agree data data' (i * 4 + 2)) by (apply Hag; lia).
    reflexivity.
  - rewrite !(proj2 (lookup_ge_None _ _)) by lia. reflexivity.
Qed.

(** X30: the stencil path never reads transparency: two rasters that differ
    in their alpha cells only give the same final map, for every settings
    record. *)
Theorem stencil_ignores_alpha (settings : StencilSettings)
  (data data' : list Z) (w h : nat) :
  (forall k, k mod 4 <> 3 -> data !! k = data' !! k) ->
  stencilMap settings data w h = stencilMap settings data' w h.
Proof.
  intros Hag. unfold stencilMap. cbv zeta.
  rewrite (extractLuma_agree data data' w h Hag). reflexivity.
Qed.

Lemma stencil_ignores_alpha_witness :
  stencilMap
    (mkSettings 223 0 0 SOLID false false 9 1.5 3.5 true
       None None None None None)
    [10; 200; 30; 255; 90; 80; 70; 255]%Z 2 1
  = stencilMap
      (mkSettings 223 0 0 SOLID false false 9 1.5 3.5 true
         None None None None None)
      [10; 200; 30; 0; 90; 80; 70; 128]%Z 2 1.
Proof.
  apply (stencil_ignores_alpha
    (mkSettings 223 0 0 SOLID false false 9 1.5 3.5 true
       None None None None None)
    [10; 200; 30; 255; 90; 80; 70; 255]%Z
    [10; 200; 30; 0; 90; 80; 70; 128]%Z 2 1).
  intros k Hk.
  do 8 (destruct k as [|k];
        [first [reflexivity | exfalso; apply Hk; reflexivity]|]).
  reflexivity.
Defined.
